(** * ASGarD: distribution plan, message schedule, tasking and the
      realspace transform's memory check

    A shallow embedding of
      - [src/distribution.cpp]: [num_effective_ranks], [get_subgrid],
        [get_plan], [find_column_dependencies], [round_robin_wheel],
        [dependencies_to_messages], [generate_messages] and the message
        loop of [exchange_results];
      - the tasking unit: [get_element_size_MB], [get_num_tasks],
        [assign_elements_to_tasks];
      - [src/transformations.cpp]: [kron_matrix_MB] and the element loop of
        [wavelet_to_realspace].

    Conventions.  A C++ [int] / [int64_t] is a [Z]; [/] and [%] are the
    truncating [Z.quot] and [Z.rem].  A failed [assert], an integer division
    by zero, an out-of-range [operator[]] and a throwing [std::map::at] end
    the run: such functions return [option], [None] standing for the aborted
    run.  [std::vector] is a
    [list] read with stdpp's lookup; [distribution_plan]
    ([std::map<int, element_subgrid>]) is a [gmap Z element_subgrid];
    [rows_to_range] ([std::map<int, grid_limits>]) is a key-sorted
    association list, because [dependencies_to_messages] iterates it in key
    order.  A [double] holding a size in megabytes is an exact rational
    ([Q]); rounding error of the binary64 operations is not modelled. *)

From Stdlib Require Import ZArith Lia QArith Qround.
From stdpp Require Import base option list gmap.

Local Open Scope Z_scope.

(** ** Element table and subgrids *)

(** Only [table.size()] and the coordinates of an element are read: a table
    is the list of its coordinate vectors. *)
Definition element_table : Type := list (list Z).

Definition table_size (table : element_table) : Z := Z.of_nat (length table).

(** [element_subgrid(row_start, row_stop, col_start, col_stop)], all bounds
    inclusive (declared in distribution.hpp; [generate_messages] reads
    [row_stop] and [col_stop]). *)
Record element_subgrid : Type := mk_element_subgrid {
  row_start : Z;
  row_stop : Z;
  col_start : Z;
  col_stop : Z
}.

Definition nrows (g : element_subgrid) : Z := row_stop g - row_start g + 1.
Definition ncols (g : element_subgrid) : Z := col_stop g - col_start g + 1.

(** The element pair [(row, col)] lies in the tile. *)
Definition in_subgrid (g : element_subgrid) (row col : Z) : Prop :=
  row_start g <= row <= row_stop g /\ col_start g <= col <= col_stop g.

(** [std::map::emplace]: the key is inserted only when it is absent. *)
Definition plan_emplace (k : Z) (g : element_subgrid)
    (plan : gmap Z element_subgrid) : gmap Z element_subgrid :=
  match plan !! k with
  | Some _ => plan
  | None => <[k := g]> plan
  end.

(** [std::sqrt(n) == std::floor(std::sqrt(n))].  For a 32-bit [n] the
    correctly rounded binary64 root is an integer exactly when [n] is a
    perfect square, so the test is the integer one. *)
Definition is_perfect_square (n : Z) : bool := Z.sqrt n * Z.sqrt n =? n.

Definition num_effective_ranks (num_ranks : Z) : Z :=
  if is_perfect_square num_ranks || (Z.rem num_ranks 2 =? 0)
  then num_ranks
  else num_ranks - 1.

(** Modelled from the spec: [get_num_subgrid_cols] is declared in
    distribution.hpp, which is not among the sources.  Section 4.2: "Factor
    effective_ranks into rows x cols with cols = round(sqrt(effective_ranks))
    adjusted until it evenly divides (falls back toward 1 column for
    non-square counts)".  [round_sqrt] is the nearest integer to the root,
    [adjust_cols] lowers the trial factor until it divides.  The theorems
    below take the helper as a parameter and use this definition only to
    instantiate it. *)
Definition round_sqrt (n : Z) : Z :=
  let s := Z.sqrt n in if n <=? s * s + s then s else s + 1.

Fixpoint adjust_cols (fuel : nat) (n trial : Z) : Z :=
  match fuel with
  | O => 1
  | S fuel' =>
      if Z.rem n trial =? 0 then trial else adjust_cols fuel' n (trial - 1)
  end.

Definition spec_num_subgrid_cols (num_ranks : Z) : Z :=
  adjust_cols (Z.to_nat (round_sqrt num_ranks)) num_ranks (round_sqrt num_ranks).

(** What every caller relies on ([generate_messages] asserts the second
    half): the column count is a positive divisor of the rank count. *)
Definition cols_divide (get_num_subgrid_cols : Z -> Z) : Prop :=
  forall n, 0 < n ->
    0 < get_num_subgrid_cols n /\ Z.rem n (get_num_subgrid_cols n) = 0.

Section Distribution.

Variable get_num_subgrid_cols : Z -> Z.

(** The two tests for 0 stand for the divisions by [num_subgrid_cols] and
    [num_subgrid_rows]: an integer division by zero ends the run. *)
Definition get_subgrid (num_ranks my_rank : Z) (table : element_table)
    : option element_subgrid :=
  if negb (0 <? num_ranks) then None
  else if negb ((Z.rem num_ranks 2 =? 0) || (num_ranks =? 1)
                || is_perfect_square num_ranks) then None
  else if negb (0 <=? my_rank) then None
  else if negb (my_rank <? num_ranks) then None
  else if negb (num_ranks <? table_size table) then None
  else if num_ranks =? 1 then
    Some (mk_element_subgrid 0 (table_size table - 1) 0 (table_size table - 1))
  else
    let num_subgrid_cols := get_num_subgrid_cols num_ranks in
    if num_subgrid_cols =? 0 then None
    else
    let num_subgrid_rows := Z.quot num_ranks num_subgrid_cols in
    if num_subgrid_rows =? 0 then None
    else
    let grid_row_index := Z.quot my_rank num_subgrid_cols in
    let grid_col_index := Z.rem my_rank num_subgrid_cols in
    let left_over_cols := Z.rem (table_size table) num_subgrid_cols in
    let subgrid_width := Z.quot (table_size table) num_subgrid_cols in
    let left_over_rows := Z.rem (table_size table) num_subgrid_rows in
    let subgrid_height := Z.quot (table_size table) num_subgrid_rows in
    let start_col :=
      grid_col_index * subgrid_width + Z.min grid_col_index left_over_cols in
    let start_row :=
      grid_row_index * subgrid_height + Z.min grid_row_index left_over_rows in
    let stop_col :=
      start_col + subgrid_width
      + (if grid_col_index <? left_over_cols then 1 else 0) - 1 in
    let stop_row :=
      start_row + subgrid_height
      + (if grid_row_index <? left_over_rows then 1 else 0) - 1 in
    Some (mk_element_subgrid start_row stop_row start_col stop_col).

(** The body of the [for] loop of [get_plan]; [None] once an assertion of
    [get_subgrid] has failed. *)
Definition get_plan_step (num_splits : Z) (table : element_table)
    (acc : option (gmap Z element_subgrid)) (i : Z)
    : option (gmap Z element_subgrid) :=
  match acc with
  | None => None
  | Some plan =>
      match get_subgrid num_splits i table with
      | None => None
      | Some g => Some (plan_emplace i g plan)
      end
  end.

Definition get_plan (num_ranks : Z) (table : element_table)
    : option (gmap Z element_subgrid) :=
  if negb (0 <? num_ranks) then None
  else if negb (num_ranks <? table_size table) then None
  else
    let num_splits := num_effective_ranks num_ranks in
    foldl (get_plan_step num_splits table) (Some ∅) (seqZ 0 num_splits).

End Distribution.

(** ** Column dependencies *)

(** [grid_limits(start, stop)]: an inclusive range of element indices. *)
Record grid_limits : Type := mk_grid_limits {
  start : Z;
  stop : Z
}.

Global Instance grid_limits_eq_dec : EqDecision grid_limits.
Proof. solve_decision. Defined.

(** [rows_to_range = std::map<int, grid_limits>], kept sorted by key. *)
Definition rows_to_range : Type := list (Z * grid_limits).

(** [std::map::emplace] on the sorted list: a present key is left alone. *)
Fixpoint rows_emplace (k : Z) (v : grid_limits) (m : rows_to_range)
    : rows_to_range :=
  match m with
  | [] => [(k, v)]
  | (k', v') :: m' =>
      if k <? k' then (k, v) :: m
      else if k =? k' then m
      else (k', v') :: rows_emplace k v m'
  end.

Fixpoint rows_lookup (k : Z) (m : rows_to_range) : option grid_limits :=
  match m with
  | [] => None
  | (k', v') :: m' => if k =? k' then Some v' else rows_lookup k m'
  end.

(** The inner loop of [find_column_dependencies] from row band [r] on, whose
    first index is [row_start]; [rows] are the stop indices still to visit. *)
Fixpoint column_rows (col_start column_end : Z) (r row_start : Z)
    (rows : list Z) (deps : rows_to_range) : rows_to_range :=
  match rows with
  | [] => deps
  | row_end :: rows' =>
      let deps' :=
        if ((row_start <=? col_start) && (col_start <=? row_end))
           || ((col_start <=? row_start) && (row_start <=? column_end))
        then rows_emplace r
               (mk_grid_limits (Z.max row_start col_start)
                               (Z.min row_end column_end)) deps
        else deps in
      column_rows col_start column_end (r + 1) (row_end + 1) rows' deps'
  end.

(** The outer loop from the column band starting at [col_start] on. *)
Fixpoint find_column_dependencies_from (col_start : Z)
    (row_boundaries cols : list Z) : list rows_to_range :=
  match cols with
  | [] => []
  | column_end :: cols' =>
      column_rows col_start column_end 0 0 row_boundaries []
      :: find_column_dependencies_from (column_end + 1) row_boundaries cols'
  end.

Definition find_column_dependencies (row_boundaries column_boundaries : list Z)
    : list rows_to_range :=
  find_column_dependencies_from 0 row_boundaries column_boundaries.

(** ** Messages *)

Inductive message_direction : Type := send | receive.

Global Instance message_direction_eq_dec : EqDecision message_direction.
Proof. solve_decision. Defined.

(** [message(message_dir, target, range)]. *)
Record message : Type := mk_message {
  message_dir : message_direction;
  target : Z;
  range : grid_limits
}.

Global Instance message_eq_dec : EqDecision message.
Proof. solve_decision. Defined.

(** [round_robin_wheel]: [size] is fixed, [current_index] is the state. *)
Record round_robin_wheel : Type := mk_wheel {
  wheel_size : Z;
  current_index : Z
}.

Definition new_wheel (size : Z) : round_robin_wheel := mk_wheel size 0.

(** [spin()]: the value returned and the wheel afterwards. *)
Definition spin (w : round_robin_wheel) : Z * round_robin_wheel :=
  let n := current_index w in
  let next := n + 1 in
  (n, mk_wheel (wheel_size w) (if next =? wheel_size w then 0 else next)).

(** [v[i]] for a signed index: [None] out of range. *)
Definition at_index {A : Type} (v : list A) (i : Z) : option A :=
  if i <? 0 then None else v !! Z.to_nat i.

(** [for (x : l) body], the body able to abort. *)
Fixpoint for_each {A S : Type} (body : S -> A -> option S) (s : S)
    (l : list A) : option S :=
  match l with
  | [] => Some s
  | x :: l' =>
      match body s x with
      | Some s' => for_each body s' l'
      | None => None
      end
  end.

(** The mutable state of [dependencies_to_messages]. *)
Record schedule_state : Type := mk_schedule_state {
  row_round_robin_wheels : list round_robin_wheel;
  messages : list (list message)
}.

(** [messages[rank].push_back(m)]. *)
Definition push_message (msgs : list (list message)) (rank : Z) (m : message)
    : option (list (list message)) :=
  match at_index msgs rank with
  | Some l => Some (<[Z.to_nat rank := l ++ [m]]> msgs)
  | None => None
  end.

Definition receiver_rank (num_cols c r : Z) : Z := r * num_cols + c.

(** The lambda computing [sender_rank]: the wheel of [row] is bound first
    (out of range: [None]) and spun only when [row <> r]. *)
Definition sender_rank (num_cols c row r : Z)
    (wheels : list round_robin_wheel)
    : option (Z * list round_robin_wheel) :=
  match at_index wheels row with
  | None => None
  | Some wheel =>
      if row =? r then Some (receiver_rank num_cols c r, wheels)
      else
        let '(n, wheel') := spin wheel in
        Some (row * num_cols + n, <[Z.to_nat row := wheel']> wheels)
  end.

(** The body of the innermost loop (one receiving rank [r] of column [c],
    one dependency [(row, limits)]). *)
Definition message_step (num_cols c row : Z) (limits : grid_limits)
    (st : schedule_state) (r : Z) : option schedule_state :=
  match sender_rank num_cols c row r (row_round_robin_wheels st) with
  | None => None
  | Some (sender, wheels') =>
      let receiver := receiver_rank num_cols c r in
      match push_message (messages st) receiver
              (mk_message receive sender limits) with
      | None => None
      | Some msgs1 =>
          match push_message msgs1 sender
                  (mk_message send receiver limits) with
          | None => None
          | Some msgs2 => Some (mk_schedule_state wheels' msgs2)
          end
      end
  end.

Definition dependency_step (num_rows num_cols c : Z) (st : schedule_state)
    (dep : Z * grid_limits) : option schedule_state :=
  for_each (message_step num_cols c (fst dep) (snd dep)) st (seqZ 0 num_rows).

Definition column_step (col_dependencies : list rows_to_range)
    (num_rows num_cols : Z) (st : schedule_state) (c : Z)
    : option schedule_state :=
  match at_index col_dependencies c with
  | None => None
  | Some dependencies =>
      for_each (dependency_step num_rows num_cols c) st dependencies
  end.

Definition dependencies_to_messages (col_dependencies : list rows_to_range)
    (row_boundaries column_boundaries : list Z)
    : option (list (list message)) :=
  if negb (length col_dependencies =? length column_boundaries)%nat then None
  else
    let num_rows := Z.of_nat (length row_boundaries) in
    let num_cols := Z.of_nat (length column_boundaries) in
    let wheels := replicate (length row_boundaries) (new_wheel num_cols) in
    let msgs :=
      replicate (length row_boundaries * length column_boundaries) [] in
    messages <$>
      for_each (column_step col_dependencies num_rows num_cols)
        (mk_schedule_state wheels msgs)
        (seqZ 0 (Z.of_nat (length col_dependencies))).

Section Messages.

Variable get_num_subgrid_cols : Z -> Z.

(** [plan.at(k)] throws on a missing key.  A column count that is not
    positive is outside the helper's contract (the division is undefined for
    0): [None]. *)
Definition generate_messages (plan : gmap Z element_subgrid)
    : option (list (list message)) :=
  let plan_size := Z.of_nat (size plan) in
  let num_cols := get_num_subgrid_cols plan_size in
  if num_cols <=? 0 then None
  else if negb (Z.rem plan_size num_cols =? 0) then None
  else
    let num_rows := Z.quot plan_size num_cols in
    match mapM (fun i => row_stop <$> plan !! (i * num_cols))
               (seqZ 0 num_rows),
          mapM (fun i => col_stop <$> plan !! i) (seqZ 0 num_cols) with
    | Some row_boundaries, Some col_boundaries =>
        let col_dependencies :=
          find_column_dependencies row_boundaries col_boundaries in
        dependencies_to_messages col_dependencies row_boundaries
          col_boundaries
    | _, _ => None
    end.

End Messages.

(** ** Replaying the message lists ([exchange_results])

    Every rank walks its own list in order.  A message whose target is the
    rank itself is served by [copy_to_input] (a send copies, the matching
    receive is skipped) and never blocks.  Any other message goes through
    [dispatch_message]: [MPI_Send] to / [MPI_Recv] from the target.  Under
    rendezvous semantics a send completes together with the receive that the
    target rank is blocked in; [MPI_Recv] selects by source rank only
    ([MPI_ANY_TAG]). *)

(** What is left of every rank's list. *)
Abbreviation pending := (list (list message)).

Definition pending_total (cfg : pending) : nat := length (concat cfg).

Definition all_consumed (cfg : pending) : Prop := Forall (fun l => l = []) cfg.

Inductive replay_step : pending -> pending -> Prop :=
  | replay_local (cfg : pending) (q : nat) (m : message) (rest : list message) :
      cfg !! q = Some (m :: rest) ->
      target m = Z.of_nat q ->
      replay_step cfg (<[q := rest]> cfg)
  | replay_rendezvous (cfg : pending) (s t : nat) (g g' : grid_limits)
      (rest_s rest_t : list message) :
      s <> t ->
      cfg !! s = Some (mk_message send (Z.of_nat t) g :: rest_s) ->
      cfg !! t = Some (mk_message receive (Z.of_nat s) g' :: rest_t) ->
      replay_step cfg (<[t := rest_t]> (<[s := rest_s]> cfg)).

(** ** Tasking *)

(** [task(start_row, end_row, start_col, end_col)].  The declaration is in
    the tasking header, outside the sources; the fields are named as
    [task_workspace] reads them: [elem] for the row element, [conn] for the
    connected (column) element. *)
Record task : Type := mk_task {
  elem_start : Z;
  elem_end : Z;
  conn_start : Z;
  conn_end : Z
}.

Global Instance task_eq_dec : EqDecision task.
Proof. solve_decision. Defined.

(** The template parameter [P]. *)
Inductive precision : Type := single_precision | double_precision.

Definition sizeof (P : precision) : Z :=
  match P with single_precision => 4 | double_precision => 8 end.

Record dimension : Type := mk_dimension {
  get_level : Z;
  get_degree : Z
}.

Record PDE : Type := mk_PDE {
  num_dims : Z;
  num_terms : Z;
  get_dimensions : list dimension
}.

(** The lambda [get_MB] of [get_element_size_MB]. *)
Definition get_MB (P : precision) (num_elems : Z) : option Q :=
  if negb (0 <? num_elems) then None
  else
    let bytes := inject_Z (num_elems * sizeof P) in
    Some (bytes * (1 # 1000000))%Q.

Definition get_element_size_MB (P : precision) (pde : PDE) : option Q :=
  match get_dimensions pde !! 0%nat with
  | None => None
  | Some d =>
      let degree := get_degree d in
      let elem_size := degree ^ num_dims pde in
      let num_workspaces := Z.min (num_dims pde - 1) 2 in
      match get_MB P (num_terms pde * elem_size),
            get_MB P (num_workspaces * num_terms pde * elem_size),
            get_MB P elem_size with
      | Some elem_reduction_space_MB, Some elem_intermediate_space_MB,
        Some elem_xy_space_MB =>
          Some (elem_reduction_space_MB + elem_intermediate_space_MB
                + elem_xy_space_MB)%Q
      | _, _, _ => None
      end
  end.

(** [problem_size_MB] of [get_num_tasks]. *)
Definition problem_size_MB (P : precision) (table : element_table) (pde : PDE)
    : option Q :=
  let num_elems := inject_Z (table_size table * table_size table) in
  match get_element_size_MB P pde with
  | None => None
  | Some space_per_elem => Some (space_per_elem * num_elems)%Q
  end.

(** The integer part of [get_num_tasks], from
    [static_cast<int>(std::ceil(problem_size_MB))] on. *)
Definition num_tasks_of (problem_size_ceil num_ranks rank_size_MB : Z) : Z :=
  let problem_size_per_rank := Z.quot problem_size_ceil rank_size_MB in
  if Z.rem problem_size_per_rank num_ranks =? 0 then problem_size_per_rank
  else
    let tasks_per_rank :=
      Qceiling (inject_Z problem_size_per_rank / inject_Z num_ranks)%Q in
    tasks_per_rank * num_ranks.

Definition get_num_tasks (P : precision) (table : element_table) (pde : PDE)
    (num_ranks rank_size_MB : Z) : option Z :=
  if negb (0 <? num_ranks) then None
  else if negb (0 <? rank_size_MB) then None
  else
    match problem_size_MB P table pde with
    | None => None
    | Some size_MB => Some (num_tasks_of (Qceiling size_MB) num_ranks rank_size_MB)
    end.

(** The body of the loop of [assign_elements_to_tasks]. *)
Definition task_of_index (table : element_table) (elems_per_task i : Z)
    : task :=
  let task_start := i * elems_per_task in
  let task_end := (i + 1) * elems_per_task - 1 in
  let task_start_row := Z.quot task_start (table_size table) in
  let task_start_col := Z.rem task_start (table_size table) in
  let task_end_row := Z.quot task_end (table_size table) in
  let task_end_col := Z.rem task_end (table_size table) in
  mk_task task_start_row task_end_row task_start_col task_end_col.

(** The test for an empty table stands for the divisions by
    [table.size()] in the loop body. *)
Definition assign_elements_to_tasks (table : element_table) (num_tasks : Z)
    : option (list task) :=
  if negb (0 <? num_tasks) then None
  else if table_size table =? 0 then None
  else
    let num_elems := table_size table * table_size table in
    let elems_per_task := Z.quot num_elems num_tasks in
    Some (task_of_index table elems_per_task <$> seqZ 0 num_tasks).

(** ** Realspace transform: the memory check

    Matrices are modelled by what the check reads, their shape; the numeric
    content (Legendre bases, the accumulated vector) is left out. *)

(** [fk::matrix<P, mem_type::view>(owner, start_row, stop_row, start_col,
    stop_col)]: the window of the view, bounds inclusive. *)
Record matrix_view : Type := mk_matrix_view {
  view_start_row : Z;
  view_stop_row : Z;
  view_start_col : Z;
  view_stop_col : Z
}.

Definition view_nrows (m : matrix_view) : Z :=
  view_stop_row m - view_start_row m + 1.
Definition view_ncols (m : matrix_view) : Z :=
  view_stop_col m - view_start_col m + 1.

(** Conversion of a [double] to [int]: truncation toward zero. *)
Definition Q_to_int (q : Q) : Z :=
  if Qle_bool 0 q then Qfloor q else Qceiling q.

Definition kron_matrix_MB (P : precision) (kron_matrices : list matrix_view)
    : Z :=
  let r := foldl (fun r m => r * view_nrows m) 1 kron_matrices in
  let c := foldl (fun c m => c * view_ncols m) 1 kron_matrices in
  Q_to_int (inject_Z (r * c * sizeof P) * (1 # 1000000))%Q.

(** Shape (rows, columns) of [a.kron(b)]. *)
Definition kron_shape (a b : Z * Z) : Z * Z :=
  (fst a * fst b, snd a * snd b).

(** [recursive_kron(kron_matrices, index)] on the operands from [index] on:
    the last operand alone, or the head times the product of the rest. *)
Fixpoint kron_suffix (operands : list matrix_view) : option (Z * Z) :=
  match operands with
  | [] => None
  | m :: rest =>
      match rest with
      | [] => Some (view_nrows m, view_ncols m)
      | _ :: _ =>
          match kron_suffix rest with
          | Some k => Some (kron_shape (view_nrows m, view_ncols m) k)
          | None => None
          end
      end
  end.

Definition recursive_kron (kron_matrices : list matrix_view) (index : Z)
    : option (Z * Z) :=
  if negb (0 <=? index) then None
  else if negb (index <? Z.of_nat (length kron_matrices)) then None
  else kron_suffix (drop (Z.to_nat index) kron_matrices).

(** Modelled from the spec: [get_1d_index] is defined outside the sources.
    Section 4.1: "index = 2^level - 1 + cell for level>0, 0 for level 0". *)
Definition get_1d_index (level cell : Z) : Z :=
  if level =? 0 then 0 else 2 ^ level - 1 + cell.

(** Rows of [gen_realspace_transform(pde)[j]]: [deg_freedom_1d]. *)
Definition realspace_transform_nrows (d : dimension) : Z :=
  get_degree d * 2 ^ get_level d.

(** The operand of dimension [j] for the element with coordinates [coords]. *)
Definition kron_operand (pde : PDE) (coords : list Z) (j : Z)
    : option matrix_view :=
  match at_index coords j, at_index coords (j + num_dims pde),
        at_index (get_dimensions pde) j with
  | Some level, Some cell, Some d =>
      let id := get_1d_index level cell in
      let degree := get_degree d in
      Some (mk_matrix_view 0 (realspace_transform_nrows d - 1)
                           (id * degree) ((id + 1) * degree - 1))
  | _, _, _ => None
  end.

(** [kron_matrices] as filled by the loop over [j] for table element [i]. *)
Definition kron_matrices_of (pde : PDE) (table : element_table) (i : Z)
    : option (list matrix_view) :=
  match at_index table i with
  | None => None
  | Some coords => mapM (kron_operand pde coords) (seqZ 0 (num_dims pde))
  end.

(** What [wavelet_to_realspace] does that the check is about: a product
    built by [recursive_kron] for element [i], of the given shape. *)
Inductive kron_event : Type :=
  | kron_built (i : Z) (product : Z * Z).

(** The loop over the table elements.  The result is the log of products
    built so far and whether the loop ran to its end ([false]: an assertion
    stopped the run). *)
Fixpoint realspace_loop (P : precision) (pde : PDE) (table : element_table)
    (memory_limit_MB : Z) (elems : list Z) (log : list kron_event)
    : list kron_event * bool :=
  match elems with
  | [] => (log, true)
  | i :: rest =>
      match kron_matrices_of pde table i with
      | None => (log, false)
      | Some kron_matrices =>
          if negb (kron_matrix_MB P kron_matrices <=? memory_limit_MB)
          then (log, false)
          else
            match recursive_kron kron_matrices 0 with
            | None => (log, false)
            | Some product =>
                realspace_loop P pde table memory_limit_MB rest
                  (log ++ [kron_built i product])
            end
      end
  end.

Definition wavelet_to_realspace (P : precision) (pde : PDE)
    (table : element_table) (memory_limit_MB : Z) : list kron_event * bool :=
  if negb (0 <? memory_limit_MB) then ([], false)
  else
    realspace_loop P pde table memory_limit_MB (seqZ 0 (table_size table)) [].


(** ** The standalone schedule generator ([mpi_instructions])

    A second implementation of the message schedule sits next to the
    options parser.  Its [row_round_robin_wheel] has the fields and the
    [spin] of [round_robin_wheel]: the record and [spin] above stand for
    both. *)

Module mpi_message_enum.
Inductive t : Type := send | receive.
End mpi_message_enum.

(** [mpi_node_and_range(linear_index, start, stop)]. *)
Module mpi_node_and_range.
Record t : Type := mk {
  linear_index : Z;
  start : Z;
  stop : Z
}.
End mpi_node_and_range.

(** [mpi_message(mpi_message_type, nar)]. *)
Record mpi_message : Type := mk_mpi_message {
  mpi_message_type : mpi_message_enum.t;
  nar : mpi_node_and_range.t
}.

(** The inner loop of [gen_row_space_intervals] from row interval [r] on,
    which starts at [r_start]; [emplace_back] appends. *)
Fixpoint row_space_rows (c_start c_end : Z) (r r_start : Z) (rows : list Z)
    (intervals : list mpi_node_and_range.t) : list mpi_node_and_range.t :=
  match rows with
  | [] => intervals
  | r_end :: rows' =>
      let intervals' :=
        if ((c_start >=? r_start) && (c_start <=? r_end))
           || ((r_start >=? c_start) && (r_start <=? c_end))
        then intervals
             ++ [mpi_node_and_range.mk r (Z.max r_start c_start)
                                       (Z.min r_end c_end)]
        else intervals in
      row_space_rows c_start c_end (r + 1) (r_end + 1) rows' intervals'
  end.

(** The outer loop from the column interval starting at [c_start] on. *)
Fixpoint row_space_columns (c_start : Z) (r_stop cols : list Z)
    : list (list mpi_node_and_range.t) :=
  match cols with
  | [] => []
  | c_end :: cols' =>
      row_space_rows c_start c_end 0 0 r_stop []
      :: row_space_columns (c_end + 1) r_stop cols'
  end.

Definition gen_row_space_intervals (r_stop c_stop : list Z)
    : list (list mpi_node_and_range.t) :=
  row_space_columns 0 r_stop c_stop.

(** The members [row_row_round_robin_wheel] and [mpi_instruction] that
    [gen_mpi_messages] updates; an [mpi_instruction] is the list of its
    queued messages. *)
Record mpi_instructions_state : Type := mk_mpi_instructions_state {
  row_row_round_robin_wheel : list round_robin_wheel;
  mpi_instruction : list (list mpi_message)
}.

(** [mpi_instruction[index].queue_mpi_message(item)]. *)
Definition queue_mpi_message (instructions : list (list mpi_message))
    (index : Z) (item : mpi_message) : option (list (list mpi_message)) :=
  match at_index instructions index with
  | Some l => Some (<[Z.to_nat index := l ++ [item]]> instructions)
  | None => None
  end.

(** [from_linear_index]: the receiver itself when it lies in the row of the
    interval, otherwise the member of that row picked by spinning the wheel
    of the receiving row [r]. *)
Definition from_linear_index (num_cols c : Z) (interval : mpi_node_and_range.t)
    (r : Z) (wheels : list round_robin_wheel)
    : option (Z * list round_robin_wheel) :=
  if negb (mpi_node_and_range.linear_index interval =? r) then
    match at_index wheels r with
    | None => None
    | Some wheel =>
        let '(n, wheel') := spin wheel in
        Some (mpi_node_and_range.linear_index interval * num_cols + n,
              <[Z.to_nat r := wheel']> wheels)
    end
  else Some (r * num_cols + c, wheels).

(** The body of the innermost loop of [gen_mpi_messages]. *)
Definition gen_mpi_message_step (num_cols c : Z)
    (interval : mpi_node_and_range.t) (st : mpi_instructions_state) (r : Z)
    : option mpi_instructions_state :=
  let receiving_linear_index := r * num_cols + c in
  match at_index (mpi_instruction st) receiving_linear_index with
  | None => None
  | Some _ =>
      match from_linear_index num_cols c interval r
              (row_row_round_robin_wheel st) with
      | None => None
      | Some (sending_linear_index, wheels') =>
          let incoming_message :=
            mk_mpi_message mpi_message_enum.receive
              (mpi_node_and_range.mk sending_linear_index
                 (mpi_node_and_range.start interval)
                 (mpi_node_and_range.stop interval)) in
          let outgoing_message :=
            mk_mpi_message mpi_message_enum.send
              (mpi_node_and_range.mk receiving_linear_index
                 (mpi_node_and_range.start interval)
                 (mpi_node_and_range.stop interval)) in
          match queue_mpi_message (mpi_instruction st)
                  receiving_linear_index incoming_message with
          | None => None
          | Some queued =>
              match queue_mpi_message queued sending_linear_index
                      outgoing_message with
              | None => None
              | Some queued' =>
                  Some (mk_mpi_instructions_state wheels' queued')
              end
          end
      end
  end.

Definition gen_mpi_interval_step (num_rows num_cols c : Z)
    (st : mpi_instructions_state) (interval : mpi_node_and_range.t)
    : option mpi_instructions_state :=
  for_each (gen_mpi_message_step num_cols c interval) st (seqZ 0 num_rows).

Definition gen_mpi_column_step
    (row_space_intervals : list (list mpi_node_and_range.t))
    (num_rows num_cols : Z) (st : mpi_instructions_state) (c : Z)
    : option mpi_instructions_state :=
  match at_index row_space_intervals c with
  | None => None
  | Some nar_vec => for_each (gen_mpi_interval_step num_rows num_cols c) st nar_vec
  end.

Definition gen_mpi_messages
    (row_space_intervals : list (list mpi_node_and_range.t))
    (r_stop c_stop : list Z) (st : mpi_instructions_state)
    : option mpi_instructions_state :=
  for_each
    (gen_mpi_column_step row_space_intervals (Z.of_nat (length r_stop))
       (Z.of_nat (length c_stop)))
    st (seqZ 0 (Z.of_nat (length row_space_intervals))).

(** The constructor: one instruction list per subgrid, one wheel per row of
    the size of the column count, then the two passes. *)
Definition mpi_instructions (r_stop c_stop : list Z)
    : option (list (list mpi_message)) :=
  let wheels :=
    replicate (length r_stop) (new_wheel (Z.of_nat (length c_stop))) in
  let instructions := replicate (length r_stop * length c_stop) [] in
  mpi_instruction <$>
    gen_mpi_messages (gen_row_space_intervals r_stop c_stop) r_stop c_stop
      (mk_mpi_instructions_state wheels instructions).

(** ** The task workspace

    [task_workspace]'s constructor sizes five buffers from the task list.
    The buffers are modelled by the lengths the constructor asks for. *)






(** ** Realspace transform: the lengths

    The length of the real-space vector ([prod], the first loop of
    [wavelet_to_realspace]) and the length of the piece of [wave_space]
    multiplied with the product of one element ([stride]). *)
Definition real_space_prod (pde : PDE) : Z :=
  foldl (fun prod d => prod * (get_degree d * 2 ^ get_level d)) 1
        (get_dimensions pde).

Definition stride (pde : PDE) : option Z :=
  match get_dimensions pde !! 0%nat with
  | None => None
  | Some d => Some (get_degree d ^ Z.of_nat (length (get_dimensions pde)))
  end.

(** ** Output steps ([options::write_at_step]) *)

Definition write_at_step (i freq : Z) : option bool :=
  if negb (0 <=? i) then None
  else if negb (0 <=? freq) then None
  else if freq =? 0 then Some false
  else if freq =? 1 then Some true
  else if Z.rem (i + 1) freq =? 0 then Some true
  else Some false.

(** ** The windows of [exchange_results]

    What a rank does with its message list: for every message the windows
    of its output vector [source] and its input vector [dest] that are
    copied, sent or received into.  A window is the pair of its first and
    last index, as the view constructor takes them. *)

(** Modelled from the spec: [to_local_row] and [to_local_col] are members
    of [element_subgrid], declared in distribution.hpp, which is not among
    the sources.  Section 4.6: a sub-range is "offset-translated from global
    element index to this rank's local row/column numbering". *)
Definition to_local_row (g : element_subgrid) (row : Z) : Z :=
  row - row_start g.

Definition to_local_col (g : element_subgrid) (col : Z) : Z :=
  col - col_start g.

Inductive exchange_action : Type :=
  | copy_whole
  | copy_windows (output_window input_window : Z * Z)
  | no_action
  | mpi_send (peer : Z) (output_window : Z * Z)
  | mpi_recv (peer : Z) (input_window : Z * Z).

Definition output_window (my_grid : element_subgrid) (m : message)
    (segment_size : Z) : Z * Z :=
  (to_local_row my_grid (start (range m)) * segment_size,
   (to_local_row my_grid (stop (range m)) + 1) * segment_size - 1).

Definition input_window (my_grid : element_subgrid) (m : message)
    (segment_size : Z) : Z * Z :=
  (to_local_col my_grid (start (range m)) * segment_size,
   (to_local_col my_grid (stop (range m)) + 1) * segment_size - 1).

(** [copy_to_input]: a send to the rank itself copies the output window to
    the input window, the matching receive is ignored. *)
Definition copy_to_input (my_grid : element_subgrid) (m : message)
    (segment_size : Z) : option exchange_action :=
  if negb (0 <? segment_size) then None
  else
    match message_dir m with
    | send =>
        Some (copy_windows (output_window my_grid m segment_size)
                           (input_window my_grid m segment_size))
    | receive => Some no_action
    end.

(** [dispatch_message] in a build with MPI. *)
Definition dispatch_message (my_grid : element_subgrid) (m : message)
    (segment_size : Z) : option exchange_action :=
  if negb (0 <? segment_size) then None
  else
    match message_dir m with
    | send => Some (mpi_send (target m) (output_window my_grid m segment_size))
    | receive =>
        Some (mpi_recv (target m) (input_window my_grid m segment_size))
    end.

Section Exchange.

Variable get_num_subgrid_cols : Z -> Z.

(** [exchange_results] in a build with MPI: the actions of rank [my_rank],
    in the order of its message list. *)
Definition exchange_results (segment_size : Z)
    (plan : gmap Z element_subgrid) (my_rank : Z)
    : option (list exchange_action) :=
  if negb (0 <=? my_rank) then None
  else if negb (my_rank <? Z.of_nat (size plan)) then None
  else if Z.of_nat (size plan) =? 1 then Some [copy_whole]
  else
    match generate_messages get_num_subgrid_cols plan with
    | None => None
    | Some message_lists =>
        match plan !! my_rank, at_index message_lists my_rank with
        | Some my_subgrid, Some messages =>
            mapM (fun m =>
                    if target m =? my_rank
                    then copy_to_input my_subgrid m segment_size
                    else dispatch_message my_subgrid m segment_size)
                 messages
        | _, _ => None
        end
    end.

End Exchange.

(** ** Gathering

    [gather_errors] and [gather_results] hand buffers to MPI; what is
    modelled is how they lay these buffers out. *)

(** [std::partition_copy] with the predicate [[&odd](P) { return odd =
    !odd; }], applied element by element in order: the first output takes
    the elements for which the flipped flag is true. *)
Fixpoint partition_copy_toggle {A : Type} (odd : bool) (l : list A)
    : list A * list A :=
  match l with
  | [] => ([], [])
  | x :: l' =>
      let odd' := negb odd in
      let '(first, second) := partition_copy_toggle odd' l' in
      if odd' then (x :: first, second) else (first, x :: second)
  end.

(** [gather_errors] on the root of the local communicator: [error_vect]
    split into [{rmse, relative}]. *)
Definition gather_errors_root {A : Type} (error_vect : list A)
    : list A * list A :=
  partition_copy_toggle false error_vect.



Section Gather.

Variable get_num_subgrid_cols : Z -> Z.

(** The value of the entries of a new [fk::vector<int>]; its constructor
    is in tensors.hpp, outside the sources. *)
Variable new_entry : Z.



End Gather.
(** * Specification vocabulary *)

(** ** Even splits *)

(** First index of band [b] when [n] indices are split over [k] bands:
    the expression [get_subgrid] computes for [start_row] and [start_col]. *)
Definition band_begin (n k b : Z) : Z := b * (n / k) + Z.min b (n mod k).

(** ** Bands delimited by stop indices *)

(** The inclusive intervals [(first, last)] delimited by a list of stop
    indices, the first one starting at [first]: each band starts one past
    the stop of the previous one. *)
Fixpoint bands_from (first : Z) (stops : list Z) : list (Z * Z) :=
  match stops with
  | [] => []
  | last :: stops' => (first, last) :: bands_from (last + 1) stops'
  end.

(** Stop indices that delimit non-empty consecutive bands from [first] on:
    strictly increasing, the first at least [first]. *)
Fixpoint increasing_from (first : Z) (stops : list Z) : bool :=
  match stops with
  | [] => true
  | last :: stops' => (first <=? last) && increasing_from (last + 1) stops'
  end.

Definition sorted_stops (stops : list Z) : Prop :=
  increasing_from 0 stops = true.

(** Two inclusive intervals share an index. *)
Definition intersects (a b : Z * Z) : Prop :=
  exists x, fst a <= x <= snd a /\ fst b <= x <= snd b.

(** The part of the row interval inside the column interval. *)
Definition overlap (row_band col_band : Z * Z) : grid_limits :=
  mk_grid_limits (Z.max (fst row_band) (fst col_band))
                 (Z.min (snd row_band) (snd col_band)).

(** ** Iterations and assignments of the message schedule *)

(** One pass through the innermost loop body of
    [dependencies_to_messages]: column band [c], dependency
    [(row, limits)], receiving subgrid row [r]. *)
Record iteration : Type := mk_iteration {
  it_column : Z;
  it_row : Z;
  it_limits : grid_limits;
  it_receiver_row : Z
}.

(** The passes in the order the three nested loops make them. *)
Definition dependency_iterations (num_rows c : Z) (dep : Z * grid_limits)
    : list iteration :=
  (fun r => mk_iteration c (fst dep) (snd dep) r) <$> seqZ 0 num_rows.

Definition column_iterations (col_dependencies : list rows_to_range)
    (num_rows c : Z) : list iteration :=
  flat_map (dependency_iterations num_rows c)
           (default [] (at_index col_dependencies c)).

Definition iterations (col_dependencies : list rows_to_range) (num_rows : Z)
    : list iteration :=
  flat_map (column_iterations col_dependencies num_rows)
           (seqZ 0 (Z.of_nat (length col_dependencies))).

Definition iteration_step (num_cols : Z) (st : schedule_state)
    (it : iteration) : option schedule_state :=
  message_step num_cols (it_column it) (it_row it) (it_limits it) st
    (it_receiver_row it).

(** What one pass decides: who sends which range to whom. *)
Record assignment : Type := mk_assignment {
  sender : Z;
  receiver : Z;
  limits : grid_limits
}.

Global Instance assignment_eq_dec : EqDecision assignment.
Proof. solve_decision. Defined.

(** The assignments made by a run of passes, from the wheels alone. *)
Fixpoint assignments (num_cols : Z) (wheels : list round_robin_wheel)
    (its : list iteration) : option (list assignment) :=
  match its with
  | [] => Some []
  | it :: its' =>
      match sender_rank num_cols (it_column it) (it_row it)
              (it_receiver_row it) wheels with
      | None => None
      | Some (s, wheels') =>
          match assignments num_cols wheels' its' with
          | None => None
          | Some rest =>
              Some (mk_assignment s
                      (receiver_rank num_cols (it_column it)
                         (it_receiver_row it))
                      (it_limits it) :: rest)
          end
      end
  end.

(** The messages an assignment puts on the list of rank [q]: the receive
    first, as the loop body pushes it first. *)
Definition assignment_messages (q : nat) (a : assignment) : list message :=
  (if decide (receiver a = Z.of_nat q)
   then [mk_message receive (sender a) (limits a)] else [])
  ++ (if decide (sender a = Z.of_nat q)
      then [mk_message send (receiver a) (limits a)] else []).

(** How often the wheel of [row] was spun during the passes [its]: once for
    every pass that depends on [row] from another subgrid row. *)
Definition spins (row : Z) (its : list iteration) : Z :=
  Z.of_nat (length (filter (fun it => it_row it = row
                                      /\ it_receiver_row it <> row) its)).

(** Number of occurrences of a message in a list. *)
Definition occurrences (m : message) (l : list message) : nat :=
  length (filter (fun m' => m' = m) l).

(** Every wheel has the given size and an index inside it. *)
Definition wheels_ok (num_cols : Z) (wheels : list round_robin_wheel) : Prop :=
  Forall (fun w => wheel_size w = num_cols /\ 0 <= current_index w < num_cols)
         wheels.

(** The index the wheel of [row] stands at (0 when there is none). *)
Definition wheel_index (wheels : list round_robin_wheel) (row : Z) : Z :=
  default 0 (current_index <$> at_index wheels row).

(** A pass whose indices are in range for a [num_rows] x [num_cols] grid. *)
Definition iteration_in_grid (num_rows num_cols : Z) (it : iteration) : Prop :=
  0 <= it_column it < num_cols
  /\ 0 <= it_row it < num_rows
  /\ 0 <= it_receiver_row it < num_rows.

(** The message that answers [m] when [m] stands on the list of rank [s]:
    the opposite direction, naming [s], with the same range. *)
Definition opposite (d : message_direction) : message_direction :=
  match d with send => receive | receive => send end.

Definition partner (s : nat) (m : message) : message :=
  mk_message (opposite (message_dir m)) (Z.of_nat s) (range m).

(** Receiver and range of an assignment: what tells assignments apart. *)
Definition assignment_key (a : assignment) : Z * grid_limits :=
  (receiver a, limits a).

(** Receiver and range of the assignment a pass will make. *)
Definition iteration_key (num_cols : Z) (it : iteration) : Z * grid_limits :=
  (receiver_rank num_cols (it_column it) (it_receiver_row it), it_limits it).

(** The ranges of a dependency map are pairwise different. *)
Definition distinct_ranges (deps : rows_to_range) : Prop :=
  NoDup (snd <$> deps).

(** The stop indices of the [k] bands of an even split of [n] indices. *)
Definition band_stops (n k : Z) : list Z :=
  (fun b => band_begin n k (b + 1) - 1) <$> seqZ 0 k.

(** ** Operations of a replay *)

(** What a schedule asks the ranks to do, one operation at a time: a step
    rank [q] takes on its own (a message naming [q] itself), or a transfer
    of range [g] from rank [s] to another rank [t]. *)
Inductive operation : Type :=
  | local_op (q : nat) (m : message)
  | transfer (s t : nat) (g : grid_limits).

(** The messages an operation puts on the list of rank [q]. *)
Definition operation_messages (q : nat) (o : operation) : list message :=
  match o with
  | local_op q' m => if decide (q' = q) then [m] else []
  | transfer s t g =>
      (if decide (s = q) then [mk_message send (Z.of_nat t) g] else [])
      ++ (if decide (t = q) then [mk_message receive (Z.of_nat s) g] else [])
  end.

Definition operation_ok (n : nat) (o : operation) : Prop :=
  match o with
  | local_op q m => (q < n)%nat /\ target m = Z.of_nat q
  | transfer s t g => s <> t /\ (s < n)%nat /\ (t < n)%nat
  end.

(** The lists of [n] ranks that a sequence of operations amounts to. *)
Definition lists_of (n : nat) (ops : list operation) : pending :=
  (fun q => flat_map (operation_messages q) ops) <$> seq 0 n.

(** A configuration that is the lists of some sequence of operations. *)
Definition scheduled (n : nat) (cfg : pending) : Prop :=
  exists ops, Forall (operation_ok n) ops /\ cfg = lists_of n ops.

(** The operations of an assignment: a same-rank assignment is two local
    steps (the receive, then the send), any other one transfer. *)
Definition operations_of (a : assignment) : list operation :=
  if decide (sender a = receiver a)
  then [local_op (Z.to_nat (receiver a))
          (mk_message receive (sender a) (limits a));
        local_op (Z.to_nat (sender a))
          (mk_message send (receiver a) (limits a))]
  else [transfer (Z.to_nat (sender a)) (Z.to_nat (receiver a)) (limits a)].

(** ** Tasks as runs of linear pair indices *)

(** The pair [(row, col)] of an [N]-element table has linear index
    [row * N + col]; a task is the run from its first to its last index. *)
Definition task_first (N : Z) (t : task) : Z := elem_start t * N + conn_start t.
Definition task_last (N : Z) (t : task) : Z := elem_end t * N + conn_end t.

Definition task_covers (N : Z) (t : task) (index : Z) : Prop :=
  task_first N t <= index <= task_last N t.

(** The task count as the specification words it: the problem size divided
    by the memory ceiling, the quotient rounded up, then raised to the next
    multiple of the rank count. *)
Definition rounded_up_num_tasks (size_MB : Q) (num_ranks rank_size_MB : Z) : Z :=
  let quotient := Qceiling (size_MB / inject_Z rank_size_MB)%Q in
  ((quotient + num_ranks - 1) / num_ranks) * num_ranks.

(** ** The memory check *)


(** Element [i] passes the assertion of [wavelet_to_realspace] and
    [recursive_kron] builds its product. *)
Definition element_checked (P : precision) (pde : PDE) (table : element_table)
    (memory_limit_MB : Z) (i : Z) (product : Z * Z) : Prop :=
  exists kron_matrices,
    kron_matrices_of pde table i = Some kron_matrices
    /\ kron_matrix_MB P kron_matrices <= memory_limit_MB
    /\ recursive_kron kron_matrices 0 = Some product.


(** ** Comparing the two schedule generators *)

(** An [mpi_message] read as a [message]: the node is the target, the
    bounds are the range. *)
Definition message_of (m : mpi_message) : message :=
  mk_message
    (match mpi_message_type m with
     | mpi_message_enum.send => send
     | mpi_message_enum.receive => receive
     end)
    (mpi_node_and_range.linear_index (nar m))
    (mk_grid_limits (mpi_node_and_range.start (nar m))
                    (mpi_node_and_range.stop (nar m))).

(** The instruction lists read as message lists. *)
Definition schedule_of (instructions : list (list mpi_message)) : pending :=
  fmap (M := list) (fmap (M := list) message_of) instructions.

(** A row interval of [gen_row_space_intervals] and an entry of a
    dependency map of [find_column_dependencies] hold the same data. *)
Definition interval_of (dep : Z * grid_limits) : mpi_node_and_range.t :=
  mpi_node_and_range.mk (fst dep) (start (snd dep)) (stop (snd dep)).

Definition dependency_of (interval : mpi_node_and_range.t) : Z * grid_limits :=
  (mpi_node_and_range.linear_index interval,
   mk_grid_limits (mpi_node_and_range.start interval)
                  (mpi_node_and_range.stop interval)).

Definition intervals_of (deps : rows_to_range) : list mpi_node_and_range.t :=
  map interval_of deps.

Definition dependencies_of (nar_vec : list mpi_node_and_range.t)
    : rows_to_range :=
  map dependency_of nar_vec.

(** One pass of the innermost loop of [gen_mpi_messages]. *)
Definition gen_mpi_iteration_step (num_cols : Z) (st : mpi_instructions_state)
    (it : iteration) : option mpi_instructions_state :=
  gen_mpi_message_step num_cols (it_column it)
    (interval_of (it_row it, it_limits it)) st (it_receiver_row it).

(** The assignments made by a run of passes of [gen_mpi_messages], from the
    wheels alone. *)
Fixpoint assignments_by_receiver (num_cols : Z)
    (wheels : list round_robin_wheel) (its : list iteration)
    : option (list assignment) :=
  match its with
  | [] => Some []
  | it :: its' =>
      match from_linear_index num_cols (it_column it)
              (interval_of (it_row it, it_limits it))
              (it_receiver_row it) wheels with
      | None => None
      | Some (s, wheels') =>
          match assignments_by_receiver num_cols wheels' its' with
          | None => None
          | Some rest =>
              Some (mk_assignment s
                      (receiver_rank num_cols (it_column it)
                         (it_receiver_row it))
                      (it_limits it) :: rest)
          end
      end
  end.

(** How often the wheel of the receiving row [r] was spun during the passes
    [its]: once for every pass that serves row [r] from another row. *)
Definition receiver_spins (r : Z) (its : list iteration) : Z :=
  Z.of_nat (length (filter (fun it => it_receiver_row it = r
                                      /\ it_row it <> r) its)).

(** What a receive tells the receiving rank: the range and the subgrid row
    it comes from. *)
Definition receive_view (num_cols : Z) (m : message) : Z * grid_limits :=
  (target m / num_cols, range m).

Definition receives (num_cols : Z) (l : list message) : list (Z * grid_limits) :=
  receive_view num_cols <$> filter (fun m => message_dir m = receive) l.

(** The messages of a list that name the rank [q] itself: its local
    copies. *)
Definition local_messages (q : nat) (l : list message) : list message :=
  filter (fun m => target m = Z.of_nat q) l.

(** Two assignments that serve the same receiver with the same range from
    the same subgrid row: from the same rank, or from two ranks of that row
    that are both not the receiver. *)
Definition same_row_assignment (num_cols : Z) (a a' : assignment) : Prop :=
  receiver a = receiver a' /\ limits a = limits a'
  /\ (sender a = sender a'
      \/ (sender a / num_cols = sender a' / num_cols
          /\ sender a <> receiver a /\ sender a' <> receiver a')).

(** ** Load of the senders *)

(** The sends on the list of rank [q] that go to another rank: the ones
    [exchange_results] hands to [MPI_Send]. *)
Definition remote_sends (q : nat) (l : list message) : Z :=
  Z.of_nat (length (filter (fun m => message_dir m = send
                                     /\ target m <> Z.of_nat q) l)).

(** The assignments that make rank [s] send to another rank. *)
Definition remote_assignments (s : Z) (asg : list assignment) : Z :=
  Z.of_nat (length (filter (fun a => sender a = s /\ receiver a <> s) asg)).

(** How many of the first [n] turns of a wheel of size [num_cols] stop at
    index [w]: the turns [w], [w + num_cols], [w + 2 * num_cols], ... *)
Definition turns_at (n num_cols w : Z) : Z := (n + num_cols - 1 - w) / num_cols.

(** ** Pairs of a task *)


(** The steps [0 .. n - 1] of a run at which output is written. *)
Definition output_steps (n freq : Z) : list Z :=
  filter (fun i => write_at_step i freq = Some true) (seqZ 0 n).
(** ** Tables and inputs used in the examples *)

Definition table_of_size (n : nat) : element_table := replicate n [].

(** Three dimensions of degree 10, three terms: 1000 coefficients per
    element. *)
Definition pde_3d : PDE :=
  mk_PDE 3 3 [mk_dimension 2 10; mk_dimension 2 10; mk_dimension 2 10].

(** Two row bands and two column bands over the indices 0..3, and the
    schedule of the four ranks. *)
Definition example_boundaries : list Z := [1; 3].

Definition example_dependencies : list rows_to_range :=
  Eval vm_compute in
    find_column_dependencies example_boundaries example_boundaries.

Definition example_messages : list (list message) :=
  Eval vm_compute in
    default []
      (dependencies_to_messages example_dependencies example_boundaries
         example_boundaries).

(** Two elements of a one-dimensional problem at levels 0 and 1. *)
Definition pde_1d : PDE := mk_PDE 1 1 [mk_dimension 1 2].

Definition table_1d : element_table := [[0; 0]; [1; 0]].



(** ** Windows inside a vector *)

(** A window of a vector of [size] entries: a non-empty slice of it. *)
Definition window_in (size : Z) (w : Z * Z) : Prop :=
  0 <= fst w <= snd w /\ snd w < size.

(** An action that stays inside an output vector of [source_size] and an
    input vector of [dest_size] entries; a copy moves as many entries as it
    overwrites. *)
Definition action_in_bounds (source_size dest_size : Z)
    (a : exchange_action) : Prop :=
  match a with
  | copy_whole => source_size = dest_size
  | copy_windows o i =>
      window_in source_size o /\ window_in dest_size i
      /\ snd o - fst o = snd i - fst i
  | no_action => True
  | mpi_send _ o => window_in source_size o
  | mpi_recv _ i => window_in dest_size i
  end.

(** The action [exchange_results] takes for a message when [segment_size]
    is positive. *)
Definition exchange_action_of (my_rank : Z) (my_grid : element_subgrid)
    (segment_size : Z) (m : message) : exchange_action :=
  match message_dir m with
  | send =>
      if target m =? my_rank
      then copy_windows (output_window my_grid m segment_size)
                        (input_window my_grid m segment_size)
      else mpi_send (target m) (output_window my_grid m segment_size)
  | receive =>
      if target m =? my_rank then no_action
      else mpi_recv (target m) (input_window my_grid m segment_size)
  end.
(** * Properties *)

(** A [Forall] over integer bounds, weakened by arithmetic. *)
Ltac forall_weaken H :=
  eapply Forall_impl; [exact H|]; simpl; intros; lia.

(** ** Arithmetic of an even split into bands *)

Lemma band_begin_0 n k : band_begin n k 0 = 0 \/ n mod k < 0.
Proof. unfold band_begin. lia. Qed.

Lemma band_begin_succ n k b :
  band_begin n k (b + 1)
  = band_begin n k b + n / k + (if b <? n mod k then 1 else 0).
Proof.
  unfold band_begin. destruct (Z.ltb_spec b (n mod k)); lia.
Qed.

Lemma band_begin_last n k : 0 < k -> band_begin n k k = n.
Proof.
  intros Hk. unfold band_begin.
  pose proof (Z.mod_pos_bound n k Hk).
  pose proof (Z.div_mod n k ltac:(lia)). lia.
Qed.

Lemma band_begin_mono n k b b' :
  0 < k -> 0 <= n -> b <= b' -> band_begin n k b <= band_begin n k b'.
Proof.
  intros Hk Hn Hb. unfold band_begin.
  assert (0 <= n / k) by (apply Z.div_pos; lia).
  assert (b * (n / k) <= b' * (n / k)) by nia. lia.
Qed.

(** Every index of [0..n-1] falls into a band. *)
Lemma band_cover n k x :
  0 < k -> 0 <= x < n ->
  exists b, 0 <= b < k /\ band_begin n k b <= x < band_begin n k (b + 1).
Proof.
  intros Hk Hx.
  assert (Hgen : forall j : nat, Z.of_nat j <= k -> x < band_begin n k (Z.of_nat j) ->
             exists b, 0 <= b < Z.of_nat j
                       /\ band_begin n k b <= x < band_begin n k (b + 1)).
  { induction j as [|j IH]; intros Hj Hlt.
    - exfalso. pose proof (Z.mod_pos_bound n k Hk).
      unfold band_begin in Hlt. simpl in Hlt. lia.
    - destruct (Z_lt_le_dec x (band_begin n k (Z.of_nat j))) as [Hl|Hl].
      + destruct (IH ltac:(lia) Hl) as (b & Hb & Hin). exists b. lia.
      + exists (Z.of_nat j). split; [lia|].
        replace (Z.of_nat j + 1) with (Z.of_nat (S j)) by lia. lia. }
  destruct (Hgen (Z.to_nat k)) as (b & Hb & Hin).
  - lia.
  - rewrite Z2Nat.id by lia. rewrite band_begin_last by lia. lia.
  - exists b. split; [lia | exact Hin].
Qed.

(** Two bands that hold a common index are the same band. *)
Lemma band_unique n k x b b' :
  0 < k -> 0 <= n ->
  band_begin n k b <= x < band_begin n k (b + 1) ->
  band_begin n k b' <= x < band_begin n k (b' + 1) ->
  b = b'.
Proof.
  intros Hk Hn H1 H2.
  destruct (Z.lt_trichotomy b b') as [Hlt|[Heq|Hgt]]; [|exact Heq|].
  - pose proof (band_begin_mono n k (b + 1) b' Hk Hn ltac:(lia)). lia.
  - pose proof (band_begin_mono n k (b' + 1) b Hk Hn ltac:(lia)). lia.
Qed.

(** Bands stay inside [0..n-1]. *)
Lemma band_inside n k b x :
  0 < k -> 0 <= n -> 0 <= b < k ->
  band_begin n k b <= x < band_begin n k (b + 1) -> 0 <= x < n.
Proof.
  intros Hk Hn Hb Hx.
  pose proof (band_begin_mono n k 0 b Hk Hn ltac:(lia)).
  pose proof (band_begin_mono n k (b + 1) k Hk Hn ltac:(lia)).
  rewrite band_begin_last in * by lia.
  pose proof (Z.mod_pos_bound n k Hk).
  unfold band_begin in H at 1. lia.
Qed.

(** ** The effective rank count *)

Lemma is_perfect_square_spec n :
  is_perfect_square n = true <-> exists k, k * k = n.
Proof.
  unfold is_perfect_square. rewrite Z.eqb_eq. split.
  - intros H. exists (Z.sqrt n). exact H.
  - intros [k Hk]. subst n.
    replace (k * k) with (Z.abs k * Z.abs k) by lia.
    rewrite Z.sqrt_square by lia. reflexivity.
Qed.

Lemma rem2_even n : 0 <= n -> (Z.rem n 2 =? 0) = Z.even n.
Proof.
  intros Hn. rewrite Z.rem_mod_nonneg by lia.
  rewrite Zeven_mod. reflexivity.
Qed.

Lemma num_effective_ranks_bounds n :
  0 < n -> 0 < num_effective_ranks n <= n.
Proof.
  intros Hn. unfold num_effective_ranks.
  destruct (is_perfect_square n) eqn:Hsq; simpl; [lia|].
  destruct (Z.rem n 2 =? 0) eqn:Hev; [lia|].
  assert (n <> 1); [|lia].
  intros ->. vm_compute in Hsq. discriminate.
Qed.

(** The rank count handed to [get_subgrid] passes its second assertion. *)
Lemma num_effective_ranks_admissible n :
  0 < n ->
  (Z.rem (num_effective_ranks n) 2 =? 0) || (num_effective_ranks n =? 1)
  || is_perfect_square (num_effective_ranks n) = true.
Proof.
  intros Hn. unfold num_effective_ranks.
  destruct (is_perfect_square n) eqn:Hsq; simpl.
  - rewrite Hsq. rewrite orb_true_r. reflexivity.
  - destruct (Z.rem n 2 =? 0) eqn:Hev.
    + rewrite Hev. reflexivity.
    + assert ((Z.rem (n - 1) 2 =? 0) = true) as ->; [|reflexivity].
      rewrite Z.eqb_eq. rewrite Z.eqb_neq in Hev.
      rewrite Z.rem_mod_nonneg in * by lia.
      pose proof (Z.mod_pos_bound n 2 ltac:(lia)).
      pose proof (Z.div_mod n 2 ltac:(lia)).
      assert (n mod 2 = 1) by lia.
      replace (n - 1) with (0 + (n / 2) * 2) by lia.
      rewrite Z.mod_add by lia. reflexivity.
Qed.

(** ** The distribution plan *)

Section PlanProperties.

Variable get_num_subgrid_cols : Z -> Z.
Hypothesis cols_ok : cols_divide get_num_subgrid_cols.


Lemma subgrid_rows_positive n :
  0 < n -> 0 < n / get_num_subgrid_cols n
           /\ n = (n / get_num_subgrid_cols n) * get_num_subgrid_cols n.
Proof.
  intros Hn. destruct (cols_ok n Hn) as [Hc Hrem].
  rewrite Z.rem_mod_nonneg in Hrem by lia.
  pose proof (Z.div_mod n (get_num_subgrid_cols n) ltac:(lia)). nia.
Qed.

(** [get_subgrid] returns for every rank of an admissible rank count. *)
Lemma get_subgrid_returns n i table :
  0 < n ->
  (Z.rem n 2 =? 0) || (n =? 1) || is_perfect_square n = true ->
  n < table_size table ->
  0 <= i < n ->
  is_Some (get_subgrid get_num_subgrid_cols n i table).
Proof.
  intros Hn Hadm Hsz Hi. unfold get_subgrid.
  assert ((0 <? n) = true) as -> by lia.
  rewrite Hadm.
  assert ((0 <=? i) = true) as -> by lia.
  assert ((i <? n) = true) as -> by lia.
  assert ((n <? table_size table) = true) as -> by lia.
  simpl. destruct (n =? 1); [eauto|].
  destruct (cols_ok n Hn) as [Hc _].
  destruct (subgrid_rows_positive n Hn) as [Hrows _].
  rewrite <- (Z.quot_div_nonneg n) in Hrows by lia.
  assert ((get_num_subgrid_cols n =? 0) = false) as -> by lia.
  assert ((Z.quot n (get_num_subgrid_cols n) =? 0) = false) as -> by lia.
  eauto.
Qed.

(** [get_subgrid] returns only for ranks [0 <= i < n]. *)
Lemma get_subgrid_Some_rank n i table g :
  get_subgrid get_num_subgrid_cols n i table = Some g -> 0 <= i < n /\ n < table_size table.
Proof.
  unfold get_subgrid. intros H.
  destruct (0 <? n); simpl in H; [|discriminate].
  destruct ((Z.rem n 2 =? 0) || (n =? 1) || is_perfect_square n);
    simpl in H; [|discriminate].
  destruct (Z.leb_spec 0 i); simpl in H; [|discriminate].
  destruct (Z.ltb_spec i n); simpl in H; [|discriminate].
  destruct (Z.ltb_spec n (table_size table)); simpl in H; [|discriminate].
  lia.
Qed.

(** The loop of [get_plan] after [k] rounds: the keys are [0..k-1], each
    bound to the subgrid of its rank; it fails exactly when some call of
    [get_subgrid] fails. *)
Lemma get_plan_loop n table (k : nat) :
  match foldl (get_plan_step get_num_subgrid_cols n table) (Some ∅)
          (seqZ 0 (Z.of_nat k)) with
  | Some plan =>
      forall i, plan !! i
                = if decide (0 <= i < Z.of_nat k) then get_subgrid get_num_subgrid_cols n i table
                  else None
  | None => exists i, 0 <= i < Z.of_nat k /\ get_subgrid get_num_subgrid_cols n i table = None
  end.
Proof.
  induction k as [|k IH].
  - rewrite seqZ_nil by lia. simpl. intros i. rewrite lookup_empty.
    case_decide; [lia|reflexivity].
  - rewrite seqZ_S, foldl_app. simpl. rewrite Z.add_0_l.
    destruct (foldl _ _ (seqZ 0 (Z.of_nat k))) as [plan|]; simpl.
    + destruct (get_subgrid get_num_subgrid_cols n (Z.of_nat k) table) as [g|] eqn:Hg.
      * intros i. unfold plan_emplace. rewrite (IH (Z.of_nat k)).
        case_decide; [lia|].
        destruct (decide (i = Z.of_nat k)) as [->|Hne].
        -- rewrite lookup_insert_eq. case_decide; [congruence|lia].
        -- rewrite lookup_insert_ne by congruence. rewrite IH.
           repeat case_decide; try lia; reflexivity.
      * exists (Z.of_nat k). split; [lia|exact Hg].
    + destruct IH as (i & Hi & Hnone). exists i. split; [lia|exact Hnone].
Qed.

(** [get_plan] returns whenever its two assertions hold. *)
Lemma get_plan_returns num_ranks table :
  0 < num_ranks < table_size table ->
  exists plan, get_plan get_num_subgrid_cols num_ranks table = Some plan
    /\ forall i, plan !! i
                 = if decide (0 <= i < num_effective_ranks num_ranks)
                   then get_subgrid get_num_subgrid_cols (num_effective_ranks num_ranks) i table
                   else None.
Proof.
  intros [Hpos Hlt]. unfold get_plan.
  assert ((0 <? num_ranks) = true) as -> by lia.
  assert ((num_ranks <? table_size table) = true) as -> by lia. simpl.
  pose proof (num_effective_ranks_bounds num_ranks Hpos) as Hb.
  pose proof (get_plan_loop (num_effective_ranks num_ranks) table
                (Z.to_nat (num_effective_ranks num_ranks))) as Hloop.
  rewrite Z2Nat.id in Hloop by lia.
  destruct (foldl _ _ _) as [plan|].
  - exists plan. split; [reflexivity|exact Hloop].
  - destruct Hloop as (i & Hi & Hnone).
    destruct (get_subgrid_returns (num_effective_ranks num_ranks) i table)
      as [g Hg]; try lia.
    + apply num_effective_ranks_admissible. lia.
    + congruence.
Qed.

(** A returned plan binds exactly the ranks below the effective count. *)
Lemma get_plan_keys num_ranks table plan :
  get_plan get_num_subgrid_cols num_ranks table = Some plan ->
  0 < num_ranks < table_size table
  /\ forall i, plan !! i
               = if decide (0 <= i < num_effective_ranks num_ranks)
                 then get_subgrid get_num_subgrid_cols (num_effective_ranks num_ranks) i table
                 else None.
Proof.
  intros Hplan.
  assert (0 < num_ranks < table_size table) as Hr.
  { unfold get_plan in Hplan.
    destruct (Z.ltb_spec 0 num_ranks); simpl in Hplan; [|discriminate].
    destruct (Z.ltb_spec num_ranks (table_size table)); simpl in Hplan;
      [|discriminate]. lia. }
  split; [exact Hr|].
  destruct (get_plan_returns num_ranks table Hr) as (plan' & Hp & Hkeys).
  rewrite Hplan in Hp. injection Hp as <-. exact Hkeys.
Qed.

Lemma plan_size_keys (plan : gmap Z element_subgrid) (n : Z) :
  0 <= n ->
  (forall i, is_Some (plan !! i) <-> 0 <= i < n) ->
  size plan = Z.to_nat n.
Proof.
  intros Hn Hkeys.
  assert (dom plan = list_to_set (seqZ 0 n)) as Hdom.
  { apply set_eq. intros i. rewrite elem_of_dom, Hkeys.
    rewrite elem_of_list_to_set, elem_of_seqZ. lia. }
  rewrite <- size_dom, Hdom.
  rewrite size_list_to_set by apply NoDup_seqZ.
  apply length_seqZ.
Qed.

(** C5.  For every [num_ranks > 0]: the effective rank count is
    [num_ranks] when [num_ranks] is even or a perfect square and
    [num_ranks - 1] otherwise; a plan returned by [get_plan] binds exactly
    the rank ids [0 .. effective_ranks - 1] (and so has that many entries);
    and [get_plan] does return a plan once the table is larger than the rank
    count, its only other precondition. *)
Theorem get_plan_effective_rank_ids (num_ranks : Z) (table : element_table) :
  0 < num_ranks ->
  let effective_ranks := num_effective_ranks num_ranks in
  (Z.even num_ranks = true \/ (exists k, k * k = num_ranks) ->
     effective_ranks = num_ranks)
  /\ (~ (Z.even num_ranks = true \/ exists k, k * k = num_ranks) ->
     effective_ranks = num_ranks - 1)
  /\ (forall plan, get_plan get_num_subgrid_cols num_ranks table = Some plan ->
        (forall rank, is_Some (plan !! rank) <-> 0 <= rank < effective_ranks)
        /\ Z.of_nat (size plan) = effective_ranks)
  /\ (num_ranks < table_size table -> is_Some (get_plan get_num_subgrid_cols num_ranks table)).
Proof.
  intros Hpos effective_ranks. subst effective_ranks.
  assert (Heff : num_effective_ranks num_ranks
                 = if Z.even num_ranks || is_perfect_square num_ranks
                   then num_ranks else num_ranks - 1).
  { unfold num_effective_ranks. rewrite rem2_even by lia.
    rewrite orb_comm. reflexivity. }
  split; [|split; [|split]].
  - intros [Hev|Hsq]; rewrite Heff.
    + rewrite Hev. reflexivity.
    + apply is_perfect_square_spec in Hsq. rewrite Hsq, orb_true_r.
      reflexivity.
  - intros Hno. rewrite Heff.
    destruct (Z.even num_ranks) eqn:Hev; [exfalso; auto|].
    destruct (is_perfect_square num_ranks) eqn:Hsq; [|reflexivity].
    exfalso. apply Hno. right. apply is_perfect_square_spec. exact Hsq.
  - intros plan Hplan.
    destruct (get_plan_keys _ _ _ Hplan) as [Hr Hkeys].
    pose proof (num_effective_ranks_bounds num_ranks Hpos) as Hb.
    assert (Hdom : forall rank, is_Some (plan !! rank)
                     <-> 0 <= rank < num_effective_ranks num_ranks).
    { intros rank. rewrite Hkeys. case_decide as Hin.
      - split; [intros _; exact Hin|intros _].
        apply get_subgrid_returns; try lia.
        apply num_effective_ranks_admissible. lia.
      - split; [intros [? ?]; discriminate|intros; contradiction]. }
    split; [exact Hdom|].
    rewrite (plan_size_keys plan (num_effective_ranks num_ranks)); [lia|lia|].
    exact Hdom.
  - intros Hlt. destruct (get_plan_returns num_ranks table) as (plan & -> & _);
      [lia|eauto].
Qed.

(** The tile of rank [i] is row band [i / cols] crossed with column band
    [i mod cols]. *)
Lemma get_subgrid_bands n i table g :
  get_subgrid get_num_subgrid_cols n i table = Some g ->
  let cols := get_num_subgrid_cols n in
  let rows := n / cols in
  row_start g = band_begin (table_size table) rows (i / cols)
  /\ row_stop g = band_begin (table_size table) rows (i / cols + 1) - 1
  /\ col_start g = band_begin (table_size table) cols (i mod cols)
  /\ col_stop g = band_begin (table_size table) cols (i mod cols + 1) - 1.
Proof.
  intros Hg cols rows.
  destruct (get_subgrid_Some_rank _ _ _ _ Hg) as [Hi Hsz].
  assert (Hn : 0 < n) by lia.
  destruct (cols_ok n Hn) as [Hc Hrem]. fold cols in Hc, Hrem.
  destruct (subgrid_rows_positive n Hn) as [Hrows Hfac].
  fold cols in Hrows, Hfac. fold rows in Hrows, Hfac.
  assert (HN : 0 <= table_size table) by (unfold table_size; lia).
  unfold get_subgrid in Hg.
  destruct (0 <? n); simpl in Hg; [|discriminate].
  destruct ((Z.rem n 2 =? 0) || (n =? 1) || is_perfect_square n);
    simpl in Hg; [|discriminate].
  destruct (0 <=? i); simpl in Hg; [|discriminate].
  destruct (i <? n); simpl in Hg; [|discriminate].
  destruct (n <? table_size table); simpl in Hg; [|discriminate].
  destruct (Z.eqb_spec n 1) as [H1|H1].
  - injection Hg as <-. simpl.
    assert (cols = 1) as Hc1 by nia.
    assert (rows = 1) as Hr1 by nia.
    assert (i = 0) as -> by lia.
    rewrite Hc1, Hr1. unfold band_begin.
    rewrite !Z.div_1_r, !Z.mod_1_r.
    change (0 / 1) with 0. change (0 mod 1) with 0. lia.
  - fold cols in Hg.
    rewrite (Z.quot_div_nonneg n cols) in Hg by lia. fold rows in Hg.
    assert ((cols =? 0) = false) as Hc0 by lia.
    assert ((rows =? 0) = false) as Hr0 by lia.
    rewrite Hc0, Hr0 in Hg.
    rewrite (Z.quot_div_nonneg i cols) in Hg by lia.
    rewrite (Z.rem_mod_nonneg i cols) in Hg by lia.
    rewrite !(Z.quot_div_nonneg (table_size table)) in Hg by lia.
    rewrite !(Z.rem_mod_nonneg (table_size table)) in Hg by lia.
    injection Hg as <-. simpl.
    rewrite !band_begin_succ. unfold band_begin. lia.
Qed.

(** The bounds [get_subgrid] computes lie between 0 and the table size, so
    they fit the [int] that holds the size. *)
Lemma get_subgrid_bounds n i table g :
  get_subgrid get_num_subgrid_cols n i table = Some g ->
  0 <= row_start g <= row_stop g + 1 /\ row_stop g < table_size table
  /\ 0 <= col_start g <= col_stop g + 1 /\ col_stop g < table_size table.
Proof.
  intros Hg.
  destruct (get_subgrid_Some_rank _ _ _ _ Hg) as [Hi Hsz].
  assert (Hn : 0 < n) by lia.
  destruct (cols_ok n Hn) as [Hc _].
  destruct (subgrid_rows_positive n Hn) as [Hrows Hfac].
  assert (HN : 0 <= table_size table) by (unfold table_size; lia).
  destruct (get_subgrid_bands _ _ _ _ Hg) as (H1 & H2 & H3 & H4).
  set (cols := get_num_subgrid_cols n) in *. set (rows := n / cols) in *.
  pose proof (Z.mod_pos_bound i cols Hc) as Hbc.
  assert (0 <= i / cols < rows) as Hbr.
  { split; [apply Z.div_pos; lia|].
    apply Z.div_lt_upper_bound; [lia|nia]. }
  pose proof (band_begin_mono (table_size table) rows 0 (i / cols)
                Hrows HN ltac:(lia)) as Hr0.
  pose proof (band_begin_mono (table_size table) rows (i / cols)
                (i / cols + 1) Hrows HN ltac:(lia)) as Hr1.
  pose proof (band_begin_mono (table_size table) rows (i / cols + 1) rows
                Hrows HN ltac:(lia)) as Hr2.
  pose proof (band_begin_mono (table_size table) cols 0 (i mod cols)
                Hc HN ltac:(lia)) as Hc0.
  pose proof (band_begin_mono (table_size table) cols (i mod cols)
                (i mod cols + 1) Hc HN ltac:(lia)) as Hc1.
  pose proof (band_begin_mono (table_size table) cols (i mod cols + 1) cols
                Hc HN ltac:(lia)) as Hc2.
  rewrite band_begin_last in Hr2, Hc2 by lia.
  assert (band_begin (table_size table) rows 0 = 0) as Er.
  { pose proof (Z.mod_pos_bound (table_size table) rows Hrows).
    unfold band_begin. lia. }
  assert (band_begin (table_size table) cols 0 = 0) as Ec.
  { pose proof (Z.mod_pos_bound (table_size table) cols Hc).
    unfold band_begin. lia. }
  lia.
Qed.

(** A rank is determined by its row and column band. *)
Lemma rank_of_bands n i :
  0 < n -> 0 <= i < n ->
  let cols := get_num_subgrid_cols n in
  0 <= i / cols < n / cols /\ 0 <= i mod cols < cols
  /\ i = (i / cols) * cols + i mod cols.
Proof.
  intros Hn Hi cols.
  destruct (cols_ok n Hn) as [Hc _]. fold cols in Hc.
  destruct (subgrid_rows_positive n Hn) as [Hrows Hfac]. fold cols in Hrows, Hfac.
  pose proof (Z.mod_pos_bound i cols Hc).
  pose proof (Z.div_mod i cols ltac:(lia)).
  assert (0 <= i / cols) by (apply Z.div_pos; lia).
  assert (i / cols < n / cols); [|lia].
  apply Z.div_lt_upper_bound; [lia|]. nia.
Qed.

(** C1.  For a table of [N] elements and [0 < num_ranks < N], [get_plan]
    returns a plan whose subgrids tile the square [0..N-1] x [0..N-1]: every
    pair lies in the subgrid of one rank and of no other, every subgrid lies
    inside the square, no two subgrids share a pair, and rows and columns
    are split evenly: rank [i] owns row band [i / cols] and column band
    [i mod cols], band [b] of [k] bands starts at [b * (N / k) + min b (N mod
    k)] and holds [N / k] indices plus one more exactly when
    [b < N mod k]. *)
Theorem get_plan_tiles_square (num_ranks : Z) (table : element_table) :
  0 < num_ranks < table_size table ->
  let N := table_size table in
  let splits := num_effective_ranks num_ranks in
  let cols := get_num_subgrid_cols splits in
  let rows := splits / cols in
  exists plan,
    get_plan get_num_subgrid_cols num_ranks table = Some plan
    /\ (forall row col, 0 <= row < N -> 0 <= col < N ->
          exists rank g,
            plan !! rank = Some g /\ in_subgrid g row col
            /\ forall rank' g', plan !! rank' = Some g' ->
                 in_subgrid g' row col -> rank' = rank)
    /\ (forall rank g row col, plan !! rank = Some g ->
          in_subgrid g row col -> 0 <= row < N /\ 0 <= col < N)
    /\ (forall rank1 rank2 g1 g2 row col,
          plan !! rank1 = Some g1 -> plan !! rank2 = Some g2 ->
          in_subgrid g1 row col -> in_subgrid g2 row col -> rank1 = rank2)
    /\ (forall rank g, plan !! rank = Some g ->
          row_start g = band_begin N rows (rank / cols)
          /\ col_start g = band_begin N cols (rank mod cols)
          /\ nrows g = N / rows + (if rank / cols <? N mod rows then 1 else 0)
          /\ ncols g = N / cols
                       + (if rank mod cols <? N mod cols then 1 else 0)).
Proof.
  intros Hr N splits cols rows.
  destruct (get_plan_returns num_ranks table Hr) as (plan & Hplan & Hkeys).
  fold splits in Hkeys.
  pose proof (num_effective_ranks_bounds num_ranks ltac:(lia)) as Hs.
  fold splits in Hs.
  destruct (cols_ok splits ltac:(lia)) as [Hc _]. fold cols in Hc.
  destruct (subgrid_rows_positive splits ltac:(lia)) as [Hrows Hfac].
  fold cols in Hrows, Hfac. fold rows in Hrows, Hfac.
  assert (HN : 0 <= N) by (unfold N, table_size; lia).
  (* what a bound rank looks like *)
  assert (Hbound : forall rank g, plan !! rank = Some g ->
            0 <= rank < splits
            /\ (0 <= rank / cols < rows /\ 0 <= rank mod cols < cols
                /\ rank = (rank / cols) * cols + rank mod cols)
            /\ (forall row col, in_subgrid g row col <->
                  (band_begin N rows (rank / cols) <= row
                     < band_begin N rows (rank / cols + 1))
                  /\ (band_begin N cols (rank mod cols) <= col
                     < band_begin N cols (rank mod cols + 1)))
            /\ row_start g = band_begin N rows (rank / cols)
            /\ row_stop g = band_begin N rows (rank / cols + 1) - 1
            /\ col_start g = band_begin N cols (rank mod cols)
            /\ col_stop g = band_begin N cols (rank mod cols + 1) - 1).
  { intros rank g Hg. rewrite Hkeys in Hg. case_decide as Hin; [|discriminate].
    split; [exact Hin|]. split; [apply rank_of_bands; lia|].
    destruct (get_subgrid_bands _ _ _ _ Hg) as (H1 & H2 & H3 & H4).
    fold cols in H1, H2, H3, H4. fold rows in H1, H2. fold N in H1, H2, H3, H4.
    split; [|tauto].
    intros row col. unfold in_subgrid. rewrite H1, H2, H3, H4. lia. }
  (* the rank owning a pair of bands *)
  assert (Hown : forall br bc, 0 <= br < rows -> 0 <= bc < cols ->
            0 <= br * cols + bc < splits
            /\ (br * cols + bc) / cols = br /\ (br * cols + bc) mod cols = bc).
  { intros br bc Hbr Hbc. split; [nia|]. split.
    - rewrite Z.add_comm, Z.div_add by lia. rewrite Z.div_small by lia. lia.
    - rewrite Z.add_comm, Z.mod_add by lia. apply Z.mod_small. lia. }
  exists plan. split; [exact Hplan|]. split; [|split; [|split]].
  - intros row col Hrow Hcol.
    destruct (band_cover N rows row Hrows Hrow) as (br & Hbr & Hinr).
    destruct (band_cover N cols col Hc Hcol) as (bc & Hbc & Hinc).
    destruct (Hown br bc Hbr Hbc) as (Hrk & Hdiv & Hmod).
    destruct (get_subgrid_returns splits (br * cols + bc) table)
      as [g Hg]; try lia.
    { apply num_effective_ranks_admissible. lia. }
    assert (Hlk : plan !! (br * cols + bc) = Some g).
    { rewrite Hkeys. case_decide; [exact Hg|lia]. }
    exists (br * cols + bc), g. split; [exact Hlk|].
    destruct (Hbound _ _ Hlk) as (_ & _ & Hmem & _).
    split.
    + apply Hmem. rewrite Hdiv, Hmod. split; assumption.
    + intros rank' g' Hlk' Hin'.
      destruct (Hbound _ _ Hlk') as (_ & (_ & _ & Hdec) & Hmem' & _).
      apply Hmem' in Hin'. destruct Hin' as [Hr' Hc'].
      assert (rank' / cols = br) as E1
        by (eapply band_unique; [exact Hrows|exact HN|exact Hr'|exact Hinr]).
      assert (rank' mod cols = bc) as E2
        by (eapply band_unique; [exact Hc|exact HN|exact Hc'|exact Hinc]).
      rewrite Hdec, E1, E2. reflexivity.
  - intros rank g row col Hlk Hin.
    destruct (Hbound _ _ Hlk) as (_ & (Hbr & Hbc & _) & Hmem & _).
    apply Hmem in Hin. destruct Hin as [Hr' Hc'].
    split.
    + eapply band_inside; [exact Hrows|exact HN|exact Hbr|exact Hr'].
    + eapply band_inside; [exact Hc|exact HN|exact Hbc|exact Hc'].
  - intros rank1 rank2 g1 g2 row col Hlk1 Hlk2 Hin1 Hin2.
    destruct (Hbound _ _ Hlk1) as (_ & (_ & _ & Hdec1) & Hmem1 & _).
    destruct (Hbound _ _ Hlk2) as (_ & (_ & _ & Hdec2) & Hmem2 & _).
    apply Hmem1 in Hin1. apply Hmem2 in Hin2.
    destruct Hin1 as [Hr1 Hc1]. destruct Hin2 as [Hr2 Hc2].
    assert (rank1 / cols = rank2 / cols) as E1
      by (eapply band_unique; [exact Hrows|exact HN|exact Hr1|exact Hr2]).
    assert (rank1 mod cols = rank2 mod cols) as E2
      by (eapply band_unique; [exact Hc|exact HN|exact Hc1|exact Hc2]).
    rewrite Hdec1, Hdec2, E1, E2. reflexivity.
  - intros rank g Hlk.
    destruct (Hbound _ _ Hlk) as (_ & _ & _ & H1 & H2 & H3 & H4).
    unfold nrows, ncols. rewrite H1, H2, H3, H4.
    rewrite !band_begin_succ. lia.
Qed.

End PlanProperties.

(** ** Column dependencies *)

Lemma bands_from_length first stops :
  length (bands_from first stops) = length stops.
Proof.
  revert first. induction stops as [|s stops IH]; intros first; simpl;
    [reflexivity|]. rewrite IH. reflexivity.
Qed.

(** Sorted stop indices delimit non-empty bands. *)
Lemma bands_from_nonempty first stops j a b :
  increasing_from first stops = true ->
  bands_from first stops !! j = Some (a, b) ->
  first <= a <= b.
Proof.
  revert first j. induction stops as [|s stops IH]; intros first j Hinc Hj;
    simpl in *; [destruct j; discriminate|].
  apply andb_prop in Hinc as [Hle Hinc]. apply Z.leb_le in Hle.
  destruct j as [|j]; simpl in Hj.
  - injection Hj as <- <-. lia.
  - specialize (IH _ _ Hinc Hj). lia.
Qed.

(** Bands further right lie further right. *)
Lemma bands_from_ordered first stops j j' a b a' b' :
  increasing_from first stops = true ->
  bands_from first stops !! j = Some (a, b) ->
  bands_from first stops !! j' = Some (a', b') ->
  (j < j')%nat -> b < a'.
Proof.
  revert first j j'. induction stops as [|s stops IH];
    intros first j j' Hinc Hj Hj' Hlt; simpl in *; [destruct j; discriminate|].
  apply andb_prop in Hinc as [Hle Hinc].
  destruct j' as [|j']; [lia|]. simpl in Hj'.
  destruct j as [|j]; simpl in Hj.
  - injection Hj as <- <-.
    pose proof (bands_from_nonempty _ _ _ _ _ Hinc Hj'). lia.
  - eapply IH; eauto. lia.
Qed.

(** On a map whose keys are all smaller, [emplace] appends. *)
Lemma rows_emplace_append k v (m : rows_to_range) :
  Forall (fun kv => fst kv < k) m -> rows_emplace k v m = m ++ [(k, v)].
Proof.
  induction m as [|[k' v'] m IH]; intros Hall; simpl; [reflexivity|].
  inversion Hall as [|? ? Hk Hall']; subst. simpl in Hk.
  assert ((k <? k') = false) as -> by lia.
  assert ((k =? k') = false) as -> by lia.
  rewrite IH by assumption. reflexivity.
Qed.

Lemma rows_lookup_app r (m1 m2 : rows_to_range) :
  rows_lookup r (m1 ++ m2)
  = match rows_lookup r m1 with
    | Some g => Some g
    | None => rows_lookup r m2
    end.
Proof.
  induction m1 as [|[k v] m1 IH]; simpl; [reflexivity|].
  destruct (r =? k); [reflexivity|exact IH].
Qed.

Lemma rows_lookup_small r (m : rows_to_range) k :
  Forall (fun kv => fst kv < k) m -> k <= r -> rows_lookup r m = None.
Proof.
  induction m as [|[k' v'] m IH]; intros Hall Hr; simpl; [reflexivity|].
  inversion Hall as [|? ? Hk Hall']; subst. simpl in Hk.
  assert ((r =? k') = false) as -> by lia. auto.
Qed.

Lemma rows_lookup_elem r g (m : rows_to_range) :
  rows_lookup r m = Some g -> (r, g) ∈ m.
Proof.
  induction m as [|[k v] m IH]; simpl; [discriminate|].
  destruct (Z.eqb_spec r k) as [->|Hne].
  - intros [= ->]. left.
  - intros H. right. auto.
Qed.

(** The test of [find_column_dependencies], on non-empty intervals, is
    intersection. *)
Lemma dependency_test_intersects rs re cs ce :
  rs <= re -> cs <= ce ->
  ((rs <=? cs) && (cs <=? re)) || ((cs <=? rs) && (rs <=? ce)) = true
  <-> intersects (rs, re) (cs, ce).
Proof.
  intros Hr Hc. unfold intersects. simpl.
  rewrite orb_true_iff, !andb_true_iff, !Z.leb_le. split.
  - intros [[H1 H2]|[H1 H2]]; [exists cs|exists rs]; lia.
  - intros (x & Hx1 & Hx2). lia.
Qed.

(** The inner loop: the visited row bands that pass the test are added,
    each with its overlap, under consecutive keys from [r0] on. *)
Lemma column_rows_lookup cs ce rows :
  forall r0 rs0 deps,
    Forall (fun kv => fst kv < r0) deps ->
    let result := column_rows cs ce r0 rs0 rows deps in
    Forall (fun kv => fst kv < r0 + Z.of_nat (length rows)) result
    /\ forall r g,
         rows_lookup r result = Some g <->
         rows_lookup r deps = Some g
         \/ exists (j : nat) rs re,
              bands_from rs0 rows !! j = Some (rs, re)
              /\ r = r0 + Z.of_nat j
              /\ ((rs <=? cs) && (cs <=? re)) || ((cs <=? rs) && (rs <=? ce))
                 = true
              /\ g = overlap (rs, re) (cs, ce).
Proof.
  induction rows as [|row_end rows IH]; intros r0 rs0 deps Hkeys; simpl.
  - split.
    + forall_weaken Hkeys.
    + intros r g. split; [auto|].
      intros [H|(j & rs & re & Hj & _)]; [exact H|]. destruct j; discriminate.
  - set (test := ((rs0 <=? cs) && (cs <=? row_end))
                 || ((cs <=? rs0) && (rs0 <=? ce))).
    set (deps' := if test
                  then rows_emplace r0
                         (mk_grid_limits (Z.max rs0 cs) (Z.min row_end ce)) deps
                  else deps).
    assert (Hkeys' : Forall (fun kv => fst kv < r0 + 1) deps').
    { subst deps'. destruct test.
      - rewrite rows_emplace_append by assumption.
        apply Forall_app. split.
        + forall_weaken Hkeys.
        + constructor; [simpl; lia|constructor].
      - forall_weaken Hkeys. }
    destruct (IH (r0 + 1) (row_end + 1) deps' Hkeys') as [Hall Hlk].
    split.
    + forall_weaken Hall.
    + intros r g. rewrite Hlk. clear Hlk Hall IH.
      assert (Hdeps' : rows_lookup r deps' = Some g <->
                rows_lookup r deps = Some g
                \/ (r = r0 /\ test = true
                    /\ g = overlap (rs0, row_end) (cs, ce))).
      { subst deps'. destruct test eqn:Ht.
        - rewrite rows_emplace_append by assumption.
          rewrite rows_lookup_app. simpl.
          destruct (rows_lookup r deps) as [g0|] eqn:Hd.
          + split; [auto|]. intros [H|(-> & _)]; [exact H|].
            rewrite (rows_lookup_small r0 deps r0) in Hd by (auto; lia).
            discriminate.
          + destruct (Z.eqb_spec r r0) as [->|Hne].
            * unfold overlap. simpl. split.
              -- intros [= <-]. right. auto.
              -- intros [H|(_ & _ & ->)]; [discriminate|reflexivity].
            * split; [discriminate|].
              intros [H|(-> & _)]; [discriminate|congruence].
        - split; [auto|]. intros [H|(_ & H & _)]; [exact H|discriminate]. }
      rewrite Hdeps'. clear Hdeps'. split.
      * intros [[H|(-> & Ht & ->)]|(j & rs & re & Hj & -> & Hc & ->)].
        -- left. exact H.
        -- right. exists 0%nat, rs0, row_end. simpl.
           split; [reflexivity|]. split; [lia|]. split; [exact Ht|reflexivity].
        -- right. exists (S j), rs, re. simpl.
           split; [exact Hj|]. split; [lia|]. split; [exact Hc|reflexivity].
      * intros [H|(j & rs & re & Hj & -> & Hc & ->)]; [left; left; exact H|].
        destruct j as [|j]; simpl in Hj.
        -- injection Hj as <- <-. left. right.
           split; [lia|]. split; [exact Hc|reflexivity].
        -- right. exists j, rs, re.
           split; [exact Hj|]. split; [lia|]. split; [exact Hc|reflexivity].
Qed.

(** The outer loop: entry [c] is the inner loop run on column band [c]. *)
Lemma find_column_dependencies_from_lookup first rb cols (c : nat) cs ce :
  bands_from first cols !! c = Some (cs, ce) ->
  find_column_dependencies_from first rb cols !! c
  = Some (column_rows cs ce 0 0 rb []).
Proof.
  revert first c. induction cols as [|s cols IH]; intros first c Hc;
    simpl in *; [destruct c; discriminate|].
  destruct c as [|c]; simpl in *.
  - injection Hc as <- <-. reflexivity.
  - apply IH. exact Hc.
Qed.

Lemma find_column_dependencies_length rb cb :
  length (find_column_dependencies rb cb) = length cb.
Proof.
  unfold find_column_dependencies. generalize 0.
  induction cb as [|s cb IH]; intros first; simpl; [reflexivity|].
  rewrite IH. reflexivity.
Qed.

(** The keys of every dependency map are row-band indices. *)
Lemma column_rows_keys cs ce rows :
  forall r0 rs0 acc,
    0 <= r0 ->
    Forall (fun kv => 0 <= fst kv < r0) acc ->
    Forall (fun kv => 0 <= fst kv < r0 + Z.of_nat (length rows))
           (column_rows cs ce r0 rs0 rows acc).
Proof.
  induction rows as [|e rows IH]; intros r0 rs0 acc Hr0 Hacc; simpl.
  - forall_weaken Hacc.
  - eapply Forall_impl; [apply IH|]; [lia| |simpl; intros; lia].
    destruct (_ || _).
    + rewrite rows_emplace_append
        by (forall_weaken Hacc).
      apply Forall_app. split.
      * forall_weaken Hacc.
      * constructor; [simpl; lia|constructor].
    + forall_weaken Hacc.
Qed.

Lemma find_column_dependencies_from_keys first rb cb (c : nat) deps r g :
  find_column_dependencies_from first rb cb !! c = Some deps ->
  (r, g) ∈ deps -> 0 <= r < Z.of_nat (length rb).
Proof.
  revert c first.
  induction cb as [|s cb IH]; intros c first Hc Hin; simpl in *;
    [destruct c; discriminate|].
  destruct c as [|c]; simpl in Hc.
  - injection Hc as <-.
    pose proof (column_rows_keys first s rb 0 0 [] ltac:(lia) ltac:(constructor))
      as Hgen.
    rewrite Forall_forall in Hgen. apply (Hgen (r, g)). exact Hin.
  - eapply IH; eauto.
Qed.

Lemma find_column_dependencies_keys rb cb (c : nat) deps r g :
  find_column_dependencies rb cb !! c = Some deps ->
  (r, g) ∈ deps -> 0 <= r < Z.of_nat (length rb).
Proof. apply find_column_dependencies_from_keys. Qed.

(** A row band that intersects a column band is among its dependencies,
    bound to the overlap. *)
Lemma column_dependency_present rb cb (c r : nat) rs re cs ce :
  bands_from 0 cb !! c = Some (cs, ce) ->
  bands_from 0 rb !! r = Some (rs, re) ->
  rs <= re -> cs <= ce -> intersects (rs, re) (cs, ce) ->
  exists deps,
    find_column_dependencies rb cb !! c = Some deps
    /\ rows_lookup (Z.of_nat r) deps = Some (overlap (rs, re) (cs, ce)).
Proof.
  intros Hc Hr Hrne Hcne Hint.
  exists (column_rows cs ce 0 0 rb []).
  split; [apply find_column_dependencies_from_lookup; exact Hc|].
  destruct (column_rows_lookup cs ce rb 0 0 [] ltac:(constructor)) as [_ Hlk].
  apply Hlk. right. exists r, rs, re.
  split; [exact Hr|]. split; [lia|]. split; [|reflexivity].
  apply dependency_test_intersects; assumption.
Qed.

(** C6.  For stop-index lists that delimit non-empty consecutive row and
    column bands, entry [c] of [find_column_dependencies] binds row band
    [r] exactly when the interval of [r] intersects the interval of [c],
    and binds it to the overlap [max(row_start, col_start) ..
    min(row_end, column_end)]. *)
Theorem find_column_dependencies_overlaps (row_boundaries column_boundaries : list Z)
    (c : nat) (col_band : Z * Z) :
  sorted_stops row_boundaries ->
  sorted_stops column_boundaries ->
  bands_from 0 column_boundaries !! c = Some col_band ->
  exists deps,
    find_column_dependencies row_boundaries column_boundaries !! c = Some deps
    /\ forall (r : Z) (g : grid_limits),
         rows_lookup r deps = Some g <->
         exists row_band,
           0 <= r
           /\ bands_from 0 row_boundaries !! Z.to_nat r = Some row_band
           /\ intersects row_band col_band
           /\ g = mk_grid_limits (Z.max (fst row_band) (fst col_band))
                                 (Z.min (snd row_band) (snd col_band)).
Proof.
  intros Hrows Hcols Hc. destruct col_band as [cs ce].
  exists (column_rows cs ce 0 0 row_boundaries []).
  split; [apply find_column_dependencies_from_lookup; exact Hc|].
  pose proof (bands_from_nonempty _ _ _ _ _ Hcols Hc) as Hcne.
  destruct (column_rows_lookup cs ce row_boundaries 0 0 [] ltac:(constructor))
    as [_ Hlk].
  intros r g. rewrite Hlk. simpl. split.
  - intros [H|(j & rs & re & Hj & -> & Ht & ->)]; [discriminate|].
    exists (rs, re). rewrite Z.add_0_l, Nat2Z.id.
    pose proof (bands_from_nonempty _ _ _ _ _ Hrows Hj) as Hrne.
    split; [lia|]. split; [exact Hj|]. split; [|reflexivity].
    apply dependency_test_intersects; [lia|lia|exact Ht].
  - intros ([rs re] & Hr & Hj & Hint & ->). right.
    exists (Z.to_nat r), rs, re.
    pose proof (bands_from_nonempty _ _ _ _ _ Hrows Hj) as Hrne.
    split; [exact Hj|]. split; [lia|]. split; [|reflexivity].
    apply dependency_test_intersects; [lia|lia|exact Hint].
Qed.

(** ** The message schedule *)

Lemma at_index_Some {A} (v : list A) i x :
  at_index v i = Some x <-> 0 <= i /\ v !! Z.to_nat i = Some x.
Proof.
  unfold at_index. destruct (Z.ltb_spec i 0).
  - split; [discriminate|lia].
  - split; [auto|tauto].
Qed.

Lemma at_index_is_Some {A} (v : list A) i :
  is_Some (at_index v i) <-> 0 <= i < Z.of_nat (length v).
Proof.
  unfold at_index. destruct (Z.ltb_spec i 0).
  - split; [intros [? ?]; discriminate|lia].
  - rewrite lookup_lt_is_Some. lia.
Qed.

Lemma for_each_app {A S} (body : S -> A -> option S) s l1 l2 :
  for_each body s (l1 ++ l2)
  = match for_each body s l1 with
    | Some s' => for_each body s' l2
    | None => None
    end.
Proof.
  revert s. induction l1 as [|x l1 IH]; intros s; simpl; [reflexivity|].
  destruct (body s x); [apply IH|reflexivity].
Qed.

(** A loop whose body is a loop is one loop over the flattened list. *)
Lemma for_each_flat_map {A B S} (body : S -> B -> option S) (h : A -> list B)
    s l :
  for_each (fun s x => for_each body s (h x)) s l
  = for_each body s (flat_map h l).
Proof.
  revert s. induction l as [|x l IH]; intros s; simpl; [reflexivity|].
  rewrite for_each_app. destruct (for_each body s (h x)); [apply IH|reflexivity].
Qed.

Lemma for_each_ext {A S} (f g : S -> A -> option S) s l :
  (forall s x, x ∈ l -> f s x = g s x) -> for_each f s l = for_each g s l.
Proof.
  revert s. induction l as [|x l IH]; intros s Hext; simpl; [reflexivity|].
  rewrite Hext by left. destruct (g s x); [|reflexivity].
  apply IH. intros; apply Hext. right. assumption.
Qed.

(** The three nested loops run the passes of [iterations] in order. *)
Lemma nested_loops_iterations col_dependencies num_rows num_cols st :
  for_each (column_step col_dependencies num_rows num_cols) st
    (seqZ 0 (Z.of_nat (length col_dependencies)))
  = for_each (iteration_step num_cols) st
      (iterations col_dependencies num_rows).
Proof.
  unfold iterations. rewrite <- for_each_flat_map.
  apply for_each_ext. intros s c Hc.
  apply elem_of_seqZ in Hc.
  unfold column_step, column_iterations.
  destruct (at_index_is_Some col_dependencies c) as [_ Hsome].
  destruct Hsome as [deps Hdeps]; [lia|]. rewrite Hdeps. simpl.
  rewrite <- for_each_flat_map.
  apply for_each_ext. intros s' dep _.
  unfold dependency_step, dependency_iterations.
  generalize (seqZ 0 num_rows). intros l. revert s'.
  induction l as [|r l IH]; intros s'; simpl; [reflexivity|].
  unfold iteration_step at 1. simpl.
  destruct (message_step _ _ _ _ _ _); [apply IH|reflexivity].
Qed.

Lemma push_message_Some msgs rank m msgs' :
  push_message msgs rank m = Some msgs' ->
  0 <= rank < Z.of_nat (length msgs)
  /\ length msgs' = length msgs
  /\ forall q : nat,
       msgs' !! q
       = (fun l => l ++ (if decide (rank = Z.of_nat q) then [m] else []))
           <$> msgs !! q.
Proof.
  unfold push_message. intros H.
  destruct (at_index msgs rank) as [l|] eqn:Hl; [|discriminate].
  injection H as <-.
  pose proof (proj1 (at_index_is_Some msgs rank) ltac:(eauto)) as Hr.
  apply at_index_Some in Hl as [H0 Hl].
  split; [exact Hr|]. split; [apply length_insert|].
  intros q. destruct (decide (rank = Z.of_nat q)) as [->|Hne].
  - rewrite Nat2Z.id in *. rewrite list_lookup_insert_eq by lia.
    rewrite Hl. reflexivity.
  - rewrite list_lookup_insert_ne by lia.
    destruct (msgs !! q); simpl; [rewrite app_nil_r|]; reflexivity.
Qed.

Lemma push_message_returns msgs rank m :
  0 <= rank < Z.of_nat (length msgs) -> is_Some (push_message msgs rank m).
Proof.
  intros Hr. unfold push_message.
  destruct (proj2 (at_index_is_Some msgs rank) Hr) as [l ->]. eauto.
Qed.

(** One pass: the assignment it makes and what it appends where. *)
Lemma iteration_step_Some num_cols wheels msgs it st' :
  iteration_step num_cols (mk_schedule_state wheels msgs) it = Some st' ->
  exists s,
    sender_rank num_cols (it_column it) (it_row it) (it_receiver_row it)
      wheels = Some (s, row_round_robin_wheels st')
    /\ length (messages st') = length msgs
    /\ forall q : nat,
         messages st' !! q
         = (fun l => l ++ assignment_messages q
                            (mk_assignment s
                               (receiver_rank num_cols (it_column it)
                                  (it_receiver_row it))
                               (it_limits it)))
             <$> msgs !! q.
Proof.
  unfold iteration_step, message_step. simpl. intros H.
  destruct (sender_rank _ _ _ _ _) as [[s wheels']|]; [|discriminate].
  destruct (push_message msgs _ _) as [msgs1|] eqn:H1; [|discriminate].
  destruct (push_message msgs1 _ _) as [msgs2|] eqn:H2; [|discriminate].
  injection H as <-. simpl.
  destruct (push_message_Some _ _ _ _ H1) as (_ & Hlen1 & Hlk1).
  destruct (push_message_Some _ _ _ _ H2) as (_ & Hlen2 & Hlk2).
  exists s. split; [reflexivity|]. split; [congruence|].
  intros q. rewrite Hlk2, Hlk1. unfold assignment_messages. simpl.
  destruct (msgs !! q); simpl; [|reflexivity].
  rewrite <- app_assoc. reflexivity.
Qed.

(** A run of passes: its assignments and the lists it leaves. *)
Lemma for_each_assignments num_cols its :
  forall wheels msgs st',
    for_each (iteration_step num_cols) (mk_schedule_state wheels msgs) its
    = Some st' ->
    exists asg,
      assignments num_cols wheels its = Some asg
      /\ length (messages st') = length msgs
      /\ forall q : nat,
           messages st' !! q
           = (fun l => l ++ flat_map (assignment_messages q) asg)
               <$> msgs !! q.
Proof.
  induction its as [|it its IH]; intros wheels msgs st' Hrun; simpl in *.
  - injection Hrun as <-. exists []. simpl. split; [reflexivity|].
    split; [reflexivity|]. intros q.
    destruct (msgs !! q); simpl; [rewrite app_nil_r|]; reflexivity.
  - destruct (iteration_step num_cols _ it) as [[wheels1 msgs1]|] eqn:Hstep;
      [|discriminate].
    destruct (iteration_step_Some _ _ _ _ _ Hstep) as (s & Hs & Hlen & Hlk).
    simpl in Hs, Hlen, Hlk.
    destruct (IH _ _ _ Hrun) as (asg & Hasg & Hlen' & Hlk').
    rewrite Hs, Hasg. eexists. split; [reflexivity|].
    split; [congruence|]. intros q. rewrite Hlk', Hlk. simpl.
    destruct (msgs !! q); simpl; [|reflexivity].
    rewrite <- app_assoc. reflexivity.
Qed.

Lemma assignments_length num_cols its :
  forall wheels asg,
    assignments num_cols wheels its = Some asg -> length asg = length its.
Proof.
  induction its as [|it its IH]; intros wheels asg H; simpl in *.
  - injection H as <-. reflexivity.
  - destruct (sender_rank _ _ _ _ _) as [[s wheels']|]; [|discriminate].
    destruct (assignments _ _ _) as [rest|] eqn:Hrest; [|discriminate].
    injection H as <-. simpl. erewrite IH; eauto.
Qed.

(** *** The round-robin wheels *)

Lemma spin_spec num_cols w :
  wheel_size w = num_cols -> 0 <= current_index w < num_cols ->
  fst (spin w) = current_index w
  /\ wheel_size (snd (spin w)) = num_cols
  /\ 0 <= current_index (snd (spin w)) < num_cols
  /\ current_index (snd (spin w)) mod num_cols
     = (current_index w + 1) mod num_cols.
Proof.
  intros Hsz Hidx. unfold spin. simpl. rewrite Hsz.
  split; [reflexivity|]. split; [reflexivity|].
  destruct (Z.eqb_spec (current_index w + 1) num_cols) as [Heq|Hne].
  - split; [lia|]. rewrite Heq. rewrite Z.mod_same by lia.
    apply Z.mod_0_l. lia.
  - split; [lia|reflexivity].
Qed.

Lemma wheel_index_insert wheels row w row' :
  0 <= row < Z.of_nat (length wheels) ->
  wheel_index (<[Z.to_nat row := w]> wheels) row'
  = if decide (row' = row) then current_index w else wheel_index wheels row'.
Proof.
  intros Hrow. unfold wheel_index, at_index.
  destruct (Z.ltb_spec row' 0).
  - case_decide; [lia|reflexivity].
  - case_decide as Heq.
    + subst. rewrite list_lookup_insert_eq by lia. reflexivity.
    + rewrite list_lookup_insert_ne by lia. reflexivity.
Qed.

(** What the lambda computing [sender_rank] returns and does to the
    wheels. *)
Lemma sender_rank_spec num_cols c row r wheels s wheels' :
  wheels_ok num_cols wheels ->
  sender_rank num_cols c row r wheels = Some (s, wheels') ->
  0 <= row < Z.of_nat (length wheels)
  /\ wheels_ok num_cols wheels'
  /\ length wheels' = length wheels
  /\ (row = r -> s = receiver_rank num_cols c r /\ wheels' = wheels)
  /\ (row <> r ->
        s = row * num_cols + wheel_index wheels row
        /\ 0 <= wheel_index wheels row < num_cols
        /\ forall row',
             wheel_index wheels' row' mod num_cols
             = (wheel_index wheels row'
                + (if decide (row' = row) then 1 else 0)) mod num_cols).
Proof.
  intros Hok H. unfold sender_rank in H.
  destruct (at_index wheels row) as [w|] eqn:Hw; [|discriminate].
  pose proof (proj1 (at_index_is_Some wheels row) ltac:(eauto)) as Hrow.
  split; [exact Hrow|].
  pose proof Hw as Hw'. apply at_index_Some in Hw' as [_ Hlk].
  pose proof (proj1 (Forall_lookup _ _) Hok _ _ Hlk) as [Hsz Hidx].
  destruct (spin_spec num_cols w Hsz Hidx) as (Hn & Hsz' & Hidx' & Hmod).
  destruct (Z.eqb_spec row r) as [Heq|Hne].
  - injection H as <- <-. split; [exact Hok|]. split; [reflexivity|].
    split; [auto|]. intros; contradiction.
  - destruct (spin w) as [n w'] eqn:Hspin. simpl in *. injection H as <- <-.
    split; [apply Forall_insert; [exact Hok|auto]|].
    split; [apply length_insert|]. split; [intros; contradiction|].
    intros _.
    assert (Hwi : wheel_index wheels row = current_index w)
      by (unfold wheel_index; rewrite Hw; reflexivity).
    rewrite Hwi. split; [congruence|]. split; [lia|].
    intros row'. rewrite wheel_index_insert by exact Hrow.
    case_decide as Heq.
    + subst row'. rewrite Hwi. exact Hmod.
    + rewrite Z.add_0_r. reflexivity.
Qed.

Lemma spins_nil row : spins row [] = 0.
Proof. reflexivity. Qed.

Lemma spins_cons row it its :
  spins row (it :: its)
  = (if decide (it_row it = row /\ it_receiver_row it <> row) then 1 else 0)
    + spins row its.
Proof.
  unfold spins. rewrite filter_cons. case_decide; simpl; lia.
Qed.

(** The assignment of pass [k]: the receiver is rank [r * num_cols + c];
    the sender is the receiver itself when the dependency is on its own
    row, and otherwise the member of the dependency's row at the index its
    wheel has reached. *)
Lemma assignments_senders num_cols its :
  0 < num_cols ->
  forall wheels asg,
    wheels_ok num_cols wheels ->
    assignments num_cols wheels its = Some asg ->
    forall (k : nat) it a,
      its !! k = Some it -> asg !! k = Some a ->
      limits a = it_limits it
      /\ receiver a = it_receiver_row it * num_cols + it_column it
      /\ 0 <= it_row it < Z.of_nat (length wheels)
      /\ (it_row it = it_receiver_row it -> sender a = receiver a)
      /\ (it_row it <> it_receiver_row it ->
            sender a
            = it_row it * num_cols
              + (wheel_index wheels (it_row it)
                 + spins (it_row it) (take k its)) mod num_cols).
Proof.
  intros Hnc. induction its as [|it0 its IH]; intros wheels asg Hok Hasg k it a Hk Ha;
    [destruct k; discriminate|].
  simpl in Hasg.
  destruct (sender_rank _ _ _ _ _) as [[s wheels']|] eqn:Hs; [|discriminate].
  destruct (assignments _ wheels' its) as [rest|] eqn:Hrest; [|discriminate].
  injection Hasg as <-.
  destruct (sender_rank_spec _ _ _ _ _ _ _ Hok Hs)
    as (Hrow0 & Hok' & Hlen' & Hsame & Hother).
  destruct k as [|k]; simpl in Hk, Ha.
  - injection Hk as <-. injection Ha as <-. simpl.
    split; [reflexivity|]. split; [reflexivity|]. split; [exact Hrow0|].
    split.
    + intros Heq. destruct (Hsame Heq) as [-> _]. reflexivity.
    + intros Hne. destruct (Hother Hne) as (-> & Hidx & _).
      rewrite spins_nil, Z.add_0_r. rewrite Z.mod_small by lia. reflexivity.
  - destruct (IH _ _ Hok' Hrest k it a Hk Ha) as (H1 & H2 & H3 & H4 & H5).
    split; [exact H1|]. split; [exact H2|].
    split; [rewrite <- Hlen'; exact H3|]. split; [exact H4|].
    intros Hne. rewrite (H5 Hne). f_equal. simpl take. rewrite spins_cons.
    destruct (decide (it_row it0 = it_receiver_row it0)) as [Heq0|Hne0].
    + destruct (Hsame Heq0) as [_ ->].
      case_decide as Hd; [|f_equal; lia].
      destruct Hd as [Hd1 Hd2]. congruence.
    + destruct (Hother Hne0) as (_ & _ & Hmod).
      rewrite Z.add_mod by lia. rewrite Hmod. rewrite <- Z.add_mod by lia.
      f_equal.
      destruct (decide (it_row it = it_row it0)) as [Heq|Hneq].
      * case_decide as Hd; [lia|]. exfalso. apply Hd. split; congruence.
      * case_decide as Hd; [|lia]. destruct Hd. congruence.
Qed.

Lemma wheels_ok_replicate num_cols n :
  0 < num_cols \/ n = 0%nat -> wheels_ok num_cols (replicate n (new_wheel num_cols)).
Proof.
  intros H. unfold wheels_ok.
  destruct H as [H| ->]; [|constructor].
  apply Forall_forall. intros w Hw.
  apply elem_of_replicate in Hw as [-> _]. simpl. lia.
Qed.

(** *** [dependencies_to_messages] as a run of passes *)

Lemma elem_of_iterations col_dependencies num_rows it :
  it ∈ iterations col_dependencies num_rows ->
  0 <= it_column it < Z.of_nat (length col_dependencies)
  /\ 0 <= it_receiver_row it < num_rows
  /\ exists deps,
       col_dependencies !! Z.to_nat (it_column it) = Some deps
       /\ (it_row it, it_limits it) ∈ deps.
Proof.
  unfold iterations. rewrite list_elem_of_In, in_flat_map.
  intros (c & Hc & Hit).
  apply list_elem_of_In, elem_of_seqZ in Hc.
  unfold column_iterations in Hit. apply in_flat_map in Hit as (dep & Hdep & Hit).
  unfold dependency_iterations in Hit.
  apply list_elem_of_In, list_elem_of_fmap in Hit as (r & -> & Hr).
  apply elem_of_seqZ in Hr. simpl.
  split; [lia|]. split; [lia|].
  destruct (at_index col_dependencies c) as [deps|] eqn:Hdeps;
    simpl in Hdep; [|contradiction].
  apply at_index_Some in Hdeps as [_ Hdeps].
  exists deps. split; [exact Hdeps|].
  apply list_elem_of_In. destruct dep. exact Hdep.
Qed.

(** Every column band, dependency of it and subgrid row gives a pass. *)
Lemma iterations_elem col_dependencies num_rows (c : nat) deps row lim r :
  col_dependencies !! c = Some deps ->
  (row, lim) ∈ deps ->
  0 <= r < num_rows ->
  mk_iteration (Z.of_nat c) row lim r ∈ iterations col_dependencies num_rows.
Proof.
  intros Hdeps Hin Hr. unfold iterations.
  apply list_elem_of_In, in_flat_map. exists (Z.of_nat c). split.
  - apply list_elem_of_In, elem_of_seqZ.
    pose proof (lookup_lt_Some _ _ _ Hdeps). lia.
  - unfold column_iterations.
    assert (at_index col_dependencies (Z.of_nat c) = Some deps) as ->.
    { apply at_index_Some. rewrite Nat2Z.id. split; [lia|exact Hdeps]. }
    simpl. apply in_flat_map. exists (row, lim).
    split; [apply list_elem_of_In; exact Hin|].
    unfold dependency_iterations. simpl.
    apply list_elem_of_In, list_elem_of_fmap. exists r.
    split; [reflexivity|]. apply elem_of_seqZ. lia.
Qed.

(** A run of in-range passes never aborts. *)
Lemma for_each_iteration_returns num_rows num_cols its :
  Forall (iteration_in_grid num_rows num_cols) its ->
  forall wheels msgs,
    wheels_ok num_cols wheels ->
    Z.of_nat (length wheels) = num_rows ->
    Z.of_nat (length msgs) = num_rows * num_cols ->
    is_Some (for_each (iteration_step num_cols)
               (mk_schedule_state wheels msgs) its).
Proof.
  induction its as [|it its IH]; intros Hall wheels msgs Hok Hw Hm; simpl;
    [eauto|].
  apply Forall_cons in Hall as [(Hc & Hrow & Hr) Hall'].
  unfold iteration_step at 1. unfold message_step. simpl.
  destruct (proj2 (at_index_is_Some wheels (it_row it)) ltac:(lia))
    as [w Hwl].
  destruct (sender_rank num_cols (it_column it) (it_row it)
              (it_receiver_row it) wheels) as [[s wheels']|] eqn:Hs.
  2:{ unfold sender_rank in Hs. rewrite Hwl in Hs.
      destruct (it_row it =? it_receiver_row it); [discriminate|].
      destruct (spin w). discriminate. }
  destruct (sender_rank_spec _ _ _ _ _ _ _ Hok Hs)
    as (_ & Hok' & Hlen' & Hsame & Hother).
  assert (Hrecv : 0 <= receiver_rank num_cols (it_column it)
                         (it_receiver_row it) < num_rows * num_cols)
    by (unfold receiver_rank; nia).
  assert (Hsend : 0 <= s < num_rows * num_cols).
  { destruct (decide (it_row it = it_receiver_row it)) as [Heq|Hne].
    - destruct (Hsame Heq) as [-> _]. exact Hrecv.
    - destruct (Hother Hne) as (-> & Hidx & _). nia. }
  destruct (push_message_returns msgs
              (receiver_rank num_cols (it_column it) (it_receiver_row it))
              (mk_message receive s (it_limits it)) ltac:(lia))
    as [msgs1 H1].
  rewrite H1.
  destruct (push_message_Some _ _ _ _ H1) as (_ & Hlen1 & _).
  destruct (push_message_returns msgs1 s
              (mk_message send
                 (receiver_rank num_cols (it_column it) (it_receiver_row it))
                 (it_limits it)) ltac:(lia))
    as [msgs2 H2].
  rewrite H2.
  destruct (push_message_Some _ _ _ _ H2) as (_ & Hlen2 & _).
  apply IH; [exact Hall'|exact Hok'|lia|lia].
Qed.

(** What a returned schedule is: the lists of the assignments made by the
    passes of the three loops, started with every wheel at 0. *)
Lemma dependencies_to_messages_Some col_dependencies rb cb msgs :
  dependencies_to_messages col_dependencies rb cb = Some msgs ->
  let num_rows := Z.of_nat (length rb) in
  let num_cols := Z.of_nat (length cb) in
  length col_dependencies = length cb
  /\ length msgs = (length rb * length cb)%nat
  /\ exists asg,
       assignments num_cols (replicate (length rb) (new_wheel num_cols))
         (iterations col_dependencies num_rows) = Some asg
       /\ forall q : nat, (q < length rb * length cb)%nat ->
            msgs !! q = Some (flat_map (assignment_messages q) asg).
Proof.
  intros H num_rows num_cols. unfold dependencies_to_messages in H.
  destruct (Nat.eqb_spec (length col_dependencies) (length cb)) as [Hlen|];
    simpl in H; [|discriminate].
  split; [exact Hlen|].
  rewrite nested_loops_iterations in H.
  destruct (for_each _ _ _) as [st'|] eqn:Hrun; [|discriminate].
  injection H as <-.
  destruct (for_each_assignments _ _ _ _ _ Hrun) as (asg & Hasg & Hlen' & Hlk).
  rewrite length_replicate in Hlen'. split; [exact Hlen'|].
  exists asg. split; [exact Hasg|].
  intros q Hq. rewrite Hlk. rewrite lookup_replicate_2 by exact Hq.
  reflexivity.
Qed.

(** [dependencies_to_messages] returns when there is one dependency map per
    column band and every key is a row band. *)
Lemma dependencies_to_messages_returns col_dependencies rb cb :
  length col_dependencies = length cb ->
  (forall (c : nat) deps r g,
     col_dependencies !! c = Some deps -> (r, g) ∈ deps ->
     0 <= r < Z.of_nat (length rb)) ->
  is_Some (dependencies_to_messages col_dependencies rb cb).
Proof.
  intros Hlen Hkeys. unfold dependencies_to_messages.
  replace (length col_dependencies =? length cb)%nat with true
    by (symmetry; apply Nat.eqb_eq; exact Hlen).
  simpl. rewrite nested_loops_iterations.
  destruct (length cb) as [|n] eqn:Hcb.
  { destruct col_dependencies; [|discriminate]. simpl. eauto. }
  rewrite <- Hcb.
  destruct (for_each_iteration_returns (Z.of_nat (length rb))
              (Z.of_nat (length cb))
              (iterations col_dependencies (Z.of_nat (length rb)))
              ltac:(apply Forall_forall; intros it Hit;
                    apply elem_of_iterations in Hit
                      as (Hc & Hr & deps & Hdeps & Hin);
                    split; [lia|]; split; [|exact Hr]; eapply Hkeys; eauto)
              (replicate (length rb) (new_wheel (Z.of_nat (length cb))))
              (replicate (length rb * length cb) (@nil message)))
    as [st' Hst'].
  - apply wheels_ok_replicate. left. lia.
  - rewrite length_replicate. reflexivity.
  - rewrite length_replicate. lia.
  - rewrite Hst'. simpl. eauto.
Qed.

Lemma wheel_index_replicate n w row :
  current_index w = 0 -> wheel_index (replicate n w) row = 0.
Proof.
  intros Hw. unfold wheel_index.
  destruct (at_index (replicate n w) row) as [w'|] eqn:Hlk; [|reflexivity].
  apply at_index_Some in Hlk as [_ Hlk].
  apply lookup_replicate in Hlk as [-> _]. exact Hw.
Qed.

(** C7.  Given one dependency map per column band whose keys are row
    bands, [dependencies_to_messages] returns, and the lists it returns
    are those of one assignment per pass (column band, dependency row,
    receiving rank), in loop order, each putting a receive on the receiver's
    list and a send on the sender's.  The receiver of a pass is rank
    [r * num_cols + c].  When the dependency row is the receiver's own row
    the sender is the receiver itself.  Otherwise the sender is
    [row * num_cols + w], where [0 <= w < num_cols] is the number of earlier
    passes that spun the wheel of [row], modulo [num_cols]: a counter per
    row that starts at 0, advances once per receiving rank served and wraps
    at the number of subgrid columns. *)
Theorem dependencies_to_messages_round_robin
    (col_dependencies : list rows_to_range) (row_boundaries column_boundaries : list Z) :
  length col_dependencies = length column_boundaries ->
  (forall (c : nat) deps row g,
     col_dependencies !! c = Some deps -> (row, g) ∈ deps ->
     0 <= row < Z.of_nat (length row_boundaries)) ->
  let num_rows := Z.of_nat (length row_boundaries) in
  let num_cols := Z.of_nat (length column_boundaries) in
  let its := iterations col_dependencies num_rows in
  exists msgs asg,
    dependencies_to_messages col_dependencies row_boundaries column_boundaries
    = Some msgs
    /\ length asg = length its
    /\ (forall q : nat, Z.of_nat q < num_rows * num_cols ->
          msgs !! q = Some (flat_map (assignment_messages q) asg))
    /\ forall (k : nat) it, its !! k = Some it ->
         exists a,
           asg !! k = Some a
           /\ limits a = it_limits it
           /\ receiver a = it_receiver_row it * num_cols + it_column it
           /\ (it_row it = it_receiver_row it -> sender a = receiver a)
           /\ (it_row it <> it_receiver_row it ->
                 let w := spins (it_row it) (take k its) mod num_cols in
                 0 <= w < num_cols
                 /\ 0 <= it_row it < num_rows
                 /\ sender a = it_row it * num_cols + w).
Proof.
  intros Hsizes Hkeys num_rows num_cols its.
  destruct (dependencies_to_messages_returns col_dependencies row_boundaries
              column_boundaries Hsizes Hkeys) as [msgs Hmsgs].
  destruct (dependencies_to_messages_Some _ _ _ _ Hmsgs)
    as (Hlen & Hmlen & asg & Hasg & Hlk).
  fold num_rows num_cols in Hasg. fold its in Hasg.
  pose proof (assignments_length _ _ _ _ Hasg) as Hlen_asg.
  exists msgs, asg. split; [exact Hmsgs|]. split; [exact Hlen_asg|]. split.
  { intros q Hq. apply Hlk. unfold num_rows, num_cols in Hq. nia. }
  intros k it Hk.
  destruct (lookup_lt_is_Some_2 asg k) as [a Ha].
  { rewrite Hlen_asg. eapply lookup_lt_Some; eauto. }
  assert (Hnc : 0 < num_cols).
  { apply list_elem_of_lookup_2, elem_of_iterations in Hk as (Hc & _).
    unfold num_cols. lia. }
  destruct (assignments_senders num_cols its Hnc _ _
              (wheels_ok_replicate num_cols (length row_boundaries)
                 (or_introl Hnc))
              Hasg k it a Hk Ha) as (H1 & H2 & H3 & H4 & H5).
  rewrite length_replicate in H3.
  exists a. split; [exact Ha|]. split; [exact H1|]. split; [exact H2|].
  split; [exact H4|]. intros Hne w.
  split; [apply Z.mod_pos_bound; exact Hnc|]. split; [exact H3|].
  rewrite (H5 Hne). rewrite wheel_index_replicate by reflexivity.
  rewrite Z.add_0_l. reflexivity.
Qed.

(** Senders and receivers of a returned schedule are ranks of the grid. *)
Lemma schedule_ranks_in_grid col_dependencies rb cb msgs asg :
  dependencies_to_messages col_dependencies rb cb = Some msgs ->
  assignments (Z.of_nat (length cb))
    (replicate (length rb) (new_wheel (Z.of_nat (length cb))))
    (iterations col_dependencies (Z.of_nat (length rb))) = Some asg ->
  forall a, a ∈ asg ->
    0 <= sender a < Z.of_nat (length rb * length cb)
    /\ 0 <= receiver a < Z.of_nat (length rb * length cb).
Proof.
  intros Hmsgs Hasg a Ha.
  destruct (dependencies_to_messages_Some _ _ _ _ Hmsgs)
    as (Hlen & _ & asg'' & Hasg'' & _).
  assert (asg'' = asg) as -> by congruence.
  apply list_elem_of_lookup in Ha as [k Ha].
  destruct (lookup_lt_is_Some_2
              (iterations col_dependencies (Z.of_nat (length rb))) k)
    as [it Hit].
  { rewrite <- (assignments_length _ _ _ _ Hasg). eapply lookup_lt_Some; eauto. }
  pose proof (list_elem_of_lookup_2 _ _ _ Hit) as Hin.
  apply elem_of_iterations in Hin as (Hc & Hr & _).
  assert (Hnc : 0 < Z.of_nat (length cb)) by lia.
  destruct (assignments_senders _ _ Hnc _ _
              (wheels_ok_replicate _ (length rb) (or_introl Hnc))
              Hasg k it a Hit Ha) as (_ & H2 & H3 & H4 & H5).
  rewrite length_replicate in H3.
  assert (Hrecv : 0 <= receiver a < Z.of_nat (length rb * length cb))
    by (rewrite H2; nia).
  split; [|exact Hrecv].
  destruct (decide (it_row it = it_receiver_row it)) as [Heq|Hne].
  - rewrite (H4 Heq). exact Hrecv.
  - rewrite (H5 Hne).
    pose proof (Z.mod_pos_bound
                  (wheel_index
                     (replicate (length rb) (new_wheel (Z.of_nat (length cb))))
                     (it_row it)
                   + spins (it_row it)
                       (take k (iterations col_dependencies
                                  (Z.of_nat (length rb)))))
                  (Z.of_nat (length cb)) Hnc).
    nia.
Qed.

(** ** Message symmetry *)

Lemma occurrences_app m l1 l2 :
  occurrences m (l1 ++ l2) = (occurrences m l1 + occurrences m l2)%nat.
Proof. unfold occurrences. rewrite filter_app, length_app. reflexivity. Qed.

Lemma occurrences_pos m l : m ∈ l -> (1 <= occurrences m l)%nat.
Proof.
  intros Hin. unfold occurrences.
  assert (m ∈ filter (fun m' => m' = m) l) as Hf
    by (apply list_elem_of_filter; auto).
  destruct (filter _ l); [inversion Hf|simpl; lia].
Qed.

Lemma filter_length_mono {A} (P Q : A -> Prop)
    `{!forall x, Decision (P x)} `{!forall x, Decision (Q x)} (l : list A) :
  (forall x, P x -> Q x) ->
  (length (filter P l) <= length (filter Q l))%nat.
Proof.
  intros HPQ. induction l as [|x l IH]; [reflexivity|].
  rewrite !filter_cons.
  destruct (decide (P x)) as [HP|HP]; destruct (decide (Q x)) as [HQ|HQ];
    simpl; try lia.
  exfalso. auto.
Qed.

(** At most one element of a list without duplicate keys has a given key. *)
Lemma filter_key_length {A B} `{EqDecision B} (f : A -> B) (l : list A) y :
  NoDup (f <$> l) -> (length (filter (fun x => f x = y) l) <= 1)%nat.
Proof.
  induction l as [|x l IH]; intros Hnd; [simpl; lia|].
  rewrite fmap_cons in Hnd. apply NoDup_cons in Hnd as [Hx Hnd].
  rewrite filter_cons. case_decide as Heq; [|auto].
  simpl. assert (filter (fun x => f x = y) l = []) as ->; [|simpl; lia].
  destruct (filter _ l) as [|x' l'] eqn:Hf; [reflexivity|exfalso].
  assert (x' ∈ filter (fun x => f x = y) l) as Hin by (rewrite Hf; left).
  apply list_elem_of_filter in Hin as [Hy Hin].
  apply Hx. rewrite Heq, <- Hy. apply list_elem_of_fmap. eauto.
Qed.

(** The sends to [t] with range [g] on the list of rank [s] are the
    assignments [(s, t, g)]; so are the receives from [s] on the list of
    [t]. *)
Lemma occurrences_send (s : nat) t g asg :
  occurrences (mk_message send t g) (flat_map (assignment_messages s) asg)
  = length (filter (fun a => a = mk_assignment (Z.of_nat s) t g) asg).
Proof.
  induction asg as [|a asg IH]; [reflexivity|].
  simpl. rewrite occurrences_app, IH, filter_cons.
  assert (occurrences (mk_message send t g) (assignment_messages s a)
          = if decide (a = mk_assignment (Z.of_nat s) t g) then 1%nat else 0%nat)
    as ->.
  { unfold assignment_messages, occurrences. destruct a as [sa ra la]. simpl.
    rewrite filter_app.
    destruct (decide (ra = Z.of_nat s)), (decide (sa = Z.of_nat s));
      simpl; rewrite ?filter_cons, ?filter_nil;
      repeat case_decide; simpl; try reflexivity; try congruence. }
  case_decide; simpl; reflexivity.
Qed.

Lemma occurrences_receive (t : nat) s g asg :
  occurrences (mk_message receive s g) (flat_map (assignment_messages t) asg)
  = length (filter (fun a => a = mk_assignment s (Z.of_nat t) g) asg).
Proof.
  induction asg as [|a asg IH]; [reflexivity|].
  simpl. rewrite occurrences_app, IH, filter_cons.
  assert (occurrences (mk_message receive s g) (assignment_messages t a)
          = if decide (a = mk_assignment s (Z.of_nat t) g) then 1%nat else 0%nat)
    as ->.
  { unfold assignment_messages, occurrences. destruct a as [sa ra la]. simpl.
    rewrite filter_app.
    destruct (decide (ra = Z.of_nat t)), (decide (sa = Z.of_nat t));
      simpl; rewrite ?filter_cons, ?filter_nil;
      repeat case_decide; simpl; try reflexivity; try congruence. }
  case_decide; simpl; reflexivity.
Qed.

(** A message on the list of rank [q] comes from an assignment. *)
Lemma elem_of_assignment_messages (q : nat) m asg :
  m ∈ flat_map (assignment_messages q) asg ->
  exists a, a ∈ asg
    /\ ((m = mk_message receive (sender a) (limits a)
         /\ receiver a = Z.of_nat q)
        \/ (m = mk_message send (receiver a) (limits a)
            /\ sender a = Z.of_nat q)).
Proof.
  rewrite list_elem_of_In, in_flat_map. intros (a & Ha & Hm).
  exists a. split; [apply list_elem_of_In; exact Ha|].
  apply list_elem_of_In in Hm. unfold assignment_messages in Hm.
  apply elem_of_app in Hm as [Hm|Hm]; case_decide; try (inversion Hm; fail).
  - apply list_elem_of_singleton in Hm. left. auto.
  - apply list_elem_of_singleton in Hm. right. auto.
Qed.

(** Symmetry of the lists of a set of assignments with distinct keys whose
    ranks are in range. *)
Lemma assignments_symmetric (n : nat) asg (msgs : list (list message)) :
  (forall q : nat, (q < n)%nat ->
     msgs !! q = Some (flat_map (assignment_messages q) asg)) ->
  (forall a, a ∈ asg ->
     0 <= sender a < Z.of_nat n /\ 0 <= receiver a < Z.of_nat n) ->
  NoDup (assignment_key <$> asg) ->
  forall (s : nat) list_s m,
    (s < n)%nat -> msgs !! s = Some list_s -> m ∈ list_s ->
    exists (t : nat) list_t,
      target m = Z.of_nat t
      /\ msgs !! t = Some list_t
      /\ occurrences m list_s = 1%nat
      /\ occurrences (partner s m) list_t = 1%nat.
Proof.
  intros Hlists Hrange Hkeys s list_s m Hs Hls Hm.
  rewrite Hlists in Hls by exact Hs. injection Hls as <-.
  assert (Hone : forall a0,
            (length (filter (fun a => a = a0) asg) <= 1)%nat).
  { intros a0.
    etransitivity; [|apply (filter_key_length assignment_key asg
                              (assignment_key a0) Hkeys)].
    apply filter_length_mono. intros a ->. reflexivity. }
  pose proof (occurrences_pos _ _ Hm) as Hpos.
  destruct (elem_of_assignment_messages _ _ _ Hm)
    as (a & Ha & [[-> Hq]|[-> Hq]]);
    destruct (Hrange a Ha) as [Hsend Hrecv].
  - (* a receive on the list of [s = receiver a] *)
    exists (Z.to_nat (sender a)). eexists.
    split; [simpl; lia|]. split; [apply Hlists; lia|].
    rewrite occurrences_receive in Hpos |- *.
    unfold partner. simpl. rewrite occurrences_send.
    rewrite Z2Nat.id by lia.
    pose proof (Hone (mk_assignment (sender a) (Z.of_nat s) (limits a))).
    split; lia.
  - (* a send on the list of [s = sender a] *)
    exists (Z.to_nat (receiver a)). eexists.
    split; [simpl; lia|]. split; [apply Hlists; lia|].
    rewrite occurrences_send in Hpos |- *.
    unfold partner. simpl. rewrite occurrences_receive.
    rewrite Z2Nat.id by lia.
    pose proof (Hone (mk_assignment (Z.of_nat s) (receiver a) (limits a))).
    split; lia.
Qed.

(** *** Distinct keys *)

Lemma NoDup_flat_map {A B} (f : A -> list B) (l : list A) :
  (forall x1 x2 y, x1 ∈ l -> x2 ∈ l -> y ∈ f x1 -> y ∈ f x2 -> x1 = x2) ->
  (forall x, x ∈ l -> NoDup (f x)) ->
  NoDup l -> NoDup (flat_map f l).
Proof.
  intros Hinj Hf Hnd. induction Hnd as [|x l Hx Hnd IH]; simpl; [constructor|].
  apply NoDup_app. split; [|split].
  - apply Hf. left.
  - intros y Hy1 Hy2. apply list_elem_of_In, in_flat_map in Hy2 as (x' & Hx' & Hy2).
    apply list_elem_of_In in Hx', Hy2.
    assert (x = x') as <-; [|contradiction].
    apply (Hinj x x' y); [left|right; exact Hx'|exact Hy1|exact Hy2].
  - apply IH.
    + intros x1 x2 y H1 H2. apply Hinj; right; assumption.
    + intros x' Hx'. apply Hf. right. exact Hx'.
Qed.

Lemma NoDup_fmap_elem_inj {A B} (f : A -> B) (l : list A) x y :
  NoDup (f <$> l) -> x ∈ l -> y ∈ l -> f x = f y -> x = y.
Proof.
  induction l as [|z l IH]; intros Hnd Hx Hy Heq; [inversion Hx|].
  rewrite fmap_cons in Hnd. apply NoDup_cons in Hnd as [Hz Hnd].
  apply elem_of_cons in Hx as [->|Hx]; apply elem_of_cons in Hy as [->|Hy].
  - reflexivity.
  - exfalso. apply Hz. rewrite Heq. apply list_elem_of_fmap. eauto.
  - exfalso. apply Hz. rewrite <- Heq. apply list_elem_of_fmap. eauto.
  - auto.
Qed.

Lemma assignments_keys num_cols its :
  forall wheels asg,
    assignments num_cols wheels its = Some asg ->
    assignment_key <$> asg = iteration_key num_cols <$> its.
Proof.
  induction its as [|it its IH]; intros wheels asg H; simpl in *.
  - injection H as <-. reflexivity.
  - destruct (sender_rank _ _ _ _ _) as [[s wheels']|]; [|discriminate].
    destruct (assignments _ _ _) as [rest|] eqn:Hrest; [|discriminate].
    injection H as <-. rewrite !fmap_cons. f_equal. eapply IH; eauto.
Qed.

Lemma elem_of_dependency_iterations num_rows c dep it :
  it ∈ dependency_iterations num_rows c dep ->
  it_column it = c /\ (it_row it, it_limits it) = dep
  /\ 0 <= it_receiver_row it < num_rows.
Proof.
  unfold dependency_iterations. intros (r & -> & Hr)%list_elem_of_fmap.
  apply elem_of_seqZ in Hr. simpl. destruct dep. split; [|split]; auto; lia.
Qed.

Lemma elem_of_column_iterations col_dependencies num_rows c it :
  it ∈ column_iterations col_dependencies num_rows c ->
  it_column it = c.
Proof.
  unfold column_iterations.
  intros (dep & _ & Hit)%list_elem_of_In%in_flat_map.
  apply list_elem_of_In, elem_of_dependency_iterations in Hit. tauto.
Qed.

(** No two passes are the same. *)
Lemma iterations_NoDup col_dependencies num_rows :
  (forall (c : nat) deps,
     col_dependencies !! c = Some deps -> distinct_ranges deps) ->
  NoDup (iterations col_dependencies num_rows).
Proof.
  intros Hdist. unfold iterations. apply NoDup_flat_map.
  - intros c1 c2 it _ _ H1 H2.
    apply elem_of_column_iterations in H1, H2. congruence.
  - intros c Hc. unfold column_iterations.
    destruct (at_index col_dependencies c) as [deps|] eqn:Hdeps; simpl;
      [|constructor].
    apply at_index_Some in Hdeps as [_ Hdeps].
    apply NoDup_flat_map.
    + intros d1 d2 it _ _ H1 H2.
      apply elem_of_dependency_iterations in H1, H2.
      destruct H1 as (_ & <- & _). destruct H2 as (_ & <- & _). reflexivity.
    + intros dep _. unfold dependency_iterations.
      apply NoDup_fmap_2_strong; [|apply NoDup_seqZ].
      intros r1 r2 _ _ [=]. assumption.
    + eapply NoDup_fmap_1. apply (Hdist _ _ Hdeps).
  - apply NoDup_seqZ.
Qed.

(** A rank determines its subgrid row and column. *)
Lemma rank_row_col_unique num_cols r1 c1 r2 c2 :
  0 <= c1 < num_cols -> 0 <= c2 < num_cols ->
  r1 * num_cols + c1 = r2 * num_cols + c2 -> c1 = c2 /\ r1 = r2.
Proof.
  intros H1 H2 Heq.
  destruct (Z.lt_trichotomy r1 r2) as [Hlt|[->|Hgt]]; [nia|lia|nia].
Qed.

(** No two passes serve the same receiver with the same range. *)
Lemma iterations_keys_NoDup col_dependencies num_rows num_cols :
  num_cols = Z.of_nat (length col_dependencies) ->
  (forall (c : nat) deps,
     col_dependencies !! c = Some deps -> distinct_ranges deps) ->
  NoDup (iteration_key num_cols <$> iterations col_dependencies num_rows).
Proof.
  intros Hnc Hdist. apply NoDup_fmap_2_strong;
    [|apply iterations_NoDup; exact Hdist].
  intros it1 it2 H1 H2 Hkey.
  apply elem_of_iterations in H1 as (Hc1 & Hr1 & deps1 & Hd1 & Hin1).
  apply elem_of_iterations in H2 as (Hc2 & Hr2 & deps2 & Hd2 & Hin2).
  unfold iteration_key, receiver_rank in Hkey. injection Hkey as Hrank Hlim.
  assert (it_column it1 = it_column it2 /\ it_receiver_row it1 = it_receiver_row it2)
    as [Hc Hr]
    by (apply (rank_row_col_unique num_cols); [lia|lia|exact Hrank]).
  rewrite Hc in Hd1. rewrite Hd1 in Hd2. injection Hd2 as <-.
  assert ((it_row it1, it_limits it1) = (it_row it2, it_limits it2)) as Hdep.
  { eapply (NoDup_fmap_elem_inj snd); [apply (Hdist _ _ Hd1)| | |]; eauto. }
  injection Hdep as Hrow _.
  destruct it1, it2. simpl in *. congruence.
Qed.

(** *** Ranges of the dependencies of a column *)

Lemma column_rows_distinct cs ce rows :
  cs <= ce ->
  forall r0 rs0 deps,
    increasing_from rs0 rows = true ->
    Forall (fun kv => fst kv < r0) deps ->
    Forall (fun kv => stop (snd kv) < rs0) deps ->
    distinct_ranges deps ->
    distinct_ranges (column_rows cs ce r0 rs0 rows deps).
Proof.
  intros Hc. induction rows as [|row_end rows IH];
    intros r0 rs0 deps Hinc Hkeys Hstops Hnd; simpl; [exact Hnd|].
  simpl in Hinc. apply andb_prop in Hinc as [Hle Hinc]. apply Z.leb_le in Hle.
  apply IH; [exact Hinc| | |].
  - destruct (_ || _).
    + rewrite rows_emplace_append by exact Hkeys. apply Forall_app. split.
      * forall_weaken Hkeys.
      * constructor; [simpl; lia|constructor].
    + forall_weaken Hkeys.
  - destruct (_ || _).
    + rewrite rows_emplace_append by exact Hkeys. apply Forall_app. split.
      * forall_weaken Hstops.
      * constructor; [simpl; lia|constructor].
    + forall_weaken Hstops.
  - destruct (_ || _) eqn:Htest; [|exact Hnd].
    rewrite rows_emplace_append by exact Hkeys.
    unfold distinct_ranges. rewrite fmap_app. apply NoDup_app.
    split; [exact Hnd|]. split; [|apply NoDup_singleton].
    intros g Hg Hg'. simpl in Hg'. apply list_elem_of_singleton in Hg'. subst g.
    apply list_elem_of_fmap in Hg as ([k g] & Heq & Hin). simpl in Heq.
    rewrite Forall_forall in Hstops. specialize (Hstops _ Hin). simpl in Hstops.
    rewrite <- Heq in Hstops. simpl in Hstops.
    apply dependency_test_intersects in Htest; [|lia|lia].
    destruct Htest as (x & Hx1 & Hx2). simpl in *. lia.
Qed.

Lemma find_column_dependencies_distinct rb cb (c : nat) deps :
  sorted_stops rb -> sorted_stops cb ->
  find_column_dependencies rb cb !! c = Some deps ->
  distinct_ranges deps.
Proof.
  intros Hrb Hcb Hdeps.
  destruct (lookup_lt_is_Some_2 (bands_from 0 cb) c) as [[cs ce] Hband].
  { rewrite bands_from_length, <- (find_column_dependencies_length rb cb).
    eapply lookup_lt_Some; eauto. }
  unfold find_column_dependencies in Hdeps.
  rewrite (find_column_dependencies_from_lookup _ _ _ _ _ _ Hband) in Hdeps.
  injection Hdeps as <-.
  pose proof (bands_from_nonempty _ _ _ _ _ Hcb Hband).
  apply column_rows_distinct; try constructor; [lia|exact Hrb].
Qed.

(** ** The schedule of a distribution plan *)

Lemma mapM_fmap_ext {A B} (f : A -> option B) (g : A -> B) (l : list A) :
  (forall x, x ∈ l -> f x = Some (g x)) -> mapM f l = Some (g <$> l).
Proof.
  intros Hf. apply mapM_Some_2.
  induction l as [|x l IH]; [constructor|].
  rewrite fmap_cons. constructor; [apply Hf; left|].
  apply IH. intros y Hy. apply Hf. right. exact Hy.
Qed.

Lemma band_stops_length n k : 0 <= k -> Z.of_nat (length (band_stops n k)) = k.
Proof.
  intros Hk. unfold band_stops. rewrite length_fmap, length_seqZ. lia.
Qed.

(** The stop indices of an even split into at most [n] bands are sorted:
    every band holds an index. *)
Lemma band_stops_sorted n k :
  0 < k <= n -> sorted_stops (band_stops n k).
Proof.
  intros Hk. unfold sorted_stops, band_stops.
  assert (Hdiv : 1 <= n / k)
    by (apply Z.div_le_lower_bound; lia).
  assert (Hgen : forall (len : nat) j,
            increasing_from (band_begin n k j)
              ((fun b => band_begin n k (b + 1) - 1)
                 <$> seqZ j (Z.of_nat len)) = true).
  { induction len as [|len IH]; intros j.
    - rewrite seqZ_nil by lia. reflexivity.
    - rewrite seqZ_cons by lia. rewrite fmap_cons. simpl increasing_from.
      apply andb_true_intro. split.
      + apply Z.leb_le. rewrite band_begin_succ.
        destruct (j <? n mod k); lia.
      + replace (band_begin n k (j + 1) - 1 + 1) with (band_begin n k (j + 1))
          by lia.
        replace (Z.pred (Z.of_nat (S len))) with (Z.of_nat len) by lia.
        replace (Z.succ j) with (j + 1) by lia. apply IH. }
  specialize (Hgen (Z.to_nat k) 0). rewrite Z2Nat.id in Hgen by lia.
  assert (band_begin n k 0 = 0) as Hb0.
  { pose proof (Z.mod_pos_bound n k ltac:(lia)). unfold band_begin. lia. }
  rewrite Hb0 in Hgen. exact Hgen.
Qed.

(** Band [b] of an even split, read off its stop indices. *)
Lemma band_stops_lookup n k (b : nat) :
  0 < k -> Z.of_nat b < k ->
  bands_from 0 (band_stops n k) !! b
  = Some (band_begin n k (Z.of_nat b), band_begin n k (Z.of_nat b + 1) - 1).
Proof.
  intros Hk Hb. unfold band_stops.
  assert (Hgen : forall (len : nat) j (i : nat),
            (i < len)%nat ->
            bands_from (band_begin n k j)
              ((fun b => band_begin n k (b + 1) - 1) <$> seqZ j (Z.of_nat len))
              !! i
            = Some (band_begin n k (j + Z.of_nat i),
                    band_begin n k (j + Z.of_nat i + 1) - 1)).
  { induction len as [|len IH]; intros j i Hi; [lia|].
    rewrite seqZ_cons by lia. rewrite fmap_cons. simpl bands_from.
    destruct i as [|i]; simpl.
    - rewrite Z.add_0_r. reflexivity.
    - replace (band_begin n k (j + 1) - 1 + 1) with (band_begin n k (j + 1))
        by lia.
      replace (Z.pred (Z.of_nat (S len))) with (Z.of_nat len) by lia.
      replace (Z.succ j) with (j + 1) by lia.
      rewrite IH by lia.
      replace (j + 1 + Z.of_nat i) with (j + Z.of_nat (S i)) by lia.
      reflexivity. }
  specialize (Hgen (Z.to_nat k) 0 b ltac:(lia)).
  rewrite Z2Nat.id in Hgen by lia.
  assert (band_begin n k 0 = 0) as Hb0.
  { pose proof (Z.mod_pos_bound n k ltac:(lia)). unfold band_begin. lia. }
  rewrite Hb0 in Hgen. exact Hgen.
Qed.

Section ScheduleOfPlan.

Variable get_num_subgrid_cols : Z -> Z.
Hypothesis cols_ok : cols_divide get_num_subgrid_cols.

(** On a plan of [get_plan], [generate_messages] reads the stop indices of
    the even row and column splits and hands them on. *)
Lemma generate_messages_of_plan num_ranks table plan :
  get_plan get_num_subgrid_cols num_ranks table = Some plan ->
  let N := table_size table in
  let splits := num_effective_ranks num_ranks in
  let cols := get_num_subgrid_cols splits in
  let rows := splits / cols in
  let rb := band_stops N rows in
  let cb := band_stops N cols in
  generate_messages get_num_subgrid_cols plan
  = dependencies_to_messages (find_column_dependencies rb cb) rb cb
  /\ sorted_stops rb /\ sorted_stops cb
  /\ Z.of_nat (length rb) = rows /\ Z.of_nat (length cb) = cols
  /\ Z.of_nat (size plan) = rows * cols.
Proof.
  intros Hplan N splits cols rows rb cb.
  destruct (get_plan_keys _ cols_ok _ _ _ Hplan) as [Hr Hkeys]. fold splits in Hkeys.
  pose proof (num_effective_ranks_bounds num_ranks ltac:(lia)) as Hs.
  fold splits in Hs.
  destruct (cols_ok splits ltac:(lia)) as [Hc Hrem]. fold cols in Hc, Hrem.
  destruct (subgrid_rows_positive _ cols_ok splits ltac:(lia)) as [Hrows Hfac].
  fold cols in Hrows, Hfac. fold rows in Hrows, Hfac.
  assert (Hsize : Z.of_nat (size plan) = splits).
  { rewrite (plan_size_keys plan splits); [lia|lia|].
    intros i. rewrite Hkeys. case_decide as Hin.
    - split; [intros _; exact Hin|intros _].
      apply get_subgrid_returns; try lia; try exact cols_ok.
      apply num_effective_ranks_admissible. lia.
    - split; [intros [? ?]; discriminate|intros; contradiction]. }
  assert (Hlk : forall i, 0 <= i < splits ->
            exists g, plan !! i = Some g
              /\ row_stop g = band_begin N rows (i / cols + 1) - 1
              /\ col_stop g = band_begin N cols (i mod cols + 1) - 1).
  { intros i Hi.
    destruct (get_subgrid_returns get_num_subgrid_cols cols_ok splits i table)
      as [g Hg]; try lia.
    { apply num_effective_ranks_admissible. lia. }
    exists g. split; [rewrite Hkeys; case_decide; [exact Hg|lia]|].
    destruct (get_subgrid_bands _ cols_ok _ _ _ _ Hg) as (_ & H2 & _ & H4).
    split; [exact H2|exact H4]. }
  split; [|split; [|split; [|split; [|split]]]].
  - unfold generate_messages. rewrite Hsize. fold cols.
    assert ((cols <=? 0) = false) as -> by lia.
    rewrite Hrem. simpl.
    rewrite (Z.quot_div_nonneg splits cols) by lia. fold rows.
    rewrite (mapM_fmap_ext _ (fun b => band_begin N rows (b + 1) - 1)).
    2:{ intros i Hi. apply elem_of_seqZ in Hi.
        destruct (Hlk (i * cols) ltac:(nia)) as (g & -> & Hstop & _).
        simpl. rewrite Hstop. rewrite Z.div_mul by lia. reflexivity. }
    rewrite (mapM_fmap_ext _ (fun b => band_begin N cols (b + 1) - 1)).
    2:{ intros i Hi. apply elem_of_seqZ in Hi.
        destruct (Hlk i ltac:(nia)) as (g & -> & _ & Hstop).
        simpl. rewrite Hstop. rewrite Z.mod_small by lia. reflexivity. }
    reflexivity.
  - apply band_stops_sorted. unfold N. nia.
  - apply band_stops_sorted. unfold N. nia.
  - apply band_stops_length. lia.
  - apply band_stops_length. lia.
  - lia.
Qed.

(** The schedule of a plan of [get_plan]: it is returned, has one list
    per rank, and its lists are those of assignments between ranks of the
    plan, no two of which serve the same receiver with the same range. *)
Lemma generate_messages_assignments num_ranks table :
  0 < num_ranks < table_size table ->
  exists plan msgs asg,
    get_plan get_num_subgrid_cols num_ranks table = Some plan
    /\ generate_messages get_num_subgrid_cols plan = Some msgs
    /\ length msgs = size plan
    /\ (forall q : nat, (q < size plan)%nat ->
          msgs !! q = Some (flat_map (assignment_messages q) asg))
    /\ (forall a, a ∈ asg ->
          0 <= sender a < Z.of_nat (size plan)
          /\ 0 <= receiver a < Z.of_nat (size plan))
    /\ NoDup (assignment_key <$> asg)
    /\ let rb := band_stops (table_size table)
                   (num_effective_ranks num_ranks
                    / get_num_subgrid_cols (num_effective_ranks num_ranks)) in
       let cb := band_stops (table_size table)
                   (get_num_subgrid_cols (num_effective_ranks num_ranks)) in
       assignments (Z.of_nat (length cb))
         (replicate (length rb) (new_wheel (Z.of_nat (length cb))))
         (iterations (find_column_dependencies rb cb) (Z.of_nat (length rb)))
       = Some asg.
Proof.
  intros Hr.
  destruct (get_plan_returns get_num_subgrid_cols cols_ok num_ranks table Hr)
    as (plan & Hplan & _).
  destruct (generate_messages_of_plan _ _ _ Hplan)
    as (Hgen & Hrb & Hcb & Hlrb & Hlcb & Hsize).
  set (rb := band_stops (table_size table)
               (num_effective_ranks num_ranks
                / get_num_subgrid_cols (num_effective_ranks num_ranks))) in *.
  set (cb := band_stops (table_size table)
               (get_num_subgrid_cols (num_effective_ranks num_ranks))) in *.
  destruct (dependencies_to_messages_returns
              (find_column_dependencies rb cb) rb cb) as [msgs Hmsgs].
  { apply find_column_dependencies_length. }
  { intros c deps r g. apply find_column_dependencies_keys. }
  destruct (dependencies_to_messages_Some _ _ _ _ Hmsgs)
    as (Hlen & Hmlen & asg & Hasg & Hlists).
  assert (Hn : size plan = (length rb * length cb)%nat) by nia.
  exists plan, msgs, asg.
  split; [exact Hplan|]. split; [congruence|]. split; [congruence|].
  split; [intros q Hq; apply Hlists; lia|]. split; [|split].
  - rewrite Hn. apply (schedule_ranks_in_grid _ _ _ _ _ Hmsgs Hasg).
  - rewrite (assignments_keys _ _ _ _ Hasg).
    apply iterations_keys_NoDup.
    + rewrite find_column_dependencies_length. reflexivity.
    + intros c deps. apply find_column_dependencies_distinct; assumption.
  - exact Hasg.
Qed.

(** The part of a rank's rows that lies in its own columns is assigned to
    the rank itself. *)
Lemma own_overlap_assignment num_ranks table plan asg (q : nat) g :
  get_plan get_num_subgrid_cols num_ranks table = Some plan ->
  (let rb := band_stops (table_size table)
               (num_effective_ranks num_ranks
                / get_num_subgrid_cols (num_effective_ranks num_ranks)) in
   let cb := band_stops (table_size table)
               (get_num_subgrid_cols (num_effective_ranks num_ranks)) in
   assignments (Z.of_nat (length cb))
     (replicate (length rb) (new_wheel (Z.of_nat (length cb))))
     (iterations (find_column_dependencies rb cb) (Z.of_nat (length rb)))
   = Some asg) ->
  plan !! Z.of_nat q = Some g ->
  Z.max (row_start g) (col_start g) <= Z.min (row_stop g) (col_stop g) ->
  mk_assignment (Z.of_nat q) (Z.of_nat q)
    (mk_grid_limits (Z.max (row_start g) (col_start g))
                    (Z.min (row_stop g) (col_stop g))) ∈ asg.
Proof.
  intros Hplan Hasg Hg Hne.
  destruct (generate_messages_of_plan _ _ _ Hplan)
    as (_ & Hrb & Hcb & Hlrb & Hlcb & _).
  destruct (get_plan_keys _ cols_ok _ _ _ Hplan) as [Hr Hkeys].
  set (splits := num_effective_ranks num_ranks) in *.
  set (cols := get_num_subgrid_cols splits) in *.
  set (rows := splits / cols) in *.
  set (rb := band_stops (table_size table) rows) in *.
  set (cb := band_stops (table_size table) cols) in *.
  simpl in Hasg.
  pose proof (num_effective_ranks_bounds num_ranks ltac:(lia)) as Hs.
  fold splits in Hs.
  rewrite Hkeys in Hg. case_decide as Hq; [|discriminate].
  destruct (rank_of_bands _ cols_ok splits (Z.of_nat q) ltac:(lia) Hq)
    as (Hbr & Hbc & Hdec).
  fold cols in Hbr, Hbc, Hdec. fold rows in Hbr.
  destruct (get_subgrid_bands _ cols_ok _ _ _ _ Hg) as (H1 & H2 & H3 & H4).
  fold cols in H1, H2, H3, H4. fold rows in H1, H2.
  set (r := Z.of_nat q / cols) in *. set (c := Z.of_nat q mod cols) in *.
  assert (Hrow_band : bands_from 0 rb !! Z.to_nat r
                      = Some (row_start g, row_stop g)).
  { unfold rb. rewrite band_stops_lookup by lia.
    rewrite Z2Nat.id by lia. rewrite H1, H2. reflexivity. }
  assert (Hcol_band : bands_from 0 cb !! Z.to_nat c
                      = Some (col_start g, col_stop g)).
  { unfold cb. rewrite band_stops_lookup by lia.
    rewrite Z2Nat.id by lia. rewrite H3, H4. reflexivity. }
  pose proof (bands_from_nonempty _ _ _ _ _ Hrb Hrow_band) as Hrne.
  pose proof (bands_from_nonempty _ _ _ _ _ Hcb Hcol_band) as Hcne.
  destruct (column_dependency_present rb cb (Z.to_nat c) (Z.to_nat r)
              _ _ _ _ Hcol_band Hrow_band ltac:(lia) ltac:(lia))
    as (deps & Hdeps & Hdep).
  { exists (Z.max (row_start g) (col_start g)). simpl. lia. }
  rewrite Z2Nat.id in Hdep by lia. unfold overlap in Hdep. simpl in Hdep.
  set (lim := mk_grid_limits (Z.max (row_start g) (col_start g))
                             (Z.min (row_stop g) (col_stop g))) in *.
  apply rows_lookup_elem in Hdep.
  pose proof (iterations_elem _ (Z.of_nat (length rb)) _ _ _ _ r
                Hdeps Hdep ltac:(lia)) as Hit.
  rewrite Z2Nat.id in Hit by lia.
  apply list_elem_of_lookup in Hit as [k Hk].
  destruct (lookup_lt_is_Some_2 asg k) as [a Ha].
  { rewrite (assignments_length _ _ _ _ Hasg). eapply lookup_lt_Some; eauto. }
  assert (Hnc : 0 < Z.of_nat (length cb)) by lia.
  destruct (assignments_senders _ _ Hnc _ _
              (wheels_ok_replicate _ (length rb) (or_introl Hnc))
              Hasg k _ a Hk Ha) as (E1 & E2 & _ & E3 & _).
  simpl in E1, E2, E3. specialize (E3 eq_refl).
  apply list_elem_of_lookup. exists k. rewrite Ha. f_equal.
  destruct a as [sa ra la]. simpl in *. subst la.
  assert (ra = Z.of_nat q) as -> by (rewrite E2, Hlcb; lia).
  rewrite E3. reflexivity.
Qed.

(** C2.  In the lists [generate_messages] returns for a plan of
    [get_plan]: every message [m] on the list of a rank [s] names a rank
    [t] of the plan, occurs once on that list, and its partner (the opposite
    direction, naming [s], same range) occurs exactly once on the list of
    [t].  For a send this is the one matching receive on the target, for a
    receive the one matching send on the named peer.  A message that names
    its own rank has its partner on the same list: a same-rank pair.  And
    the range a rank owns itself (the indices of its row band that lie in
    its column band) is such a pair, a receive and a send naming the rank on
    its own list. *)
Theorem generate_messages_symmetric (num_ranks : Z) (table : element_table) :
  0 < num_ranks < table_size table ->
  exists plan msgs,
    get_plan get_num_subgrid_cols num_ranks table = Some plan
    /\ generate_messages get_num_subgrid_cols plan = Some msgs
    /\ length msgs = size plan
    /\ (forall (s : nat) list_s m,
          msgs !! s = Some list_s -> m ∈ list_s ->
          exists (t : nat) list_t,
            target m = Z.of_nat t
            /\ msgs !! t = Some list_t
            /\ occurrences m list_s = 1%nat
            /\ occurrences (partner s m) list_t = 1%nat)
    /\ (forall (q : nat) list_q m,
          msgs !! q = Some list_q -> m ∈ list_q -> target m = Z.of_nat q ->
          partner q m ∈ list_q)
    /\ (forall (q : nat) g,
          plan !! Z.of_nat q = Some g ->
          let own := mk_grid_limits (Z.max (row_start g) (col_start g))
                                    (Z.min (row_stop g) (col_stop g)) in
          start own <= stop own ->
          exists list_q,
            msgs !! q = Some list_q
            /\ mk_message receive (Z.of_nat q) own ∈ list_q
            /\ mk_message send (Z.of_nat q) own ∈ list_q).
Proof.
  intros Hr.
  destruct (generate_messages_assignments num_ranks table Hr)
    as (plan & msgs & asg & Hplan & Hmsgs & Hlen & Hlists & Hrange & Hkeys
        & Hasg).
  exists plan, msgs. split; [exact Hplan|]. split; [exact Hmsgs|].
  split; [exact Hlen|].
  assert (Hsym : forall (s : nat) list_s m,
            msgs !! s = Some list_s -> m ∈ list_s ->
            exists (t : nat) list_t,
              target m = Z.of_nat t
              /\ msgs !! t = Some list_t
              /\ occurrences m list_s = 1%nat
              /\ occurrences (partner s m) list_t = 1%nat).
  { intros s list_s m Hls Hm.
    apply (assignments_symmetric (size plan) asg msgs Hlists Hrange Hkeys
             s list_s m); [|exact Hls|exact Hm].
    rewrite <- Hlen. eapply lookup_lt_Some; eauto. }
  split; [exact Hsym|]. split.
  - intros q list_q m Hlq Hm Htarget.
    destruct (Hsym q list_q m Hlq Hm) as (t & list_t & Ht & Hlt & _ & Hocc).
    assert (t = q) as -> by lia.
    assert (list_t = list_q) as -> by congruence.
    unfold occurrences in Hocc.
    destruct (filter _ list_q) as [|m' l'] eqn:Hf; [discriminate|].
    assert (m' ∈ filter (fun m' => m' = partner q m) list_q) as Hin
      by (rewrite Hf; left).
    apply list_elem_of_filter in Hin as [-> Hin]. exact Hin.
  - intros q g Hg own Hown.
    pose proof (own_overlap_assignment _ _ _ _ _ _ Hplan Hasg Hg Hown) as Ha.
    assert (Hq : (q < size plan)%nat).
    { destruct (Hrange _ Ha) as [Hs _]. simpl in Hs. lia. }
    eexists. split; [apply Hlists; exact Hq|].
    split; apply list_elem_of_In, in_flat_map; eexists;
      (split; [apply list_elem_of_In; exact Ha|]);
      unfold assignment_messages; simpl;
      rewrite !decide_True by reflexivity; simpl; auto.
Qed.

End ScheduleOfPlan.

(** ** Replay of a schedule *)

Lemma lists_of_lookup n ops (q : nat) :
  lists_of n ops !! q
  = if decide (q < n)%nat then Some (flat_map (operation_messages q) ops)
    else None.
Proof.
  unfold lists_of. rewrite list_lookup_fmap. case_decide as Hq.
  - rewrite lookup_seq_lt by exact Hq. reflexivity.
  - rewrite lookup_seq_ge by lia. reflexivity.
Qed.

Lemma lists_of_length n ops : length (lists_of n ops) = n.
Proof. unfold lists_of. rewrite length_fmap, length_seq. reflexivity. Qed.

(** The head of a rank's list comes from the first operation that touches
    the rank. *)
Lemma first_operation n (q : nat) ops m rest :
  Forall (operation_ok n) ops ->
  flat_map (operation_messages q) ops = m :: rest ->
  exists pre o post,
    ops = pre ++ o :: post
    /\ Forall (fun o' => operation_messages q o' = []) pre
    /\ operation_messages q o = [m]
    /\ rest = flat_map (operation_messages q) post.
Proof.
  intros Hok. revert m rest.
  induction ops as [|o ops IH]; intros m rest; simpl; [discriminate|].
  apply Forall_cons in Hok as [Ho Hok]. intros Hflat.
  destruct (operation_messages q o) as [|m' l'] eqn:Hom.
  - destruct (IH Hok _ _ Hflat) as (pre & o' & post & -> & Hpre & Ho' & Hrest).
    exists (o :: pre), o', post. split; [reflexivity|].
    split; [constructor; assumption|]. split; assumption.
  - assert (l' = []) as ->.
    { destruct o as [q' m0|s t g]; simpl in Hom.
      - case_decide; [|discriminate]. injection Hom as _ <-. reflexivity.
      - destruct Ho as (Hne & _ & _).
        destruct (decide (s = q)), (decide (t = q)); simpl in Hom;
          try discriminate; try congruence; injection Hom as _ <-;
          reflexivity. }
    simpl in Hflat. injection Hflat as <- <-.
    exists [], o, ops. split; [reflexivity|]. split; [constructor|].
    split; [exact Hom|reflexivity].
Qed.

Lemma flat_map_untouched (q : nat) pre :
  Forall (fun o' => operation_messages q o' = []) pre ->
  flat_map (operation_messages q) pre = [].
Proof.
  induction 1 as [|o pre Ho _ IH]; simpl; [reflexivity|].
  rewrite Ho, IH. reflexivity.
Qed.

(** The first operation touching [q] is where a list splits first. *)
Lemma first_operation_unique (P Q : operation -> Prop) pre1 o1 post1 pre2 o2 post2 :
  pre1 ++ o1 :: post1 = pre2 ++ o2 :: post2 ->
  Forall P pre1 -> Forall Q pre2 -> ~ P o2 -> ~ Q o1 ->
  pre1 = pre2 /\ o1 = o2 /\ post1 = post2.
Proof.
  intros Heq H1 H2 Hn2 Hn1.
  assert (length pre1 = length pre2) as Hlen.
  { destruct (Nat.lt_trichotomy (length pre1) (length pre2)) as [Hlt|[He|Hgt]];
      [exfalso|exact He|exfalso].
    - assert ((pre2 ++ o2 :: post2) !! length pre1 = Some o1) as Hlk
        by (rewrite <- Heq; apply list_lookup_middle; reflexivity).
      rewrite lookup_app_l in Hlk by exact Hlt.
      rewrite Forall_lookup in H2. apply Hn1. eapply H2; eauto.
    - assert ((pre1 ++ o1 :: post1) !! length pre2 = Some o2) as Hlk
        by (rewrite Heq; apply list_lookup_middle; reflexivity).
      rewrite lookup_app_l in Hlk by exact Hgt.
      rewrite Forall_lookup in H1. apply Hn2. eapply H1; eauto. }
  apply app_inj_1 in Heq as [-> Heq]; [|exact Hlen].
  injection Heq as -> ->. auto.
Qed.

(** Dropping an operation changes only the lists of the ranks it
    touches. *)
Lemma lists_of_remove n pre post (q : nat) :
  lists_of n (pre ++ post) !! q
  = if decide (q < n)%nat
    then Some (flat_map (operation_messages q) pre
               ++ flat_map (operation_messages q) post)
    else None.
Proof. rewrite lists_of_lookup, flat_map_app. reflexivity. Qed.

Lemma lists_of_middle n pre o post (q : nat) :
  lists_of n (pre ++ o :: post) !! q
  = if decide (q < n)%nat
    then Some (flat_map (operation_messages q) pre
               ++ operation_messages q o
               ++ flat_map (operation_messages q) post)
    else None.
Proof. rewrite lists_of_lookup, flat_map_app. reflexivity. Qed.

(** The operation behind the head of a list. *)
Lemma head_operation n (q : nat) o m :
  operation_ok n o -> operation_messages q o = [m] ->
  (o = local_op q m /\ target m = Z.of_nat q)
  \/ (exists t g, o = transfer q t g /\ q <> t
                 /\ m = mk_message send (Z.of_nat t) g)
  \/ (exists s g, o = transfer s q g /\ s <> q
                 /\ m = mk_message receive (Z.of_nat s) g).
Proof.
  intros Hok Hom. destruct o as [q' m0|s t g]; simpl in *.
  - case_decide; [|discriminate]. subst. injection Hom as ->.
    left. tauto.
  - destruct Hok as (Hne & _ & _).
    destruct (decide (s = q)), (decide (t = q)); simpl in Hom;
      try discriminate; try congruence.
    + subst. injection Hom as <-. right. left. eauto.
    + subst. injection Hom as <-. right. right. eauto.
Qed.

(** A local step of a scheduled configuration leaves a scheduled one. *)
Lemma scheduled_local n ops (q : nat) m rest :
  Forall (operation_ok n) ops ->
  lists_of n ops !! q = Some (m :: rest) ->
  target m = Z.of_nat q ->
  exists ops',
    Forall (operation_ok n) ops'
    /\ <[q := rest]> (lists_of n ops) = lists_of n ops'.
Proof.
  intros Hok Hq Htarget.
  rewrite lists_of_lookup in Hq. case_decide as Hqn; [|discriminate].
  injection Hq as Hq.
  destruct (first_operation n q ops m rest Hok Hq)
    as (pre & o & post & -> & Hpre & Ho & ->).
  apply Forall_app in Hok as [Hok1 Hok2].
  apply Forall_cons in Hok2 as [Hoko Hok2].
  assert (o = local_op q m) as ->.
  { destruct (head_operation n q o m Hoko Ho)
      as [[-> _]|[(t & g & -> & Hne & ->)|(s & g & -> & Hne & ->)]];
      [reflexivity|simpl in Htarget; lia|simpl in Htarget; lia]. }
  exists (pre ++ post). split; [apply Forall_app; auto|].
  apply list_eq. intros i.
  rewrite lists_of_remove.
  destruct (decide (i = q)) as [->|Hne].
  - rewrite list_lookup_insert_eq by (rewrite lists_of_length; exact Hqn).
    case_decide; [|contradiction].
    rewrite (flat_map_untouched q pre Hpre). reflexivity.
  - rewrite list_lookup_insert_ne by congruence.
    rewrite lists_of_middle. simpl.
    case_decide; [|reflexivity]. case_decide; [congruence|reflexivity].
Qed.

(** At a rendezvous of a scheduled configuration the two heads belong to
    one transfer: the ranges agree, and what is left is scheduled. *)
Lemma scheduled_rendezvous n ops (s t : nat) g g' rest_s rest_t :
  Forall (operation_ok n) ops ->
  s <> t ->
  lists_of n ops !! s = Some (mk_message send (Z.of_nat t) g :: rest_s) ->
  lists_of n ops !! t = Some (mk_message receive (Z.of_nat s) g' :: rest_t) ->
  g = g'
  /\ exists ops',
       Forall (operation_ok n) ops'
       /\ <[t := rest_t]> (<[s := rest_s]> (lists_of n ops)) = lists_of n ops'.
Proof.
  intros Hok Hst Hs Ht.
  rewrite lists_of_lookup in Hs, Ht.
  case_decide as Hsn; [|discriminate]. case_decide as Htn; [|discriminate].
  injection Hs as Hs. injection Ht as Ht.
  destruct (first_operation n s ops _ _ Hok Hs)
    as (pre1 & o1 & post1 & Hops1 & Hpre1 & Ho1 & Hrest1).
  destruct (first_operation n t ops _ _ Hok Ht)
    as (pre2 & o2 & post2 & Hops2 & Hpre2 & Ho2 & Hrest2).
  assert (Hoko1 : operation_ok n o1).
  { rewrite Hops1 in Hok. apply Forall_app in Hok as [_ Hok].
    apply Forall_cons in Hok as [Hok _]. exact Hok. }
  assert (Hoko2 : operation_ok n o2).
  { rewrite Hops2 in Hok. apply Forall_app in Hok as [_ Hok].
    apply Forall_cons in Hok as [Hok _]. exact Hok. }
  assert (o1 = transfer s t g) as E1.
  { destruct (head_operation n s o1 _ Hoko1 Ho1)
      as [[-> Htg]|[(t0 & g0 & -> & Hne & Hm)|(s0 & g0 & -> & Hne & Hm)]].
    - simpl in Htg. lia.
    - injection Hm as Ht0 ->. f_equal. lia.
    - discriminate. }
  assert (o2 = transfer s t g') as E2.
  { destruct (head_operation n t o2 _ Hoko2 Ho2)
      as [[-> Htg]|[(t0 & g0 & -> & Hne & Hm)|(s0 & g0 & -> & Hne & Hm)]].
    - simpl in Htg. lia.
    - discriminate.
    - injection Hm as Hs0 ->. f_equal. lia. }
  subst o1 o2.
  destruct (first_operation_unique
              (fun o' => operation_messages s o' = [])
              (fun o' => operation_messages t o' = [])
              pre1 (transfer s t g) post1 pre2 (transfer s t g') post2)
    as (-> & Heq & ->); [congruence|exact Hpre1|exact Hpre2| | |].
  { simpl. case_decide; [|contradiction]. discriminate. }
  { simpl. case_decide; [lia|]. case_decide; [|contradiction]. discriminate. }
  injection Heq as <-. split; [reflexivity|].
  subst ops. apply Forall_app in Hok as [Hok1 Hok2].
  apply Forall_cons in Hok2 as [_ Hok2].
  exists (pre2 ++ post2). split; [apply Forall_app; auto|].
  apply list_eq. intros i.
  rewrite lists_of_remove.
  destruct (decide (i = t)) as [->|Hnt].
  - rewrite list_lookup_insert_eq
      by (rewrite length_insert, lists_of_length; lia).
    case_decide; [|contradiction].
    rewrite (flat_map_untouched t pre2 Hpre2), Hrest2. reflexivity.
  - rewrite list_lookup_insert_ne by congruence.
    destruct (decide (i = s)) as [->|Hns].
    + rewrite list_lookup_insert_eq by (rewrite lists_of_length; lia).
      case_decide; [|contradiction].
      rewrite (flat_map_untouched s pre2 Hpre1), Hrest1. reflexivity.
    + rewrite list_lookup_insert_ne by congruence.
      rewrite lists_of_middle. simpl.
      case_decide; [|reflexivity].
      case_decide; [congruence|]. case_decide; [congruence|]. reflexivity.
Qed.

(** Replay keeps a scheduled configuration scheduled. *)
Lemma replay_step_scheduled n cfg cfg' :
  scheduled n cfg -> replay_step cfg cfg' -> scheduled n cfg'.
Proof.
  intros (ops & Hok & ->) Hstep.
  inversion Hstep as [cfg0 q m rest Hq Htarget|
                      cfg0 s t g g' rest_s rest_t Hst Hs Ht]; subst.
  - destruct (scheduled_local n ops q m rest Hok Hq Htarget)
      as (ops' & Hok' & ->). exists ops'. auto.
  - destruct (scheduled_rendezvous n ops s t g g' rest_s rest_t Hok Hst Hs Ht)
      as (_ & ops' & Hok' & ->). exists ops'. auto.
Qed.

Lemma rtc_replay_scheduled n cfg cfg' :
  scheduled n cfg -> rtc replay_step cfg cfg' -> scheduled n cfg'.
Proof.
  intros Hs Hrtc. induction Hrtc as [|x y z Hstep _ IH]; [exact Hs|].
  apply IH. eapply replay_step_scheduled; eauto.
Qed.

(** A scheduled configuration is finished or has an enabled operation: a
    local step, or a send whose matching receive is the next pending
    operation of its target. *)
Lemma scheduled_progress n cfg :
  scheduled n cfg ->
  all_consumed cfg
  \/ (exists (q : nat) m rest,
        cfg !! q = Some (m :: rest) /\ target m = Z.of_nat q)
  \/ (exists (s t : nat) g rest_s rest_t,
        s <> t
        /\ cfg !! s = Some (mk_message send (Z.of_nat t) g :: rest_s)
        /\ cfg !! t = Some (mk_message receive (Z.of_nat s) g :: rest_t)).
Proof.
  intros (ops & Hok & ->). destruct ops as [|o ops].
  - left. unfold all_consumed, lists_of. apply Forall_fmap, Forall_forall.
    intros q _. reflexivity.
  - right. apply Forall_cons in Hok as [Ho Hok].
    destruct o as [q m|s t g]; simpl in Ho.
    + left. destruct Ho as [Hq Htarget]. exists q, m. eexists.
      split; [|exact Htarget]. rewrite lists_of_lookup.
      case_decide; [|contradiction]. simpl.
      case_decide; [|contradiction]. reflexivity.
    + right. destruct Ho as (Hne & Hs & Ht). exists s, t, g. do 2 eexists.
      split; [exact Hne|]. rewrite !lists_of_lookup. simpl.
      split.
      * case_decide; [|contradiction]. case_decide; [|contradiction].
        case_decide; [congruence|]. reflexivity.
      * case_decide; [|contradiction]. case_decide; [congruence|].
        case_decide; [|contradiction]. reflexivity.
Qed.

(** *** Every step consumes messages *)

Lemma pending_total_insert (cfg : pending) (q : nat) m rest :
  cfg !! q = Some (m :: rest) ->
  S (pending_total (<[q := rest]> cfg)) = pending_total cfg.
Proof.
  intros Hq. unfold pending_total.
  pose proof (lookup_lt_Some _ _ _ Hq) as Hlt.
  rewrite insert_take_drop by exact Hlt.
  rewrite <- (take_drop_middle cfg q (m :: rest) Hq) at 3.
  rewrite !concat_app, !length_app. simpl. rewrite !length_app. simpl. lia.
Qed.

Lemma replay_step_consumes cfg cfg' :
  replay_step cfg cfg' -> (pending_total cfg' < pending_total cfg)%nat.
Proof.
  intros Hstep.
  inversion Hstep as [cfg0 q m rest Hq Htarget|
                      cfg0 s t g g' rest_s rest_t Hst Hs Ht]; subst.
  - pose proof (pending_total_insert _ _ _ _ Hq). lia.
  - pose proof (pending_total_insert _ _ _ _ Hs) as H1.
    assert (<[s := rest_s]> cfg !! t
            = Some (mk_message receive (Z.of_nat s) g' :: rest_t)) as Ht'
      by (rewrite list_lookup_insert_ne by exact Hst; exact Ht).
    pose proof (pending_total_insert _ _ _ _ Ht') as H2. lia.
Qed.

(** A run of [k] steps consumes at least [k] messages. *)
Lemma nsteps_replay_bound k cfg cfg' :
  nsteps replay_step k cfg cfg' ->
  (k + pending_total cfg' <= pending_total cfg)%nat.
Proof.
  induction 1 as [|k x y z Hstep _ IH]; [lia|].
  pose proof (replay_step_consumes _ _ Hstep). lia.
Qed.

(** An enabled operation is a step. *)
Lemma progress_step cfg :
  (exists (q : nat) m rest,
     cfg !! q = Some (m :: rest) /\ target m = Z.of_nat q)
  \/ (exists (s t : nat) g rest_s rest_t,
        s <> t
        /\ cfg !! s = Some (mk_message send (Z.of_nat t) g :: rest_s)
        /\ cfg !! t = Some (mk_message receive (Z.of_nat s) g :: rest_t)) ->
  exists cfg', replay_step cfg cfg'.
Proof.
  intros [(q & m & rest & Hq & Htarget)
         |(s & t & g & rest_s & rest_t & Hne & Hs & Ht)].
  - eexists. eapply replay_local; eauto.
  - eexists. eapply replay_rendezvous; eauto.
Qed.

(** From a scheduled configuration the replay can always be completed. *)
Lemma scheduled_completes n cfg :
  scheduled n cfg ->
  exists final, rtc replay_step cfg final /\ all_consumed final.
Proof.
  remember (pending_total cfg) as k eqn:Hk. revert cfg Hk.
  induction k as [k IH] using lt_wf_ind. intros cfg Hk Hs.
  destruct (scheduled_progress n cfg Hs) as [Hdone|Hstep].
  - exists cfg. split; [apply rtc_refl|exact Hdone].
  - destruct (progress_step cfg Hstep) as [cfg' Hstep'].
    pose proof (replay_step_consumes _ _ Hstep') as Hlt.
    destruct (IH (pending_total cfg') ltac:(lia) cfg' eq_refl
                (replay_step_scheduled n _ _ Hs Hstep'))
      as (final & Hrun & Hfinal).
    exists final. split; [eapply rtc_l; eauto|exact Hfinal].
Qed.

(** *** The lists of assignments are scheduled *)

Lemma assignment_operations (q : nat) a :
  0 <= sender a -> 0 <= receiver a ->
  assignment_messages q a
  = flat_map (operation_messages q) (operations_of a).
Proof.
  intros Hs Hr. unfold assignment_messages, operations_of.
  destruct (decide (sender a = receiver a)) as [Heq|Hne]; simpl.
  - rewrite app_nil_r.
    destruct (decide (receiver a = Z.of_nat q)) as [Hq|Hq].
    + rewrite decide_True by lia. rewrite decide_True by lia.
      rewrite decide_True by lia. reflexivity.
    + rewrite decide_False by lia. rewrite decide_False by lia.
      rewrite decide_False by lia. reflexivity.
  - rewrite app_nil_r.
    destruct (decide (receiver a = Z.of_nat q)) as [Hq|Hq];
      destruct (decide (sender a = Z.of_nat q)) as [Hq'|Hq'];
      try congruence.
    + rewrite decide_False by lia. rewrite decide_True by lia.
      rewrite !Z2Nat.id by lia. reflexivity.
    + rewrite decide_True by lia. rewrite decide_False by lia.
      rewrite !Z2Nat.id by lia. reflexivity.
    + rewrite decide_False by lia. rewrite decide_False by lia. reflexivity.
Qed.

Lemma assignments_scheduled (n : nat) asg (msgs : pending) :
  length msgs = n ->
  (forall q : nat, (q < n)%nat ->
     msgs !! q = Some (flat_map (assignment_messages q) asg)) ->
  (forall a, a ∈ asg ->
     0 <= sender a < Z.of_nat n /\ 0 <= receiver a < Z.of_nat n) ->
  scheduled n msgs.
Proof.
  intros Hlen Hlists Hrange.
  exists (flat_map operations_of asg). split.
  - apply Forall_forall. intros o Ho.
    apply list_elem_of_In, in_flat_map in Ho as (a & Ha & Ho).
    apply list_elem_of_In in Ha. destruct (Hrange a Ha) as [Hs Hr].
    unfold operations_of in Ho. case_decide as Heq; simpl in Ho.
    + destruct Ho as [<-|[<-|[]]]; simpl; split; lia.
    + destruct Ho as [<-|[]]. simpl. split; [lia|]. split; lia.
  - apply list_eq. intros q. rewrite lists_of_lookup.
    case_decide as Hq.
    + rewrite Hlists by exact Hq. f_equal.
      clear Hlists. induction asg as [|a asg IH]; [reflexivity|].
      simpl. rewrite flat_map_app.
      destruct (Hrange a ltac:(left)) as [Hs Hr].
      rewrite assignment_operations by lia. f_equal.
      apply IH. intros a' Ha'. apply Hrange. right. exact Ha'.
    + apply lookup_ge_None. lia.
Qed.

Section ReplayOfPlan.

Variable get_num_subgrid_cols : Z -> Z.
Hypothesis cols_ok : cols_divide get_num_subgrid_cols.

(** C3.  For the schedule of a plan of [get_plan], replayed with every
    rank walking its list in order, same-rank messages served locally and a
    send completing only together with the receive its target is blocked
    in: in every configuration the replay can reach, either every list is
    consumed or an operation is enabled, namely a local step or a send
    whose matching receive (same range) is the next pending operation of
    its target; a send and the receive it meets always carry the same
    range; every step consumes messages, so a run has at most as many steps
    as there are messages; and from every reachable configuration the
    replay can be run to the end, where every list is consumed. *)
Theorem exchange_replay_deadlock_free (num_ranks : Z) (table : element_table) :
  0 < num_ranks < table_size table ->
  exists plan msgs,
    get_plan get_num_subgrid_cols num_ranks table = Some plan
    /\ generate_messages get_num_subgrid_cols plan = Some msgs
    /\ forall cfg : pending,
         rtc replay_step msgs cfg ->
         (all_consumed cfg
          \/ (exists (q : nat) m rest,
                cfg !! q = Some (m :: rest) /\ target m = Z.of_nat q)
          \/ (exists (s t : nat) g rest_s rest_t,
                s <> t
                /\ cfg !! s = Some (mk_message send (Z.of_nat t) g :: rest_s)
                /\ cfg !! t
                   = Some (mk_message receive (Z.of_nat s) g :: rest_t)))
         /\ (forall (s t : nat) g g' rest_s rest_t,
               s <> t ->
               cfg !! s = Some (mk_message send (Z.of_nat t) g :: rest_s) ->
               cfg !! t = Some (mk_message receive (Z.of_nat s) g' :: rest_t) ->
               g = g')
         /\ (forall cfg', replay_step cfg cfg' ->
               (pending_total cfg' < pending_total cfg)%nat)
         /\ (forall k cfg', nsteps replay_step k cfg cfg' ->
               (k <= pending_total cfg)%nat)
         /\ (exists final, rtc replay_step cfg final /\ all_consumed final).
Proof.
  intros Hr.
  destruct (generate_messages_assignments _ cols_ok num_ranks table Hr)
    as (plan & msgs & asg & Hplan & Hmsgs & Hlen & Hlists & Hrange & _).
  exists plan, msgs. split; [exact Hplan|]. split; [exact Hmsgs|].
  pose proof (assignments_scheduled (size plan) asg msgs Hlen Hlists Hrange)
    as Hinit.
  intros cfg Hrun.
  pose proof (rtc_replay_scheduled _ _ _ Hinit Hrun) as Hs.
  split; [apply (scheduled_progress _ _ Hs)|].
  split.
  { intros s t g g' rest_s rest_t Hne Hls Hlt.
    destruct Hs as (ops & Hok & ->).
    destruct (scheduled_rendezvous _ _ _ _ _ _ _ _ Hok Hne Hls Hlt)
      as [Hg _]. exact Hg. }
  split; [intros cfg'; apply replay_step_consumes|].
  split.
  { intros k cfg' Hk. pose proof (nsteps_replay_bound _ _ _ Hk). lia. }
  apply (scheduled_completes _ _ Hs).
Qed.

End ReplayOfPlan.

(** ** Tasking *)





(** C8 on the code: 81 element pairs of 0.08 MB each are 6.48 MB, 7 MB
    rounded up; with a ceiling of 2 MB and one rank [get_num_tasks]
    returns 7 / 2 = 3, where dividing first and rounding the quotient up
    gives 4.  Three tasks hold 2.16 MB each, above the ceiling. *)
Theorem get_num_tasks_truncates_quotient :
  (exists size_MB,
     problem_size_MB double_precision (table_of_size 9) pde_3d = Some size_MB
     /\ (size_MB == 648 # 100)%Q /\ Qceiling size_MB = 7)
  /\ get_num_tasks double_precision (table_of_size 9) pde_3d 1 2 = Some 3
  /\ rounded_up_num_tasks (648 # 100) 1 2 = 4.
Proof.
  split; [|split].
  - eexists. split; [vm_compute; reflexivity|]. split; reflexivity.
  - vm_compute. reflexivity.
  - vm_compute. reflexivity.
Qed.

(** C4 on the code: for 3 elements and 2 tasks the runs are [0..3] and
    [4..7]; the pair (2, 2), linear index 8, is in no task. *)
Theorem assign_elements_to_tasks_drops_remainder :
  assign_elements_to_tasks (table_of_size 3) 2
  = Some [mk_task 0 1 0 0; mk_task 1 2 1 1]
  /\ forall t, t ∈ [mk_task 0 1 0 0; mk_task 1 2 1 1] ->
       ~ task_covers 3 t (2 * 3 + 2).
Proof.
  split; [vm_compute; reflexivity|].
  intros t Ht. unfold task_covers, task_first, task_last.
  apply elem_of_cons in Ht as [->|Ht]; [simpl; lia|].
  apply list_elem_of_singleton in Ht as ->. simpl. lia.
Qed.

(** *** What the two functions do compute *)

Lemma task_of_index_run table elems_per_task i :
  let t := task_of_index table elems_per_task i in
  task_first (table_size table) t = i * elems_per_task
  /\ task_last (table_size table) t = (i + 1) * elems_per_task - 1.
Proof.
  unfold task_of_index, task_first, task_last. simpl.
  pose proof (Z.quot_rem' (i * elems_per_task) (table_size table)).
  pose proof (Z.quot_rem' ((i + 1) * elems_per_task - 1) (table_size table)).
  lia.
Qed.

(** X1.  The tasks of [assign_elements_to_tasks] are consecutive runs of
    [elems_per_task = N * N / num_tasks] linear indices each, task [i]
    holding [i * elems_per_task .. (i + 1) * elems_per_task - 1]: the runs
    are pairwise disjoint and cover exactly the indices below
    [num_tasks * elems_per_task], which are all [N * N] pairs exactly when
    [num_tasks] divides [N * N]. *)
Theorem assign_elements_to_tasks_runs (table : element_table) (num_tasks : Z) :
  0 < num_tasks -> 0 < table_size table ->
  let N := table_size table in
  let elems_per_task := N * N / num_tasks in
  exists tasks,
    assign_elements_to_tasks table num_tasks = Some tasks
    /\ Z.of_nat (length tasks) = num_tasks
    /\ (forall (i : nat) t, tasks !! i = Some t ->
          task_first N t = Z.of_nat i * elems_per_task
          /\ task_last N t = (Z.of_nat i + 1) * elems_per_task - 1)
    /\ (forall x, (exists t, t ∈ tasks /\ task_covers N t x)
                  <-> 0 <= x < num_tasks * elems_per_task)
    /\ (forall (i j : nat) t t' x,
          tasks !! i = Some t -> tasks !! j = Some t' ->
          task_covers N t x -> task_covers N t' x -> i = j)
    /\ num_tasks * elems_per_task <= N * N
    /\ (num_tasks * elems_per_task = N * N <-> (N * N) mod num_tasks = 0).
Proof.
  intros Ht HN N elems_per_task.
  assert (Hept : 0 <= elems_per_task) by (apply Z.div_pos; nia).
  unfold assign_elements_to_tasks.
  assert ((0 <? num_tasks) = true) as -> by lia.
  assert ((table_size table =? 0) = false) as -> by lia. simpl.
  rewrite Z.quot_div_nonneg by nia. fold N. fold elems_per_task.
  eexists. split; [reflexivity|].
  assert (Hrun : forall (i : nat) t,
            (task_of_index table elems_per_task <$> seqZ 0 num_tasks) !! i
            = Some t ->
            Z.of_nat i < num_tasks
            /\ task_first N t = Z.of_nat i * elems_per_task
            /\ task_last N t = (Z.of_nat i + 1) * elems_per_task - 1).
  { intros i t Hi. rewrite list_lookup_fmap in Hi.
    destruct (seqZ 0 num_tasks !! i) as [z|] eqn:Hz; [|discriminate].
    apply lookup_seqZ in Hz as [-> Hlt]. injection Hi as <-.
    split; [lia|]. rewrite Z.add_0_l. apply task_of_index_run. }
  split; [rewrite length_fmap, length_seqZ; lia|].
  split; [intros i t Hi; apply Hrun in Hi; tauto|].
  pose proof (Z.div_mod (N * N) num_tasks ltac:(lia)) as Hdm.
  pose proof (Z.mod_pos_bound (N * N) num_tasks Ht) as Hmod.
  fold elems_per_task in Hdm.
  split; [|split; [|split; [lia|lia]]].
  - intros x. unfold task_covers. split.
    + intros (t & Hin & Hcov). apply list_elem_of_lookup in Hin as [i Hi].
      apply Hrun in Hi as (Hlt & Hf & Hl). rewrite Hf, Hl in Hcov. nia.
    + intros Hx.
      assert (0 < elems_per_task) as Hpos by nia.
      pose proof (Z.div_mod x elems_per_task ltac:(lia)) as Hxd.
      pose proof (Z.mod_pos_bound x elems_per_task Hpos) as Hxm.
      assert (0 <= x / elems_per_task < num_tasks) as Hi.
      { split; [apply Z.div_pos; lia|].
        apply Z.div_lt_upper_bound; [lia|nia]. }
      exists (task_of_index table elems_per_task (x / elems_per_task)).
      split.
      * apply list_elem_of_fmap. eexists. split; [reflexivity|].
        apply elem_of_seqZ. lia.
      * destruct (task_of_index_run table elems_per_task (x / elems_per_task))
          as [Hf Hl]. fold N in Hf, Hl. rewrite Hf, Hl. nia.
  - intros i j t t' x Hi Hj. unfold task_covers.
    apply Hrun in Hi as (_ & Hf & Hl). apply Hrun in Hj as (_ & Hf' & Hl').
    rewrite Hf, Hl, Hf', Hl'. intros H1 H2.
    destruct (Nat.lt_trichotomy i j) as [Hlt|[Heq|Hgt]]; [|exact Heq|]; nia.
Qed.

Lemma assign_elements_to_tasks_runs_example :
  0 < 2 /\ 0 < table_size (table_of_size 3)
  /\ exists tasks,
       assign_elements_to_tasks (table_of_size 3) 2 = Some tasks
       /\ forall x, (exists t, t ∈ tasks /\ task_covers 3 t x) <-> 0 <= x < 8.
Proof.
  assert (H1 : 0 < 2) by reflexivity.
  assert (H2 : 0 < table_size (table_of_size 3)) by reflexivity.
  split; [exact H1|]. split; [exact H2|].
  destruct (assign_elements_to_tasks_runs (table_of_size 3) 2 H1 H2)
    as (tasks & Htasks & _ & _ & Hcover & _).
  exists tasks. split; [exact Htasks|exact Hcover].
Defined.




(** ** The memory check of the realspace transform *)

Lemma foldl_mul_views (f : matrix_view -> Z) (x : Z) ms :
  foldl (fun r m => r * f m) x ms = x * foldl (fun r m => r * f m) 1 ms.
Proof.
  revert x. induction ms as [|m ms IH]; intros x; simpl; [lia|].
  rewrite (IH (x * f m)), (IH (1 * f m)). lia.
Qed.

(** The shape [recursive_kron] builds: the products of the operands' row
    and column counts. *)
Lemma kron_suffix_shape ms product :
  kron_suffix ms = Some product ->
  fst product = foldl (fun r m => r * view_nrows m) 1 ms
  /\ snd product = foldl (fun c m => c * view_ncols m) 1 ms.
Proof.
  revert product. induction ms as [|m ms IH]; intros product H;
    simpl in H; [discriminate|].
  destruct ms as [|m' ms'].
  - injection H as <-. simpl. lia.
  - destruct (kron_suffix (m' :: ms')) as [k|]; [|discriminate].
    injection H as <-. destruct (IH k eq_refl) as [H1 H2].
    unfold kron_shape. cbn [fst snd]. rewrite H1, H2.
    change (foldl (fun r m0 => r * view_nrows m0) 1 (m :: m' :: ms'))
      with (foldl (fun r m0 => r * view_nrows m0) (1 * view_nrows m)
              (m' :: ms')).
    change (foldl (fun c m0 => c * view_ncols m0) 1 (m :: m' :: ms'))
      with (foldl (fun c m0 => c * view_ncols m0) (1 * view_ncols m)
              (m' :: ms')).
    rewrite (foldl_mul_views view_nrows (1 * view_nrows m)).
    rewrite (foldl_mul_views view_ncols (1 * view_ncols m)). lia.
Qed.


Section RealspaceLoop.

Variables (P : precision) (pde : PDE) (table : element_table)
          (memory_limit_MB : Z).

(** Every product in the log was built after the check of its element
    passed. *)
Lemma realspace_loop_checked elems :
  forall log log' completed,
    realspace_loop P pde table memory_limit_MB elems log = (log', completed) ->
    forall e, e ∈ log' ->
      e ∈ log
      \/ exists i product,
           e = kron_built i product /\ i ∈ elems /\ element_checked P pde table memory_limit_MB i product.
Proof.
  induction elems as [|i elems IH]; intros log log' completed Hrun e He;
    simpl in Hrun.
  - injection Hrun as <- <-. left. exact He.
  - destruct (kron_matrices_of pde table i) as [ms|] eqn:Hms;
      [|injection Hrun as <- <-; left; exact He].
    destruct (Z.leb_spec (kron_matrix_MB P ms) memory_limit_MB) as [Hle|Hgt];
      simpl in Hrun; [|injection Hrun as <- <-; left; exact He].
    destruct (recursive_kron ms 0) as [product|] eqn:Hk;
      [|injection Hrun as <- <-; left; exact He].
    destruct (IH _ _ _ Hrun e He) as [Hin|(j & pr & -> & Hj & Hchk)].
    + apply elem_of_app in Hin as [Hin|Hin]; [left; exact Hin|].
      apply list_elem_of_singleton in Hin as ->. right.
      exists i, product. split; [reflexivity|]. split; [left|].
      exists ms. auto.
    + right. exists j, pr. split; [reflexivity|]. split; [right; exact Hj|].
      exact Hchk.
Qed.




End RealspaceLoop.

(** ** The modelled column count, and the theorems at concrete inputs *)

Lemma adjust_cols_divides n fuel :
  0 < n ->
  forall trial,
    0 < trial -> Z.of_nat fuel = trial ->
    0 < adjust_cols fuel n trial /\ Z.rem n (adjust_cols fuel n trial) = 0.
Proof.
  intros Hn. induction fuel as [|fuel IH]; intros trial Ht Hf; [lia|].
  simpl. destruct (Z.eqb_spec (Z.rem n trial) 0) as [Hz|Hnz]; [auto|].
  destruct fuel as [|fuel'].
  - simpl. split; [lia|apply Z.rem_1_r].
  - apply IH; lia.
Qed.

Lemma round_sqrt_positive n : 0 < n -> 0 < round_sqrt n.
Proof.
  intros Hn. unfold round_sqrt.
  pose proof (proj2 (Z.sqrt_pos n) Hn).
  destruct (n <=? Z.sqrt n * Z.sqrt n + Z.sqrt n); lia.
Qed.

(** The column count modelled from the specification is a positive
    divisor of the rank count. *)
Lemma spec_num_subgrid_cols_divides : cols_divide spec_num_subgrid_cols.
Proof.
  intros n Hn. unfold spec_num_subgrid_cols.
  pose proof (round_sqrt_positive n Hn).
  apply adjust_cols_divides; lia.
Qed.

(** The scenario of the specification: 64 elements on 4 ranks give a
    2 x 2 grid of 32 x 32 tiles. *)
Example plan_of_four_ranks :
  (fun plan => (fun rank : Z => plan !! rank) <$> [0; 1; 2; 3; 4])
    <$> get_plan spec_num_subgrid_cols 4 (table_of_size 64)
  = Some [Some (mk_element_subgrid 0 31 0 31);
          Some (mk_element_subgrid 0 31 32 63);
          Some (mk_element_subgrid 32 63 0 31);
          Some (mk_element_subgrid 32 63 32 63);
          None].
Proof. vm_compute. reflexivity. Qed.

(** Three ranks: two are used, the third stays idle. *)
Example plan_of_three_ranks :
  (fun plan => (fun rank : Z => plan !! rank) <$> [0; 1; 2])
    <$> get_plan spec_num_subgrid_cols 3 (table_of_size 10)
  = Some [Some (mk_element_subgrid 0 4 0 9);
          Some (mk_element_subgrid 5 9 0 9);
          None].
Proof. vm_compute. reflexivity. Qed.

Example example_dependencies_value :
  example_dependencies
  = [[(0, mk_grid_limits 0 1)]; [(1, mk_grid_limits 2 3)]].
Proof. reflexivity. Qed.

Example example_messages_value :
  example_messages
  = [[mk_message receive 0 (mk_grid_limits 0 1);
      mk_message send 0 (mk_grid_limits 0 1);
      mk_message send 2 (mk_grid_limits 0 1)];
     [mk_message receive 2 (mk_grid_limits 2 3)];
     [mk_message receive 0 (mk_grid_limits 0 1);
      mk_message send 1 (mk_grid_limits 2 3)];
     [mk_message receive 3 (mk_grid_limits 2 3);
      mk_message send 3 (mk_grid_limits 2 3)]].
Proof. reflexivity. Qed.

(** [get_plan_tiles_square] on 64 elements and 4 ranks. *)
Lemma get_plan_tiles_square_64_4 :
  0 < 4 < table_size (table_of_size 64)
  /\ exists plan,
       get_plan spec_num_subgrid_cols 4 (table_of_size 64) = Some plan
       /\ forall row col, 0 <= row < 64 -> 0 <= col < 64 ->
            exists rank g, plan !! rank = Some g /\ in_subgrid g row col.
Proof.
  assert (H : 0 < 4 < table_size (table_of_size 64))
    by (split; reflexivity).
  split; [exact H|].
  destruct (get_plan_tiles_square spec_num_subgrid_cols
              spec_num_subgrid_cols_divides 4 (table_of_size 64) H)
    as (plan & Hplan & Hcover & _).
  exists plan. split; [exact Hplan|].
  intros row col Hrow Hcol.
  destruct (Hcover row col Hrow Hcol) as (rank & g & Hg & Hin & _).
  exists rank, g. split; [exact Hg|exact Hin].
Defined.

(** [get_plan_effective_rank_ids] on 3 ranks: two effective ranks. *)
Lemma get_plan_effective_rank_ids_3 :
  0 < 3
  /\ forall plan,
       get_plan spec_num_subgrid_cols 3 (table_of_size 10) = Some plan ->
       (forall rank, is_Some (plan !! rank) <-> 0 <= rank < 2)
       /\ Z.of_nat (size plan) = 2.
Proof.
  assert (H : 0 < 3) by reflexivity.
  split; [exact H|].
  destruct (get_plan_effective_rank_ids spec_num_subgrid_cols
              spec_num_subgrid_cols_divides 3 (table_of_size 10) H)
    as (_ & _ & Hplan & _).
  exact Hplan.
Defined.

(** [generate_messages_symmetric] on 64 elements and 4 ranks. *)
Lemma generate_messages_symmetric_64_4 :
  0 < 4 < table_size (table_of_size 64)
  /\ exists plan msgs,
       get_plan spec_num_subgrid_cols 4 (table_of_size 64) = Some plan
       /\ generate_messages spec_num_subgrid_cols plan = Some msgs
       /\ length msgs = size plan.
Proof.
  assert (H : 0 < 4 < table_size (table_of_size 64))
    by (split; reflexivity).
  split; [exact H|].
  destruct (generate_messages_symmetric spec_num_subgrid_cols
              spec_num_subgrid_cols_divides 4 (table_of_size 64) H)
    as (plan & msgs & Hplan & Hmsgs & Hlen & _).
  exists plan, msgs. split; [exact Hplan|]. split; [exact Hmsgs|exact Hlen].
Defined.

(** [exchange_replay_deadlock_free] on 64 elements and 4 ranks. *)
Lemma exchange_replay_deadlock_free_64_4 :
  0 < 4 < table_size (table_of_size 64)
  /\ exists plan msgs,
       get_plan spec_num_subgrid_cols 4 (table_of_size 64) = Some plan
       /\ generate_messages spec_num_subgrid_cols plan = Some msgs
       /\ exists final, rtc replay_step msgs final /\ all_consumed final.
Proof.
  assert (H : 0 < 4 < table_size (table_of_size 64))
    by (split; reflexivity).
  split; [exact H|].
  destruct (exchange_replay_deadlock_free spec_num_subgrid_cols
              spec_num_subgrid_cols_divides 4 (table_of_size 64) H)
    as (plan & msgs & Hplan & Hmsgs & Hreplay).
  exists plan, msgs. split; [exact Hplan|]. split; [exact Hmsgs|].
  destruct (Hreplay msgs (rtc_refl _ _)) as (_ & _ & _ & _ & Hfinal).
  exact Hfinal.
Defined.

(** [find_column_dependencies_overlaps] on the example bands: column band 1
    depends on row band 1 alone. *)
Lemma find_column_dependencies_overlaps_example :
  sorted_stops example_boundaries
  /\ bands_from 0 example_boundaries !! 1%nat = Some (2, 3)
  /\ exists deps,
       find_column_dependencies example_boundaries example_boundaries
         !! 1%nat = Some deps
       /\ forall (r : Z) (g : grid_limits),
            rows_lookup r deps = Some g <->
            exists row_band,
              0 <= r
              /\ bands_from 0 example_boundaries !! Z.to_nat r = Some row_band
              /\ intersects row_band (2, 3)
              /\ g = mk_grid_limits (Z.max (fst row_band) 2)
                                    (Z.min (snd row_band) 3).
Proof.
  assert (H1 : sorted_stops example_boundaries) by reflexivity.
  assert (H2 : bands_from 0 example_boundaries !! 1%nat = Some (2, 3))
    by reflexivity.
  split; [exact H1|]. split; [exact H2|].
  exact (find_column_dependencies_overlaps example_boundaries
           example_boundaries 1 (2, 3) H1 H1 H2).
Defined.

(** [dependencies_to_messages_round_robin] on the example bands. *)
Lemma dependencies_to_messages_round_robin_example :
  length example_dependencies = length example_boundaries
  /\ (forall (c : nat) deps row g,
        example_dependencies !! c = Some deps -> (row, g) ∈ deps ->
        0 <= row < Z.of_nat (length example_boundaries))
  /\ exists asg,
       dependencies_to_messages example_dependencies example_boundaries
         example_boundaries = Some example_messages
       /\ length asg = 4%nat
       /\ forall q : nat, Z.of_nat q < 2 * 2 ->
            example_messages !! q
            = Some (flat_map (assignment_messages q) asg).
Proof.
  assert (H1 : length example_dependencies = length example_boundaries)
    by reflexivity.
  assert (H2 : forall (c : nat) deps row g,
             example_dependencies !! c = Some deps -> (row, g) ∈ deps ->
             0 <= row < Z.of_nat (length example_boundaries))
    by (intros c deps row g;
        apply (find_column_dependencies_keys example_boundaries
                 example_boundaries)).
  split; [exact H1|]. split; [exact H2|].
  destruct (dependencies_to_messages_round_robin example_dependencies
              example_boundaries example_boundaries H1 H2)
    as (msgs & asg & Hmsgs & Hlen & Hlists & _).
  assert (Hex : dependencies_to_messages example_dependencies
                  example_boundaries example_boundaries
                = Some example_messages) by reflexivity.
  assert (msgs = example_messages) as Heq by congruence.
  exists asg. split; [exact Hex|]. split; [exact Hlen|].
  rewrite <- Heq. exact Hlists.
Defined.


(** The memory check on a one-dimensional problem of two elements: under
    a budget of 1 MB both products are built. *)
Example wavelet_to_realspace_1d :
  wavelet_to_realspace double_precision pde_1d table_1d 1
  = ([kron_built 0 (4, 2); kron_built 1 (4, 2)], true).
Proof. vm_compute. reflexivity. Qed.

(** The size compared with the budget is in whole megabytes: one operand
    of 20480 x 10 doubles is 1.6384 MB and counts as 1. *)
Example kron_matrix_MB_whole_megabytes :
  kron_matrix_MB double_precision [mk_matrix_view 0 20479 0 9] = 1.
Proof. vm_compute. reflexivity. Qed.

(** ** The standalone generator [mpi_instructions] *)

Lemma interval_of_dependency_of interval :
  interval_of (dependency_of interval) = interval.
Proof. destruct interval. reflexivity. Qed.

Lemma dependency_of_interval_of dep : dependency_of (interval_of dep) = dep.
Proof. destruct dep as [r [a b]]. reflexivity. Qed.

Lemma dependencies_of_intervals_of deps :
  dependencies_of (intervals_of deps) = deps.
Proof.
  unfold dependencies_of, intervals_of. rewrite map_map.
  rewrite <- (map_id deps) at 2. apply map_ext. apply dependency_of_interval_of.
Qed.

(** The inner loops of the two interval sweeps build the same entries. *)
Lemma row_space_rows_column_rows c_start c_end rows :
  forall r r_start (deps : rows_to_range),
    Forall (fun kv => fst kv < r) deps ->
    row_space_rows c_start c_end r r_start rows (intervals_of deps)
    = intervals_of (column_rows c_start c_end r r_start rows deps).
Proof.
  induction rows as [|r_end rows IH]; intros r r_start deps Hkeys; simpl;
    [reflexivity|].
  rewrite !Z.geb_leb.
  destruct ((r_start <=? c_start) && (c_start <=? r_end)
            || (c_start <=? r_start) && (r_start <=? c_end)).
  - rewrite (rows_emplace_append r _ deps Hkeys).
    rewrite <- (IH (r + 1) (r_end + 1)).
    + unfold intervals_of. rewrite map_app. reflexivity.
    + apply Forall_app. split; [|repeat constructor; simpl; lia].
      eapply Forall_impl; [exact Hkeys|]. simpl. intros; lia.
  - apply IH. eapply Forall_impl; [exact Hkeys|]. simpl. intros; lia.
Qed.

Lemma row_space_columns_dependencies r_stop cols :
  forall c_start,
    row_space_columns c_start r_stop cols
    = intervals_of <$> find_column_dependencies_from c_start r_stop cols.
Proof.
  induction cols as [|c_end cols IH]; intros c_start; simpl; [reflexivity|].
  f_equal; [|apply IH].
  apply (row_space_rows_column_rows c_start c_end r_stop 0 0 []).
  constructor.
Qed.

Lemma gen_row_space_intervals_dependencies r_stop c_stop :
  dependencies_of <$> gen_row_space_intervals r_stop c_stop
  = find_column_dependencies r_stop c_stop.
Proof.
  unfold gen_row_space_intervals, find_column_dependencies.
  rewrite row_space_columns_dependencies.
  rewrite <- list_fmap_compose.
  rewrite <- (list_fmap_id (find_column_dependencies_from 0 r_stop c_stop)) at 2.
  apply list_fmap_ext. intros _ deps _. simpl.
  apply dependencies_of_intervals_of.
Qed.

(** X3.  On every pair of stop-index lists the interval sweep of the
    standalone generator and [find_column_dependencies] compute the same
    thing: column by column the same row indices with the same sub-ranges,
    in the same order. *)
Theorem gen_row_space_intervals_refines (r_stop c_stop : list Z) :
  gen_row_space_intervals r_stop c_stop
  = intervals_of <$> find_column_dependencies r_stop c_stop
  /\ find_column_dependencies r_stop c_stop
     = dependencies_of <$> gen_row_space_intervals r_stop c_stop.
Proof.
  split.
  - unfold gen_row_space_intervals, find_column_dependencies.
    apply row_space_columns_dependencies.
  - symmetry. apply gen_row_space_intervals_dependencies.
Qed.

(** *** [gen_mpi_messages] as a run of passes *)

Lemma at_index_fmap {A B} (f : A -> B) (v : list A) i :
  at_index (f <$> v) i = f <$> at_index v i.
Proof.
  unfold at_index. destruct (i <? 0); [reflexivity|].
  apply list_lookup_fmap.
Qed.

(** Queueing an [mpi_message] is pushing the [message] it stands for. *)
Lemma queue_mpi_message_push instructions index item :
  schedule_of <$> queue_mpi_message instructions index item
  = push_message (schedule_of instructions) index (message_of item).
Proof.
  unfold queue_mpi_message, push_message, schedule_of. rewrite at_index_fmap.
  destruct (at_index instructions index) as [l|]; simpl; [|reflexivity].
  rewrite list_fmap_insert, fmap_app. reflexivity.
Qed.

Lemma gen_mpi_nested_loops row_space_intervals r_stop c_stop st :
  gen_mpi_messages row_space_intervals r_stop c_stop st
  = for_each (gen_mpi_iteration_step (Z.of_nat (length c_stop))) st
      (iterations (dependencies_of <$> row_space_intervals)
         (Z.of_nat (length r_stop))).
Proof.
  unfold gen_mpi_messages, iterations. rewrite length_fmap.
  rewrite <- for_each_flat_map.
  apply for_each_ext. intros s c Hc.
  apply elem_of_seqZ in Hc.
  unfold gen_mpi_column_step, column_iterations.
  rewrite at_index_fmap.
  destruct (at_index_is_Some row_space_intervals c) as [_ Hsome].
  destruct Hsome as [nar_vec Hvec]; [lia|]. rewrite Hvec. simpl.
  rewrite <- for_each_flat_map.
  clear Hvec. revert s.
  induction nar_vec as [|interval nar_vec IH]; intros s; simpl; [reflexivity|].
  assert (Hrow : gen_mpi_interval_step (Z.of_nat (length r_stop))
                   (Z.of_nat (length c_stop)) c s interval
                 = for_each (gen_mpi_iteration_step (Z.of_nat (length c_stop))) s
                     (dependency_iterations (Z.of_nat (length r_stop)) c
                        (dependency_of interval))).
  { unfold gen_mpi_interval_step, dependency_iterations.
    generalize (seqZ 0 (Z.of_nat (length r_stop))). intros l. revert s.
    induction l as [|r l IHl]; intros s; simpl; [reflexivity|].
    unfold gen_mpi_iteration_step at 1. simpl.
    change (interval_of (_, _)) with (interval_of (dependency_of interval)).
    rewrite interval_of_dependency_of.
    destruct (gen_mpi_message_step _ _ _ _ _); [apply IHl|reflexivity]. }
  rewrite Hrow.
  destruct (for_each _ s (dependency_iterations _ _ _)); [apply IH|reflexivity].
Qed.

Lemma schedule_of_length instructions :
  length (schedule_of instructions) = length instructions.
Proof. unfold schedule_of. apply length_fmap. Qed.

(** One pass: the assignment it makes and what it queues where. *)
Lemma gen_mpi_iteration_step_Some num_cols wheels instructions it st' :
  gen_mpi_iteration_step num_cols
    (mk_mpi_instructions_state wheels instructions) it = Some st' ->
  exists s,
    from_linear_index num_cols (it_column it)
      (interval_of (it_row it, it_limits it)) (it_receiver_row it) wheels
    = Some (s, row_row_round_robin_wheel st')
    /\ length (mpi_instruction st') = length instructions
    /\ forall q : nat,
         schedule_of (mpi_instruction st') !! q
         = (fun l => l ++ assignment_messages q
                            (mk_assignment s
                               (receiver_rank num_cols (it_column it)
                                  (it_receiver_row it))
                               (it_limits it)))
             <$> schedule_of instructions !! q.
Proof.
  unfold gen_mpi_iteration_step, gen_mpi_message_step. simpl. intros H.
  destruct (at_index instructions _) as [own|]; [|discriminate].
  destruct (from_linear_index _ _ _ _ _) as [[s wheels']|]; [|discriminate].
  destruct (queue_mpi_message instructions _ _) as [queued|] eqn:H1;
    [|discriminate].
  destruct (queue_mpi_message queued _ _) as [queued'|] eqn:H2;
    [|discriminate].
  injection H as <-. simpl.
  apply (f_equal (fmap schedule_of)) in H1, H2.
  rewrite queue_mpi_message_push in H1, H2. simpl in H1, H2.
  destruct (push_message_Some _ _ _ _ H1) as (_ & Hlen1 & Hlk1).
  destruct (push_message_Some _ _ _ _ H2) as (_ & Hlen2 & Hlk2).
  rewrite !schedule_of_length in *.
  exists s. split; [reflexivity|]. split; [congruence|].
  intros q. rewrite Hlk2, Hlk1.
  unfold assignment_messages, message_of, receiver_rank. simpl.
  destruct (it_limits it) as [a b]. simpl.
  destruct (schedule_of instructions !! q); simpl; [|reflexivity].
  rewrite <- app_assoc. reflexivity.
Qed.

(** A run of passes: its assignments and the lists it leaves. *)
Lemma for_each_assignments_by_receiver num_cols its :
  forall wheels instructions st',
    for_each (gen_mpi_iteration_step num_cols)
      (mk_mpi_instructions_state wheels instructions) its = Some st' ->
    exists asg,
      assignments_by_receiver num_cols wheels its = Some asg
      /\ length (mpi_instruction st') = length instructions
      /\ forall q : nat,
           schedule_of (mpi_instruction st') !! q
           = (fun l => l ++ flat_map (assignment_messages q) asg)
               <$> schedule_of instructions !! q.
Proof.
  induction its as [|it its IH]; intros wheels instructions st' Hrun;
    simpl in *.
  - injection Hrun as <-. exists []. simpl. split; [reflexivity|].
    split; [reflexivity|]. intros q.
    destruct (schedule_of instructions !! q); simpl;
      [rewrite app_nil_r|]; reflexivity.
  - destruct (gen_mpi_iteration_step num_cols _ it)
      as [[wheels1 instructions1]|] eqn:Hstep; [|discriminate].
    destruct (gen_mpi_iteration_step_Some _ _ _ _ _ Hstep)
      as (s & Hs & Hlen & Hlk).
    simpl in Hs, Hlen, Hlk.
    destruct (IH _ _ _ Hrun) as (asg & Hasg & Hlen' & Hlk').
    rewrite Hs, Hasg. eexists. split; [reflexivity|].
    split; [congruence|]. intros q. rewrite Hlk', Hlk. simpl.
    destruct (schedule_of instructions !! q); simpl; [|reflexivity].
    rewrite <- app_assoc. reflexivity.
Qed.

Lemma assignments_by_receiver_length num_cols its :
  forall wheels asg,
    assignments_by_receiver num_cols wheels its = Some asg ->
    length asg = length its.
Proof.
  induction its as [|it its IH]; intros wheels asg H; simpl in *.
  - injection H as <-. reflexivity.
  - destruct (from_linear_index _ _ _ _ _) as [[s wheels']|]; [|discriminate].
    destruct (assignments_by_receiver _ _ _) as [rest|] eqn:Hrest;
      [|discriminate].
    injection H as <-. simpl. erewrite IH; eauto.
Qed.

Lemma assignments_by_receiver_keys num_cols its :
  forall wheels asg,
    assignments_by_receiver num_cols wheels its = Some asg ->
    assignment_key <$> asg = iteration_key num_cols <$> its.
Proof.
  induction its as [|it its IH]; intros wheels asg H; simpl in *.
  - injection H as <-. reflexivity.
  - destruct (from_linear_index _ _ _ _ _) as [[s wheels']|]; [|discriminate].
    destruct (assignments_by_receiver _ _ _) as [rest|] eqn:Hrest;
      [|discriminate].
    injection H as <-. rewrite !fmap_cons. f_equal. eapply IH; eauto.
Qed.

(** What the choice of [from_linear_index] returns and does to the
    wheels. *)
Lemma from_linear_index_spec num_cols c row lim r wheels s wheels' :
  wheels_ok num_cols wheels ->
  from_linear_index num_cols c (interval_of (row, lim)) r wheels
  = Some (s, wheels') ->
  wheels_ok num_cols wheels'
  /\ length wheels' = length wheels
  /\ (row = r -> s = receiver_rank num_cols c r /\ wheels' = wheels)
  /\ (row <> r ->
        0 <= r < Z.of_nat (length wheels)
        /\ s = row * num_cols + wheel_index wheels r
        /\ 0 <= wheel_index wheels r < num_cols
        /\ forall r',
             wheel_index wheels' r' mod num_cols
             = (wheel_index wheels r'
                + (if decide (r' = r) then 1 else 0)) mod num_cols).
Proof.
  intros Hok H. unfold from_linear_index in H.
  change (mpi_node_and_range.linear_index (interval_of (row, lim)))
    with row in H.
  destruct (Z.eqb_spec row r) as [Heq|Hne]; cbn [negb] in H.
  - injection H as <- <-. split; [exact Hok|]. split; [reflexivity|].
    split; [auto|]. intros; contradiction.
  - destruct (at_index wheels r) as [w|] eqn:Hw; [|discriminate].
    pose proof (proj1 (at_index_is_Some wheels r) ltac:(eauto)) as Hr.
    pose proof Hw as Hw'. apply at_index_Some in Hw' as [_ Hlk].
    pose proof (proj1 (Forall_lookup _ _) Hok _ _ Hlk) as [Hsz Hidx].
    destruct (spin_spec num_cols w Hsz Hidx) as (Hn & Hsz' & Hidx' & Hmod).
    destruct (spin w) as [n w'] eqn:Hspin. simpl in *. injection H as <- <-.
    split; [apply Forall_insert; [exact Hok|auto]|].
    split; [apply length_insert|]. split; [intros; contradiction|].
    intros _. split; [exact Hr|].
    assert (Hwi : wheel_index wheels r = current_index w)
      by (unfold wheel_index; rewrite Hw; reflexivity).
    rewrite Hwi. split; [congruence|]. split; [lia|].
    intros r'. rewrite wheel_index_insert by exact Hr.
    case_decide as Heq.
    + subst r'. rewrite Hwi. exact Hmod.
    + rewrite Z.add_0_r. reflexivity.
Qed.

Lemma receiver_spins_nil r : receiver_spins r [] = 0.
Proof. reflexivity. Qed.

Lemma receiver_spins_cons r it its :
  receiver_spins r (it :: its)
  = (if decide (it_receiver_row it = r /\ it_row it <> r) then 1 else 0)
    + receiver_spins r its.
Proof.
  unfold receiver_spins. rewrite filter_cons. case_decide; simpl; lia.
Qed.

(** The assignment of pass [k] of [gen_mpi_messages]: the receiver is rank
    [r * num_cols + c]; the sender is the receiver itself when the interval
    belongs to its own row, and otherwise the member of the interval's row
    at the index the wheel of the receiving row has reached. *)
Lemma assignments_by_receiver_senders num_cols its :
  0 < num_cols ->
  forall wheels asg,
    wheels_ok num_cols wheels ->
    assignments_by_receiver num_cols wheels its = Some asg ->
    forall (k : nat) it a,
      its !! k = Some it -> asg !! k = Some a ->
      limits a = it_limits it
      /\ receiver a = it_receiver_row it * num_cols + it_column it
      /\ (it_row it = it_receiver_row it -> sender a = receiver a)
      /\ (it_row it <> it_receiver_row it ->
            sender a
            = it_row it * num_cols
              + (wheel_index wheels (it_receiver_row it)
                 + receiver_spins (it_receiver_row it) (take k its))
                mod num_cols).
Proof.
  intros Hnc.
  induction its as [|it0 its IH]; intros wheels asg Hok Hasg k it a Hk Ha;
    [destruct k; discriminate|].
  simpl in Hasg.
  destruct (from_linear_index _ _ _ _ _) as [[s wheels']|] eqn:Hs;
    [|discriminate].
  destruct (assignments_by_receiver _ wheels' its) as [rest|] eqn:Hrest;
    [|discriminate].
  injection Hasg as <-.
  destruct (from_linear_index_spec _ _ _ _ _ _ _ _ Hok Hs)
    as (Hok' & Hlen' & Hsame & Hother).
  destruct k as [|k]; simpl in Hk, Ha.
  - injection Hk as <-. injection Ha as <-. simpl.
    split; [reflexivity|]. split; [reflexivity|]. split.
    + intros Heq. destruct (Hsame Heq) as [-> _]. reflexivity.
    + intros Hne. destruct (Hother Hne) as (_ & -> & Hidx & _).
      rewrite receiver_spins_nil, Z.add_0_r.
      rewrite Z.mod_small by lia. reflexivity.
  - destruct (IH _ _ Hok' Hrest k it a Hk Ha) as (H1 & H2 & H4 & H5).
    split; [exact H1|]. split; [exact H2|]. split; [exact H4|].
    intros Hne. rewrite (H5 Hne). f_equal. simpl take.
    rewrite receiver_spins_cons.
    destruct (decide (it_row it0 = it_receiver_row it0)) as [Heq0|Hne0].
    + destruct (Hsame Heq0) as [_ ->].
      case_decide as Hd; [|f_equal; lia].
      destruct Hd as [Hd1 Hd2]. congruence.
    + destruct (Hother Hne0) as (_ & _ & _ & Hmod).
      rewrite Z.add_mod by lia. rewrite Hmod. rewrite <- Z.add_mod by lia.
      f_equal.
      destruct (decide (it_receiver_row it = it_receiver_row it0))
        as [Heq|Hneq].
      * case_decide as Hd; [lia|]. exfalso. apply Hd. split; congruence.
      * case_decide as Hd; [|lia]. destruct Hd. congruence.
Qed.

Lemma queue_mpi_message_returns instructions index item :
  0 <= index < Z.of_nat (length instructions) ->
  exists queued,
    queue_mpi_message instructions index item = Some queued
    /\ length queued = length instructions.
Proof.
  intros Hr. unfold queue_mpi_message.
  destruct (proj2 (at_index_is_Some instructions index) Hr) as [l ->].
  eexists. split; [reflexivity|]. apply length_insert.
Qed.

(** A run of in-range passes of [gen_mpi_messages] never aborts. *)
Lemma for_each_gen_mpi_returns num_rows num_cols its :
  Forall (iteration_in_grid num_rows num_cols) its ->
  forall wheels instructions,
    wheels_ok num_cols wheels ->
    Z.of_nat (length wheels) = num_rows ->
    Z.of_nat (length instructions) = num_rows * num_cols ->
    is_Some (for_each (gen_mpi_iteration_step num_cols)
               (mk_mpi_instructions_state wheels instructions) its).
Proof.
  induction its as [|it its IH]; intros Hall wheels instructions Hok Hw Hm;
    simpl; [eauto|].
  apply Forall_cons in Hall as [(Hc & Hrow & Hr) Hall'].
  unfold gen_mpi_iteration_step at 1. unfold gen_mpi_message_step. simpl.
  destruct (proj2 (at_index_is_Some instructions
                     (it_receiver_row it * num_cols + it_column it))
              ltac:(nia)) as [own ->].
  destruct (from_linear_index num_cols (it_column it)
              (interval_of (it_row it, it_limits it))
              (it_receiver_row it) wheels) as [[s wheels']|] eqn:Hs.
  2:{ unfold from_linear_index in Hs. simpl in Hs.
      destruct (negb (it_row it =? it_receiver_row it)); [|discriminate].
      destruct (proj2 (at_index_is_Some wheels (it_receiver_row it))
                  ltac:(lia)) as [w Hwl].
      rewrite Hwl in Hs. destruct (spin w). discriminate. }
  destruct (from_linear_index_spec _ _ _ _ _ _ _ _ Hok Hs)
    as (Hok' & Hlen' & Hsame & Hother).
  assert (Hsend : 0 <= s < num_rows * num_cols).
  { destruct (decide (it_row it = it_receiver_row it)) as [Heq|Hne].
    - destruct (Hsame Heq) as [-> _]. unfold receiver_rank. nia.
    - destruct (Hother Hne) as (_ & -> & Hidx & _). nia. }
  match goal with
  | |- context [queue_mpi_message instructions ?i ?m] =>
      destruct (queue_mpi_message_returns instructions i m ltac:(nia))
        as (queued & -> & Hlen1)
  end.
  match goal with
  | |- context [queue_mpi_message queued ?i ?m] =>
      destruct (queue_mpi_message_returns queued i m ltac:(lia))
        as (queued' & -> & Hlen2)
  end.
  apply IH; [exact Hall'|exact Hok'|lia|lia].
Qed.

(** What the constructor returns: the lists of the assignments made by the
    passes over the dependencies of [find_column_dependencies], started
    with every wheel at 0. *)
Lemma mpi_instructions_Some r_stop c_stop instructions :
  mpi_instructions r_stop c_stop = Some instructions ->
  let num_rows := Z.of_nat (length r_stop) in
  let num_cols := Z.of_nat (length c_stop) in
  length instructions = (length r_stop * length c_stop)%nat
  /\ exists asg,
       assignments_by_receiver num_cols
         (replicate (length r_stop) (new_wheel num_cols))
         (iterations (find_column_dependencies r_stop c_stop) num_rows)
       = Some asg
       /\ forall q : nat, (q < length r_stop * length c_stop)%nat ->
            schedule_of instructions !! q
            = Some (flat_map (assignment_messages q) asg).
Proof.
  intros H num_rows num_cols. unfold mpi_instructions in H.
  rewrite gen_mpi_nested_loops in H.
  rewrite gen_row_space_intervals_dependencies in H.
  destruct (for_each _ _ _) as [st'|] eqn:Hrun; [|discriminate].
  injection H as <-.
  destruct (for_each_assignments_by_receiver _ _ _ _ _ Hrun)
    as (asg & Hasg & Hlen' & Hlk).
  rewrite length_replicate in Hlen'. split; [exact Hlen'|].
  exists asg. split; [exact Hasg|].
  intros q Hq. rewrite Hlk. unfold schedule_of at 1.
  rewrite list_lookup_fmap, lookup_replicate_2 by exact Hq.
  reflexivity.
Qed.

(** The constructor returns on every pair of stop-index lists. *)
Lemma mpi_instructions_returns r_stop c_stop :
  is_Some (mpi_instructions r_stop c_stop).
Proof.
  unfold mpi_instructions.
  rewrite gen_mpi_nested_loops, gen_row_space_intervals_dependencies.
  destruct (length c_stop) as [|n] eqn:Hcb.
  { pose proof (find_column_dependencies_length r_stop c_stop) as Hl.
    rewrite Hcb in Hl.
    destruct (find_column_dependencies r_stop c_stop); [|discriminate].
    simpl. eauto. }
  rewrite <- Hcb.
  destruct (for_each_gen_mpi_returns (Z.of_nat (length r_stop))
              (Z.of_nat (length c_stop))
              (iterations (find_column_dependencies r_stop c_stop)
                 (Z.of_nat (length r_stop)))
              ltac:(apply Forall_forall; intros it Hit;
                    apply elem_of_iterations in Hit
                      as (Hc & Hr & deps & Hdeps & Hin);
                    rewrite find_column_dependencies_length in Hc;
                    split; [lia|]; split; [|exact Hr];
                    eapply find_column_dependencies_keys; eauto)
              (replicate (length r_stop) (new_wheel (Z.of_nat (length c_stop))))
              (replicate (length r_stop * length c_stop) (@nil mpi_message)))
    as [st' Hst'].
  - apply wheels_ok_replicate. left. lia.
  - rewrite length_replicate. reflexivity.
  - rewrite length_replicate. lia.
  - rewrite Hst'. simpl. eauto.
Qed.

Lemma find_column_dependencies_in_grid r_stop c_stop it :
  it ∈ iterations (find_column_dependencies r_stop c_stop)
         (Z.of_nat (length r_stop)) ->
  iteration_in_grid (Z.of_nat (length r_stop)) (Z.of_nat (length c_stop)) it.
Proof.
  intros Hit.
  apply elem_of_iterations in Hit as (Hc & Hr & deps & Hdeps & Hin).
  rewrite find_column_dependencies_length in Hc.
  split; [lia|]. split; [|exact Hr].
  eapply find_column_dependencies_keys; eauto.
Qed.

(** Senders and receivers of the standalone generator are ranks of the
    grid, and a sender belongs to the row of the interval it sends. *)
Lemma assignments_by_receiver_in_grid r_stop c_stop asg (k : nat) it a :
  let num_rows := Z.of_nat (length r_stop) in
  let num_cols := Z.of_nat (length c_stop) in
  let its := iterations (find_column_dependencies r_stop c_stop) num_rows in
  assignments_by_receiver num_cols
    (replicate (length r_stop) (new_wheel num_cols)) its = Some asg ->
  its !! k = Some it -> asg !! k = Some a ->
  0 < num_cols
  /\ iteration_in_grid num_rows num_cols it
  /\ limits a = it_limits it
  /\ receiver a = it_receiver_row it * num_cols + it_column it
  /\ (it_row it = it_receiver_row it -> sender a = receiver a)
  /\ (it_row it <> it_receiver_row it ->
        sender a
        = it_row it * num_cols
          + receiver_spins (it_receiver_row it) (take k its) mod num_cols)
  /\ it_row it * num_cols <= sender a < (it_row it + 1) * num_cols.
Proof.
  intros num_rows num_cols its Hasg Hit Ha.
  pose proof (find_column_dependencies_in_grid _ _ _
                (list_elem_of_lookup_2 _ _ _ Hit)) as Hgrid.
  assert (Hnc : 0 < num_cols) by (destruct Hgrid as (Hc & _); unfold num_cols; lia).
  destruct (assignments_by_receiver_senders num_cols its Hnc _ _
              (wheels_ok_replicate num_cols (length r_stop) (or_introl Hnc))
              Hasg k it a Hit Ha) as (H1 & H2 & H4 & H5).
  split; [exact Hnc|]. split; [exact Hgrid|]. split; [exact H1|].
  split; [exact H2|]. split; [exact H4|].
  assert (H5' : it_row it <> it_receiver_row it ->
                sender a
                = it_row it * num_cols
                  + receiver_spins (it_receiver_row it) (take k its)
                    mod num_cols).
  { intros Hne. rewrite (H5 Hne).
    rewrite wheel_index_replicate by reflexivity.
    rewrite Z.add_0_l. reflexivity. }
  split; [exact H5'|].
  destruct Hgrid as (Hc & Hrow & Hr).
  destruct (decide (it_row it = it_receiver_row it)) as [Heq|Hne].
  - rewrite (H4 Heq), H2, Heq. lia.
  - rewrite (H5' Hne).
    pose proof (Z.mod_pos_bound
                  (receiver_spins (it_receiver_row it) (take k its))
                  num_cols Hnc).
    lia.
Qed.

(** X4.  [mpi_instructions] returns on every pair of stop-index lists, one
    instruction list per subgrid, and these lists are those of one
    assignment per pass (column interval, row interval of it, receiving
    row), in loop order.  The receiver of a pass is node
    [r * num_cols + c]; when the interval belongs to the receiver's own row
    the sender is the receiver itself; otherwise the sender is
    [row * num_cols + w], where [row] is the row of the interval and
    [0 <= w < num_cols] is the number of earlier passes that spun the wheel
    of the receiving row [r], modulo [num_cols]: the wheels count per
    receiving row, not per row of the data. *)
Theorem mpi_instructions_round_robin (r_stop c_stop : list Z) :
  let num_rows := Z.of_nat (length r_stop) in
  let num_cols := Z.of_nat (length c_stop) in
  let its := iterations (find_column_dependencies r_stop c_stop) num_rows in
  exists instructions asg,
    mpi_instructions r_stop c_stop = Some instructions
    /\ length instructions = (length r_stop * length c_stop)%nat
    /\ length asg = length its
    /\ (forall q : nat, (q < length r_stop * length c_stop)%nat ->
          schedule_of instructions !! q
          = Some (flat_map (assignment_messages q) asg))
    /\ forall (k : nat) it, its !! k = Some it ->
         exists a,
           asg !! k = Some a
           /\ limits a = it_limits it
           /\ receiver a = it_receiver_row it * num_cols + it_column it
           /\ (it_row it = it_receiver_row it -> sender a = receiver a)
           /\ (it_row it <> it_receiver_row it ->
                 let w := receiver_spins (it_receiver_row it) (take k its)
                          mod num_cols in
                 0 <= w < num_cols
                 /\ 0 <= it_row it < num_rows
                 /\ sender a = it_row it * num_cols + w).
Proof.
  intros num_rows num_cols its.
  destruct (mpi_instructions_returns r_stop c_stop) as [instructions Hret].
  destruct (mpi_instructions_Some _ _ _ Hret) as (Hlen & asg & Hasg & Hlists).
  fold num_rows num_cols in Hasg. fold its in Hasg.
  pose proof (assignments_by_receiver_length _ _ _ _ Hasg) as Hlen_asg.
  exists instructions, asg.
  split; [exact Hret|]. split; [exact Hlen|]. split; [exact Hlen_asg|].
  split; [exact Hlists|].
  intros k it Hk.
  destruct (lookup_lt_is_Some_2 asg k) as [a Ha].
  { rewrite Hlen_asg. eapply lookup_lt_Some; eauto. }
  destruct (assignments_by_receiver_in_grid r_stop c_stop asg k it a
              Hasg Hk Ha) as (Hnc & (Hc & Hrow & Hr) & H1 & H2 & H4 & H5 & _).
  exists a. split; [exact Ha|]. split; [exact H1|]. split; [exact H2|].
  split; [exact H4|]. intros Hne w.
  split; [apply Z.mod_pos_bound; exact Hnc|]. split; [exact Hrow|].
  apply (H5 Hne).
Qed.

(** *** The two generators side by side *)

(** Per pass, what [dependencies_to_messages] decides on the dependencies
    of [find_column_dependencies]. *)
Lemma assignments_in_grid r_stop c_stop asg (k : nat) it a :
  let num_rows := Z.of_nat (length r_stop) in
  let num_cols := Z.of_nat (length c_stop) in
  let its := iterations (find_column_dependencies r_stop c_stop) num_rows in
  assignments num_cols
    (replicate (length r_stop) (new_wheel num_cols)) its = Some asg ->
  its !! k = Some it -> asg !! k = Some a ->
  0 < num_cols
  /\ iteration_in_grid num_rows num_cols it
  /\ limits a = it_limits it
  /\ receiver a = it_receiver_row it * num_cols + it_column it
  /\ (it_row it = it_receiver_row it -> sender a = receiver a)
  /\ (it_row it <> it_receiver_row it ->
        sender a
        = it_row it * num_cols + spins (it_row it) (take k its) mod num_cols)
  /\ it_row it * num_cols <= sender a < (it_row it + 1) * num_cols.
Proof.
  intros num_rows num_cols its Hasg Hit Ha.
  pose proof (find_column_dependencies_in_grid _ _ _
                (list_elem_of_lookup_2 _ _ _ Hit)) as Hgrid.
  assert (Hnc : 0 < num_cols) by (destruct Hgrid as (Hc & _); unfold num_cols; lia).
  destruct (assignments_senders num_cols its Hnc _ _
              (wheels_ok_replicate num_cols (length r_stop) (or_introl Hnc))
              Hasg k it a Hit Ha) as (H1 & H2 & _ & H4 & H5).
  split; [exact Hnc|]. split; [exact Hgrid|]. split; [exact H1|].
  split; [exact H2|]. split; [exact H4|].
  assert (H5' : it_row it <> it_receiver_row it ->
                sender a
                = it_row it * num_cols
                  + spins (it_row it) (take k its) mod num_cols).
  { intros Hne. rewrite (H5 Hne).
    rewrite wheel_index_replicate by reflexivity.
    rewrite Z.add_0_l. reflexivity. }
  split; [exact H5'|].
  destruct Hgrid as (Hc & Hrow & Hr).
  destruct (decide (it_row it = it_receiver_row it)) as [Heq|Hne].
  - rewrite (H4 Heq), H2, Heq. lia.
  - rewrite (H5' Hne).
    pose proof (Z.mod_pos_bound (spins (it_row it) (take k its))
                  num_cols Hnc).
    lia.
Qed.

Lemma row_of_rank num_cols row x :
  0 < num_cols -> row * num_cols <= x < (row + 1) * num_cols ->
  x / num_cols = row.
Proof.
  intros Hnc Hx. symmetry. apply (Z.div_unique x num_cols row (x - row * num_cols)); lia.
Qed.

Lemma receives_app num_cols l1 l2 :
  receives num_cols (l1 ++ l2) = receives num_cols l1 ++ receives num_cols l2.
Proof. unfold receives. rewrite filter_app, fmap_app. reflexivity. Qed.

Lemma local_messages_app q l1 l2 :
  local_messages q (l1 ++ l2) = local_messages q l1 ++ local_messages q l2.
Proof. unfold local_messages. apply filter_app. Qed.

(** Assignments that agree up to the sender's place in its row leave the
    same receives and the same local copies on every list. *)
Lemma same_row_assignment_messages num_cols (q : nat) a a' :
  same_row_assignment num_cols a a' ->
  receives num_cols (assignment_messages q a)
  = receives num_cols (assignment_messages q a')
  /\ local_messages q (assignment_messages q a)
     = local_messages q (assignment_messages q a').
Proof.
  destruct a as [s t g], a' as [s' t' g']. unfold same_row_assignment.
  simpl. intros (<- & <- & Hs).
  unfold assignment_messages, receives, local_messages, receive_view. simpl.
  destruct Hs as [<-|(Hdiv & Hne & Hne')]; [split; reflexivity|].
  destruct (decide (t = Z.of_nat q)) as [Hq|Hq].
  - rewrite (decide_False (P := s = Z.of_nat q)) by congruence.
    rewrite (decide_False (P := s' = Z.of_nat q)) by congruence.
    simpl. rewrite !filter_cons, !filter_nil. simpl.
    rewrite Hdiv.
    rewrite (decide_False (P := s = Z.of_nat q)) by congruence.
    rewrite (decide_False (P := s' = Z.of_nat q)) by congruence.
    split; reflexivity.
  - simpl.
    destruct (decide (s = Z.of_nat q)); destruct (decide (s' = Z.of_nat q));
      rewrite ?filter_cons, ?filter_nil; simpl;
      rewrite ?(decide_False (P := t = Z.of_nat q)) by exact Hq;
      split; reflexivity.
Qed.

Lemma same_row_assignments_messages num_cols (q : nat) asg asg' :
  Forall2 (same_row_assignment num_cols) asg asg' ->
  receives num_cols (flat_map (assignment_messages q) asg)
  = receives num_cols (flat_map (assignment_messages q) asg')
  /\ local_messages q (flat_map (assignment_messages q) asg)
     = local_messages q (flat_map (assignment_messages q) asg').
Proof.
  induction 1 as [|a a' asg asg' Ha _ [IH1 IH2]]; [split; reflexivity|].
  simpl. rewrite !receives_app, !local_messages_app.
  destruct (same_row_assignment_messages num_cols q a a' Ha) as [-> ->].
  rewrite IH1, IH2. split; reflexivity.
Qed.

(** The assignments of the two generators, pass by pass. *)
Lemma generators_same_row_assignments r_stop c_stop asg asg' :
  let num_rows := Z.of_nat (length r_stop) in
  let num_cols := Z.of_nat (length c_stop) in
  let its := iterations (find_column_dependencies r_stop c_stop) num_rows in
  assignments num_cols
    (replicate (length r_stop) (new_wheel num_cols)) its = Some asg ->
  assignments_by_receiver num_cols
    (replicate (length r_stop) (new_wheel num_cols)) its = Some asg' ->
  Forall2 (same_row_assignment num_cols) asg asg'.
Proof.
  intros num_rows num_cols its Hasg Hasg'.
  pose proof (assignments_length _ _ _ _ Hasg) as Hlen.
  pose proof (assignments_by_receiver_length _ _ _ _ Hasg') as Hlen'.
  apply Forall2_same_length_lookup_2; [congruence|].
  intros k a a' Ha Ha'.
  destruct (lookup_lt_is_Some_2 its k) as [it Hit].
  { rewrite <- Hlen. eapply lookup_lt_Some; eauto. }
  destruct (assignments_in_grid r_stop c_stop asg k it a Hasg Hit Ha)
    as (Hnc & (Hc & Hrow & Hr) & H1 & H2 & H4 & _ & H6).
  destruct (assignments_by_receiver_in_grid r_stop c_stop asg' k it a'
              Hasg' Hit Ha') as (_ & _ & H1' & H2' & H4' & _ & H6').
  fold num_cols in Hnc, Hc, H2, H6, H2', H6'.
  split; [congruence|]. split; [congruence|].
  destruct (decide (it_row it = it_receiver_row it)) as [Heq|Hne].
  - left. rewrite (H4 Heq), (H4' Heq). congruence.
  - right.
    rewrite (row_of_rank num_cols (it_row it) (sender a) Hnc H6).
    rewrite (row_of_rank num_cols (it_row it) (sender a') Hnc H6').
    split; [reflexivity|].
    assert (Hrecv : forall x, it_row it * num_cols <= x < (it_row it + 1) * num_cols ->
                     x <> it_receiver_row it * num_cols + it_column it).
    { intros x Hx Heq. apply Hne.
      rewrite <- (row_of_rank num_cols (it_row it) x Hnc Hx).
      apply (row_of_rank num_cols (it_receiver_row it) x Hnc). lia. }
    split; [rewrite H2|rewrite H2']; apply Hrecv; assumption.
Qed.

(** X5.  On every pair of stop-index lists both generators return, with
    one list per rank, and for every rank the two lists hold the same
    receives in the same order, as far as the receiver can tell: the same
    ranges, each from the same subgrid row; and they hold the same local
    copies (messages that name the rank itself).  The generators can differ
    only in which rank of a row is asked to send. *)
Theorem generators_agree_on_receives (r_stop c_stop : list Z) :
  let num_cols := Z.of_nat (length c_stop) in
  exists msgs instructions,
    dependencies_to_messages (find_column_dependencies r_stop c_stop)
      r_stop c_stop = Some msgs
    /\ mpi_instructions r_stop c_stop = Some instructions
    /\ length msgs = length instructions
    /\ forall (q : nat) list_q,
         msgs !! q = Some list_q ->
         exists list_q',
           schedule_of instructions !! q = Some list_q'
           /\ receives num_cols list_q = receives num_cols list_q'
           /\ local_messages q list_q = local_messages q list_q'.
Proof.
  intros num_cols.
  destruct (dependencies_to_messages_returns
              (find_column_dependencies r_stop c_stop) r_stop c_stop)
    as [msgs Hmsgs].
  { apply find_column_dependencies_length. }
  { intros c deps r g. apply find_column_dependencies_keys. }
  destruct (dependencies_to_messages_Some _ _ _ _ Hmsgs)
    as (_ & Hmlen & asg & Hasg & Hlists).
  destruct (mpi_instructions_returns r_stop c_stop) as [instructions Hret].
  destruct (mpi_instructions_Some _ _ _ Hret)
    as (Hlen & asg' & Hasg' & Hlists').
  exists msgs, instructions.
  split; [exact Hmsgs|]. split; [exact Hret|]. split; [congruence|].
  intros q list_q Hq.
  assert (Hlt : (q < length r_stop * length c_stop)%nat).
  { rewrite <- Hmlen. eapply lookup_lt_Some; eauto. }
  rewrite (Hlists q Hlt) in Hq. injection Hq as <-.
  exists (flat_map (assignment_messages q) asg').
  split; [apply Hlists'; exact Hlt|].
  apply same_row_assignments_messages.
  apply (generators_same_row_assignments r_stop c_stop); assumption.
Qed.

(** With two subgrid rows a wheel of the one generator is the other wheel
    of the other generator. *)
Lemma spins_two_rows row r its :
  row <> r ->
  Forall (fun it => (it_row it = row \/ it_row it = r)
                    /\ (it_receiver_row it = row \/ it_receiver_row it = r))
         its ->
  spins row its = receiver_spins r its.
Proof.
  intros Hne. induction 1 as [|it its [Hrow Hr] _ IH]; [reflexivity|].
  rewrite spins_cons, receiver_spins_cons, IH.
  destruct (decide (it_row it = row /\ it_receiver_row it <> row)) as [Hd|Hd];
    destruct (decide (it_receiver_row it = r /\ it_row it <> r)) as [Hd'|Hd'];
    try reflexivity; exfalso.
  - apply Hd'. destruct Hd as [H1 H2]. split; [tauto|congruence].
  - apply Hd. destruct Hd' as [H1 H2]. split; [tauto|congruence].
Qed.

(** The senders coincide when there are at most two subgrid rows or a
    single subgrid column. *)
Lemma generators_same_assignments r_stop c_stop asg asg' :
  let num_rows := Z.of_nat (length r_stop) in
  let num_cols := Z.of_nat (length c_stop) in
  let its := iterations (find_column_dependencies r_stop c_stop) num_rows in
  (length r_stop <= 2)%nat \/ (length c_stop <= 1)%nat ->
  assignments num_cols
    (replicate (length r_stop) (new_wheel num_cols)) its = Some asg ->
  assignments_by_receiver num_cols
    (replicate (length r_stop) (new_wheel num_cols)) its = Some asg' ->
  asg = asg'.
Proof.
  intros num_rows num_cols its Hsmall Hasg Hasg'.
  pose proof (assignments_length _ _ _ _ Hasg) as Hlen.
  pose proof (assignments_by_receiver_length _ _ _ _ Hasg') as Hlen'.
  apply (list_eq_same_length _ _ (length its)); [congruence|congruence|].
  intros k a a' Hk Ha Ha'.
  destruct (lookup_lt_is_Some_2 its k Hk) as [it Hit].
  destruct (assignments_in_grid r_stop c_stop asg k it a Hasg Hit Ha)
    as (Hnc & (Hc & Hrow & Hr) & H1 & H2 & H4 & H5 & _).
  destruct (assignments_by_receiver_in_grid r_stop c_stop asg' k it a'
              Hasg' Hit Ha') as (_ & _ & H1' & H2' & H4' & H5' & _).
  fold num_cols in Hnc, Hc, H2, H5, H2', H5'. fold its in H5, H5'.
  assert (Hs : sender a = sender a').
  { destruct (decide (it_row it = it_receiver_row it)) as [Heq|Hne].
    - rewrite (H4 Heq), (H4' Heq). congruence.
    - rewrite (H5 Hne), (H5' Hne). f_equal.
      destruct Hsmall as [Hrows|Hcols].
      + rewrite (spins_two_rows (it_row it) (it_receiver_row it)); [reflexivity|exact Hne|].
        apply Forall_forall. intros it' Hit'.
        apply elem_of_take in Hit' as (j & Hj & _).
        pose proof (find_column_dependencies_in_grid _ _ _
                      (list_elem_of_lookup_2 _ _ _ Hj)) as (_ & Hrow' & Hr').
        lia.
      + replace num_cols with 1 by lia. rewrite !Z.mod_1_r. reflexivity. }
  destruct a, a'. simpl in *. congruence.
Qed.

(** The dependencies of a column interval are appended in row order. *)
Lemma column_rows_prefix cs ce rows :
  forall r rs (deps : rows_to_range),
    Forall (fun kv => fst kv < r) deps ->
    exists more, column_rows cs ce r rs rows deps = deps ++ more.
Proof.
  induction rows as [|re rows IH]; intros r rs deps Hkeys; simpl.
  - exists []. rewrite app_nil_r. reflexivity.
  - destruct ((rs <=? cs) && (cs <=? re) || (cs <=? rs) && (rs <=? ce)).
    + rewrite (rows_emplace_append r _ deps Hkeys).
      destruct (IH (r + 1) (re + 1) (deps ++ [(r, mk_grid_limits (Z.max rs cs) (Z.min re ce))]))
        as [more Hmore].
      * apply Forall_app. split; [|repeat constructor; simpl; lia].
        eapply Forall_impl; [exact Hkeys|]. simpl. intros; lia.
      * rewrite Hmore, <- app_assoc. eauto.
    + apply IH. eapply Forall_impl; [exact Hkeys|]. simpl. intros; lia.
Qed.

(** With sorted stops the first passes serve the first column interval from
    the first row interval, receiving row by receiving row. *)
Lemma first_iterations r_stop c_stop :
  sorted_stops r_stop -> sorted_stops c_stop ->
  (3 <= length r_stop)%nat -> (1 <= length c_stop)%nat ->
  exists lim rest,
    iterations (find_column_dependencies r_stop c_stop)
      (Z.of_nat (length r_stop))
    = mk_iteration 0 0 lim 0 :: mk_iteration 0 0 lim 1
      :: mk_iteration 0 0 lim 2 :: rest.
Proof.
  intros Hrb Hcb Hnr Hnc.
  destruct c_stop as [|c0 cb]; [simpl in Hnc; lia|].
  destruct r_stop as [|r0 rb]; [simpl in Hnr; lia|].
  unfold sorted_stops in Hrb, Hcb. simpl in Hrb, Hcb.
  apply andb_prop in Hrb as [Hr0 _]. apply andb_prop in Hcb as [Hc0 _].
  unfold find_column_dependencies. simpl find_column_dependencies_from.
  rewrite Hr0. simpl orb. cbv iota.
  destruct (column_rows_prefix 0 c0 rb (0 + 1) (r0 + 1)
              [(0, mk_grid_limits (Z.max 0 0) (Z.min r0 c0))])
    as [more Hmore].
  { repeat constructor. }
  rewrite Hmore. simpl app.
  exists (mk_grid_limits (Z.max 0 0) (Z.min r0 c0)).
  unfold iterations. cbn [length].
  rewrite seqZ_cons by lia. simpl flat_map.
  unfold column_iterations at 1. simpl at_index. simpl default.
  simpl flat_map. unfold dependency_iterations at 1. simpl fst. simpl snd.
  destruct rb as [|r1 [|r2 rb]]; [simpl in Hnr; lia|simpl in Hnr; lia|].
  cbn [length].
  rewrite (seqZ_cons 0) by lia. rewrite (seqZ_cons (Z.succ 0)) by lia.
  rewrite (seqZ_cons (Z.succ (Z.succ 0))) by lia.
  rewrite !fmap_cons. simpl app. eauto.
Qed.

Lemma third_assignment_head (q : nat) a0 a1 a2 rest :
  receiver a0 <> Z.of_nat q -> sender a0 <> Z.of_nat q ->
  receiver a1 <> Z.of_nat q -> sender a1 <> Z.of_nat q ->
  receiver a2 = Z.of_nat q ->
  head (flat_map (assignment_messages q) (a0 :: a1 :: a2 :: rest))
  = Some (mk_message receive (sender a2) (limits a2)).
Proof.
  intros H0 H0' H1 H1' H2. simpl. unfold assignment_messages.
  rewrite (decide_False (P := receiver a0 = Z.of_nat q)) by exact H0.
  rewrite (decide_False (P := sender a0 = Z.of_nat q)) by exact H0'.
  rewrite (decide_False (P := receiver a1 = Z.of_nat q)) by exact H1.
  rewrite (decide_False (P := sender a1 = Z.of_nat q)) by exact H1'.
  rewrite (decide_True (P := receiver a2 = Z.of_nat q)) by exact H2.
  reflexivity.
Qed.

(** X6.  For stop indices that delimit non-empty consecutive intervals,
    the standalone generator and [dependencies_to_messages] (run on the
    dependencies of [find_column_dependencies]) return the same message
    lists exactly when the grid has at most two subgrid rows or at most one
    subgrid column.  On every larger grid they differ: the third pass
    serves the first node of the third row, for which the one generator has
    spun the wheel of the data's row once and names node 1, while the other
    spins the still untouched wheel of the receiving row and names node
    0. *)
Theorem generators_agree_iff (r_stop c_stop : list Z) :
  sorted_stops r_stop -> sorted_stops c_stop ->
  exists msgs instructions,
    dependencies_to_messages (find_column_dependencies r_stop c_stop)
      r_stop c_stop = Some msgs
    /\ mpi_instructions r_stop c_stop = Some instructions
    /\ (schedule_of instructions = msgs
        <-> (length r_stop <= 2)%nat \/ (length c_stop <= 1)%nat).
Proof.
  intros Hrb Hcb.
  destruct (dependencies_to_messages_returns
              (find_column_dependencies r_stop c_stop) r_stop c_stop)
    as [msgs Hmsgs].
  { apply find_column_dependencies_length. }
  { intros c deps r g. apply find_column_dependencies_keys. }
  destruct (dependencies_to_messages_Some _ _ _ _ Hmsgs)
    as (_ & Hmlen & asg & Hasg & Hlists).
  destruct (mpi_instructions_returns r_stop c_stop) as [instructions Hret].
  destruct (mpi_instructions_Some _ _ _ Hret)
    as (Hlen & asg' & Hasg' & Hlists').
  exists msgs, instructions.
  split; [exact Hmsgs|]. split; [exact Hret|]. split.
  - intros Heq.
    destruct (le_gt_dec (length r_stop) 2) as [|Hnr]; [left; assumption|].
    destruct (le_gt_dec (length c_stop) 1) as [|Hnc]; [right; assumption|].
    exfalso.
    destruct (first_iterations r_stop c_stop Hrb Hcb ltac:(lia) ltac:(lia))
      as (lim & rest & Hits).
    set (num_cols := Z.of_nat (length c_stop)) in *.
    set (its := iterations (find_column_dependencies r_stop c_stop)
                  (Z.of_nat (length r_stop))) in *.
    pose proof (assignments_length _ _ _ _ Hasg) as Hl.
    pose proof (assignments_by_receiver_length _ _ _ _ Hasg') as Hl'.
    rewrite Hits in Hl, Hl'.
    destruct asg as [|a0 [|a1 [|a2 asg]]]; try discriminate Hl.
    destruct asg' as [|a0' [|a1' [|a2' asg']]]; try discriminate Hl'.
    assert (Hsp1 : spins 0 (take 1 its) = 0) by (rewrite Hits; reflexivity).
    assert (Hsp2 : spins 0 (take 2 its) = 1) by (rewrite Hits; reflexivity).
    assert (Hrs1 : receiver_spins 1 (take 1 its) = 0)
      by (rewrite Hits; reflexivity).
    assert (Hrs2 : receiver_spins 2 (take 2 its) = 0)
      by (rewrite Hits; reflexivity).
    assert (Hk0 : its !! 0%nat = Some (mk_iteration 0 0 lim 0))
      by (rewrite Hits; reflexivity).
    assert (Hk1 : its !! 1%nat = Some (mk_iteration 0 0 lim 1))
      by (rewrite Hits; reflexivity).
    assert (Hk2 : its !! 2%nat = Some (mk_iteration 0 0 lim 2))
      by (rewrite Hits; reflexivity).
    destruct (assignments_in_grid r_stop c_stop _ 0 _ a0 Hasg Hk0 eq_refl)
      as (_ & _ & _ & R0 & S0 & _).
    destruct (assignments_in_grid r_stop c_stop _ 1 _ a1 Hasg Hk1 eq_refl)
      as (_ & _ & _ & R1 & _ & S1 & _).
    destruct (assignments_in_grid r_stop c_stop _ 2 _ a2 Hasg Hk2 eq_refl)
      as (_ & _ & L2 & R2 & _ & S2 & _).
    destruct (assignments_by_receiver_in_grid r_stop c_stop _ 0 _ a0'
                Hasg' Hk0 eq_refl) as (_ & _ & _ & R0' & S0' & _).
    destruct (assignments_by_receiver_in_grid r_stop c_stop _ 1 _ a1'
                Hasg' Hk1 eq_refl) as (_ & _ & _ & R1' & _ & S1' & _).
    destruct (assignments_by_receiver_in_grid r_stop c_stop _ 2 _ a2'
                Hasg' Hk2 eq_refl) as (_ & _ & L2' & R2' & _ & S2' & _).
    fold num_cols its in R0, S0, R1, S1, R2, S2, R0', S0', R1', S1', R2', S2'.
    simpl in R0, S0, R1, S1, R2, S2, R0', S0', R1', S1', R2', S2', L2, L2'.
    specialize (S0 eq_refl). specialize (S0' eq_refl).
    specialize (S1 ltac:(lia)). specialize (S1' ltac:(lia)).
    specialize (S2 ltac:(lia)). specialize (S2' ltac:(lia)).
    rewrite Hsp1 in S1. rewrite Hsp2 in S2.
    rewrite Hrs1 in S1'. rewrite Hrs2 in S2'.
    rewrite Z.mod_0_l in S1, S1', S2' by lia.
    rewrite Z.mod_small in S2 by lia.
    set (q := (2 * length c_stop)%nat).
    assert (Hq : (q < length r_stop * length c_stop)%nat) by (unfold q; nia).
    pose proof (Hlists q Hq) as Hnew. pose proof (Hlists' q Hq) as Hold.
    rewrite Heq in Hold.
    assert (Hsame : flat_map (assignment_messages q) (a0 :: a1 :: a2 :: asg)
                    = flat_map (assignment_messages q)
                        (a0' :: a1' :: a2' :: asg')) by congruence.
    apply (f_equal head) in Hsame.
    rewrite !third_assignment_head in Hsame by (unfold q, num_cols in *; lia).
    injection Hsame as Hsame _. lia.
  - intros Hsmall.
    pose proof (generators_same_assignments r_stop c_stop asg asg' Hsmall
                  Hasg Hasg') as <-.
    apply (list_eq_same_length _ _ (length r_stop * length c_stop));
      [exact Hmlen|rewrite schedule_of_length; exact Hlen|].
    intros q l l' Hq Hl Hl'.
    rewrite (Hlists' q Hq) in Hl. rewrite (Hlists q Hq) in Hl'. congruence.
Qed.

Lemma generators_agree_iff_example :
  exists msgs instructions,
    dependencies_to_messages (find_column_dependencies [3; 7; 11] [5; 11])
      [3; 7; 11] [5; 11] = Some msgs
    /\ mpi_instructions [3; 7; 11] [5; 11] = Some instructions
    /\ (schedule_of instructions = msgs
        <-> (length [3; 7; 11] <= 2)%nat \/ (length [5; 11] <= 1)%nat).
Proof.
  apply (generators_agree_iff [3; 7; 11] [5; 11]); reflexivity.
Defined.

(** Senders and receivers of the standalone generator are nodes of the
    grid. *)
Lemma mpi_instructions_ranks_in_grid r_stop c_stop asg :
  assignments_by_receiver (Z.of_nat (length c_stop))
    (replicate (length r_stop) (new_wheel (Z.of_nat (length c_stop))))
    (iterations (find_column_dependencies r_stop c_stop)
       (Z.of_nat (length r_stop))) = Some asg ->
  forall a, a ∈ asg ->
    0 <= sender a < Z.of_nat (length r_stop * length c_stop)
    /\ 0 <= receiver a < Z.of_nat (length r_stop * length c_stop).
Proof.
  intros Hasg a Ha.
  apply list_elem_of_lookup in Ha as [k Ha].
  destruct (lookup_lt_is_Some_2
              (iterations (find_column_dependencies r_stop c_stop)
                 (Z.of_nat (length r_stop))) k) as [it Hit].
  { rewrite <- (assignments_by_receiver_length _ _ _ _ Hasg).
    eapply lookup_lt_Some; eauto. }
  destruct (assignments_by_receiver_in_grid r_stop c_stop asg k it a
              Hasg Hit Ha) as (Hnc & (Hc & Hrow & Hr) & _ & H2 & _ & _ & H6).
  rewrite H2. nia.
Qed.

(** X7.  For stop indices that delimit non-empty consecutive intervals,
    the lists of the standalone generator are symmetric as those of
    [generate_messages] are: every message on the list of a node [s] names
    a node [t] of the grid, occurs once on that list, and its partner (the
    opposite direction, naming [s], same bounds) occurs exactly once on the
    list of [t]. *)
Theorem mpi_instructions_symmetric (r_stop c_stop : list Z) :
  sorted_stops r_stop -> sorted_stops c_stop ->
  exists instructions,
    mpi_instructions r_stop c_stop = Some instructions
    /\ forall (s : nat) list_s m,
         schedule_of instructions !! s = Some list_s -> m ∈ list_s ->
         exists (t : nat) list_t,
           target m = Z.of_nat t
           /\ schedule_of instructions !! t = Some list_t
           /\ occurrences m list_s = 1%nat
           /\ occurrences (partner s m) list_t = 1%nat.
Proof.
  intros Hrb Hcb.
  destruct (mpi_instructions_returns r_stop c_stop) as [instructions Hret].
  destruct (mpi_instructions_Some _ _ _ Hret) as (Hlen & asg & Hasg & Hlists).
  exists instructions. split; [exact Hret|].
  intros s list_s m Hs Hm.
  apply (assignments_symmetric (length r_stop * length c_stop) asg
           (schedule_of instructions) Hlists
           (mpi_instructions_ranks_in_grid _ _ _ Hasg)); [| |exact Hs|exact Hm].
  - rewrite (assignments_by_receiver_keys _ _ _ _ Hasg).
    apply iterations_keys_NoDup.
    + rewrite find_column_dependencies_length. reflexivity.
    + intros c deps. apply find_column_dependencies_distinct; assumption.
  - rewrite <- Hlen, <- schedule_of_length. eapply lookup_lt_Some; eauto.
Qed.

Lemma mpi_instructions_symmetric_example :
  exists instructions,
    mpi_instructions [3; 7; 11] [5; 11] = Some instructions
    /\ forall (s : nat) list_s m,
         schedule_of instructions !! s = Some list_s -> m ∈ list_s ->
         exists (t : nat) list_t,
           target m = Z.of_nat t
           /\ schedule_of instructions !! t = Some list_t
           /\ occurrences m list_s = 1%nat
           /\ occurrences (partner s m) list_t = 1%nat.
Proof.
  apply (mpi_instructions_symmetric [3; 7; 11] [5; 11]); reflexivity.
Defined.

(** X8.  On every pair of stop-index lists, the lists of the standalone
    generator can be replayed as [exchange_results] replays a schedule
    (every node walks its list in order, messages naming the node itself
    are served locally, a send completes together with the receive its
    target is blocked in) without ever getting stuck: in every
    configuration the replay can reach, either every list is consumed or a
    local step or a matching send and receive is enabled; every step
    consumes messages; and the replay can always be run to the end. *)
Theorem mpi_instructions_replay_deadlock_free (r_stop c_stop : list Z) :
  exists instructions,
    mpi_instructions r_stop c_stop = Some instructions
    /\ forall cfg : pending,
         rtc replay_step (schedule_of instructions) cfg ->
         (all_consumed cfg
          \/ (exists (q : nat) m rest,
                cfg !! q = Some (m :: rest) /\ target m = Z.of_nat q)
          \/ (exists (s t : nat) g rest_s rest_t,
                s <> t
                /\ cfg !! s = Some (mk_message send (Z.of_nat t) g :: rest_s)
                /\ cfg !! t
                   = Some (mk_message receive (Z.of_nat s) g :: rest_t)))
         /\ (forall cfg', replay_step cfg cfg' ->
               (pending_total cfg' < pending_total cfg)%nat)
         /\ (exists final, rtc replay_step cfg final /\ all_consumed final).
Proof.
  destruct (mpi_instructions_returns r_stop c_stop) as [instructions Hret].
  destruct (mpi_instructions_Some _ _ _ Hret) as (Hlen & asg & Hasg & Hlists).
  exists instructions. split; [exact Hret|].
  assert (Hinit : scheduled (length r_stop * length c_stop)
                    (schedule_of instructions)).
  { apply (assignments_scheduled _ asg); [|exact Hlists|].
    - rewrite schedule_of_length. exact Hlen.
    - apply (mpi_instructions_ranks_in_grid _ _ _ Hasg). }
  intros cfg Hrun.
  pose proof (rtc_replay_scheduled _ _ _ Hinit Hrun) as Hs.
  split; [apply (scheduled_progress _ _ Hs)|].
  split; [intros cfg'; apply replay_step_consumes|].
  apply (scheduled_completes _ _ Hs).
Qed.

(** ** Ranges of the schedule *)

(** Every entry the inner loop of [find_column_dependencies] adds is a
    visited row band that passes the test, bound to its overlap. *)
Lemma column_rows_elem cs ce rows :
  forall r0 rs0 (deps : rows_to_range) r g,
    Forall (fun kv => fst kv < r0) deps ->
    (r, g) ∈ column_rows cs ce r0 rs0 rows deps ->
    (r, g) ∈ deps
    \/ exists (j : nat) rs re,
         bands_from rs0 rows !! j = Some (rs, re)
         /\ r = r0 + Z.of_nat j
         /\ ((rs <=? cs) && (cs <=? re)) || ((cs <=? rs) && (rs <=? ce))
            = true
         /\ g = overlap (rs, re) (cs, ce).
Proof.
  induction rows as [|row_end rows IH]; intros r0 rs0 deps r g Hkeys Hin;
    simpl in Hin; [left; exact Hin|].
  destruct (((rs0 <=? cs) && (cs <=? row_end))
            || ((cs <=? rs0) && (rs0 <=? ce))) eqn:Htest.
  - rewrite (rows_emplace_append r0 _ deps Hkeys) in Hin.
    apply IH in Hin.
    + destruct Hin as [Hin|(j & rs & re & Hj & -> & Ht & ->)].
      * apply elem_of_app in Hin as [Hin|Hin]; [left; exact Hin|].
        apply list_elem_of_singleton in Hin. injection Hin as -> ->.
        right. exists 0%nat, rs0, row_end.
        split; [reflexivity|]. split; [lia|]. split; [exact Htest|reflexivity].
      * right. exists (S j), rs, re.
        split; [exact Hj|]. split; [lia|]. split; [exact Ht|reflexivity].
    + apply Forall_app. split; [|repeat constructor; simpl; lia].
      eapply Forall_impl; [exact Hkeys|]. simpl. intros; lia.
  - apply IH in Hin.
    + destruct Hin as [Hin|(j & rs & re & Hj & -> & Ht & ->)];
        [left; exact Hin|].
      right. exists (S j), rs, re.
      split; [exact Hj|]. split; [lia|]. split; [exact Ht|reflexivity].
    + eapply Forall_impl; [exact Hkeys|]. simpl. intros; lia.
Qed.

(** The range of a pass is the overlap of the row band it depends on with
    its column band, and holds an index. *)
Lemma iteration_range rb cb it :
  sorted_stops rb -> sorted_stops cb ->
  it ∈ iterations (find_column_dependencies rb cb) (Z.of_nat (length rb)) ->
  exists rs re cs ce,
    bands_from 0 rb !! Z.to_nat (it_row it) = Some (rs, re)
    /\ bands_from 0 cb !! Z.to_nat (it_column it) = Some (cs, ce)
    /\ 0 <= it_row it
    /\ it_limits it = overlap (rs, re) (cs, ce)
    /\ rs <= re /\ cs <= ce
    /\ Z.max rs cs <= Z.min re ce.
Proof.
  intros Hrb Hcb Hit.
  apply elem_of_iterations in Hit as (Hc & Hr & deps & Hdeps & Hin).
  rewrite find_column_dependencies_length in Hc.
  destruct (lookup_lt_is_Some_2 (bands_from 0 cb) (Z.to_nat (it_column it)))
    as [[cs ce] Hband].
  { rewrite bands_from_length. lia. }
  unfold find_column_dependencies in Hdeps.
  rewrite (find_column_dependencies_from_lookup _ _ _ _ _ _ Hband) in Hdeps.
  injection Hdeps as <-.
  apply column_rows_elem in Hin; [|constructor].
  destruct Hin as [Hin|(j & rs & re & Hj & Hrow & Ht & Hg)]; [inversion Hin|].
  pose proof (bands_from_nonempty _ _ _ _ _ Hrb Hj) as Hrne.
  pose proof (bands_from_nonempty _ _ _ _ _ Hcb Hband) as Hcne.
  exists rs, re, cs, ce.
  rewrite Hrow, Z.add_0_l, Nat2Z.id.
  split; [exact Hj|]. split; [exact Hband|]. split; [lia|].
  split; [exact Hg|]. split; [lia|]. split; [lia|].
  apply dependency_test_intersects in Ht; [|lia|lia].
  destruct Ht as (x & Hx1 & Hx2). simpl in *. lia.
Qed.

Section RangesOfPlan.

Variable get_num_subgrid_cols : Z -> Z.
Hypothesis cols_ok : cols_divide get_num_subgrid_cols.

(** The subgrid of a rank of the plan, read off the stop indices that
    [generate_messages] hands on. *)
Lemma plan_rank_bands num_ranks table plan (i : Z) g :
  get_plan get_num_subgrid_cols num_ranks table = Some plan ->
  plan !! i = Some g ->
  let N := table_size table in
  let splits := num_effective_ranks num_ranks in
  let cols := get_num_subgrid_cols splits in
  let rows := splits / cols in
  0 <= i < splits
  /\ 0 <= i / cols < rows /\ 0 <= i mod cols < cols
  /\ bands_from 0 (band_stops N rows) !! Z.to_nat (i / cols)
     = Some (row_start g, row_stop g)
  /\ bands_from 0 (band_stops N cols) !! Z.to_nat (i mod cols)
     = Some (col_start g, col_stop g).
Proof.
  intros Hplan Hg N splits cols rows.
  destruct (get_plan_keys _ cols_ok _ _ _ Hplan) as [Hr Hkeys].
  fold splits in Hkeys.
  pose proof (num_effective_ranks_bounds num_ranks ltac:(lia)) as Hs.
  fold splits in Hs.
  rewrite Hkeys in Hg. case_decide as Hi; [|discriminate].
  destruct (rank_of_bands _ cols_ok splits i ltac:(lia) Hi)
    as (Hbr & Hbc & _).
  fold cols in Hbr, Hbc. fold rows in Hbr.
  destruct (get_subgrid_bands _ cols_ok _ _ _ _ Hg) as (H1 & H2 & H3 & H4).
  fold cols in H1, H2, H3, H4. fold rows in H1, H2. fold N in H1, H2, H3, H4.
  split; [exact Hi|]. split; [exact Hbr|]. split; [exact Hbc|]. split.
  - rewrite band_stops_lookup by lia.
    rewrite Z2Nat.id by lia. rewrite H1, H2. reflexivity.
  - rewrite band_stops_lookup by lia.
    rewrite Z2Nat.id by lia. rewrite H3, H4. reflexivity.
Qed.

(** Every assignment of the schedule of a plan moves the part of the
    sender's rows that lies in the receiver's columns, and that part holds
    an index. *)
Lemma plan_assignment_bands num_ranks table plan asg a :
  get_plan get_num_subgrid_cols num_ranks table = Some plan ->
  (let rb := band_stops (table_size table)
               (num_effective_ranks num_ranks
                / get_num_subgrid_cols (num_effective_ranks num_ranks)) in
   let cb := band_stops (table_size table)
               (get_num_subgrid_cols (num_effective_ranks num_ranks)) in
   assignments (Z.of_nat (length cb))
     (replicate (length rb) (new_wheel (Z.of_nat (length cb))))
     (iterations (find_column_dependencies rb cb) (Z.of_nat (length rb)))
   = Some asg) ->
  a ∈ asg ->
  exists gs gt,
    plan !! sender a = Some gs /\ plan !! receiver a = Some gt
    /\ limits a = mk_grid_limits (Z.max (row_start gs) (col_start gt))
                                 (Z.min (row_stop gs) (col_stop gt))
    /\ start (limits a) <= stop (limits a).
Proof.
  intros Hplan Hasg Ha.
  destruct (generate_messages_of_plan _ cols_ok _ _ _ Hplan)
    as (_ & Hrb & Hcb & Hlrb & Hlcb & _).
  destruct (get_plan_keys _ cols_ok _ _ _ Hplan) as [Hr Hkeys].
  set (splits := num_effective_ranks num_ranks) in *.
  set (cols := get_num_subgrid_cols splits) in *.
  set (rows := splits / cols) in *.
  set (rb := band_stops (table_size table) rows) in *.
  set (cb := band_stops (table_size table) cols) in *.
  simpl in Hasg.
  pose proof (num_effective_ranks_bounds num_ranks ltac:(lia)) as Hs.
  fold splits in Hs.
  destruct (subgrid_rows_positive _ cols_ok splits ltac:(lia)) as [Hrows Hfac].
  fold cols in Hrows, Hfac. fold rows in Hrows, Hfac.
  apply list_elem_of_lookup in Ha as [k Ha].
  destruct (lookup_lt_is_Some_2
              (iterations (find_column_dependencies rb cb)
                 (Z.of_nat (length rb))) k) as [it Hit].
  { rewrite <- (assignments_length _ _ _ _ Hasg). eapply lookup_lt_Some; eauto. }
  destruct (assignments_in_grid rb cb asg k it a Hasg Hit Ha)
    as (Hnc & (Hc & Hrow & Hrr) & L & R & _ & _ & S).
  rewrite Hlcb in Hnc, Hc, R, S. rewrite Hlrb in Hrow, Hrr.
  destruct (iteration_range rb cb it Hrb Hcb (list_elem_of_lookup_2 _ _ _ Hit))
    as (rs & re & cs & ce & Brow & Bcol & _ & Hlim & _ & _ & Hne).
  assert (Hsender : 0 <= sender a < splits) by nia.
  assert (Hreceiver : 0 <= receiver a < splits) by nia.
  destruct (get_subgrid_returns get_num_subgrid_cols cols_ok splits
              (sender a) table) as [gs Hgs]; try lia.
  { apply num_effective_ranks_admissible. lia. }
  destruct (get_subgrid_returns get_num_subgrid_cols cols_ok splits
              (receiver a) table) as [gt Hgt]; try lia.
  { apply num_effective_ranks_admissible. lia. }
  assert (Hps : plan !! sender a = Some gs)
    by (rewrite Hkeys; case_decide; [exact Hgs|lia]).
  assert (Hpt : plan !! receiver a = Some gt)
    by (rewrite Hkeys; case_decide; [exact Hgt|lia]).
  destruct (plan_rank_bands _ _ _ _ _ Hplan Hps) as (_ & _ & _ & Bs & _).
  destruct (plan_rank_bands _ _ _ _ _ Hplan Hpt) as (_ & _ & _ & _ & Bt).
  fold splits cols rows in Bs, Bt. fold rb in Bs. fold cb in Bt.
  rewrite (row_of_rank cols (it_row it) (sender a) Hnc S) in Bs.
  assert (Hcol : receiver a mod cols = it_column it).
  { rewrite R. rewrite Z.add_comm, Z.mod_add by lia.
    apply Z.mod_small. lia. }
  rewrite Hcol in Bt.
  rewrite Brow in Bs. injection Bs as -> ->.
  rewrite Bcol in Bt. injection Bt as -> ->.
  exists gs, gt. split; [exact Hps|]. split; [exact Hpt|].
  rewrite L, Hlim. unfold overlap. simpl. split; [reflexivity|exact Hne].
Qed.

(** The range of a message on the list of a rank: the part of the sender's
    rows that lies in the receiver's columns. *)
Lemma plan_message_range num_ranks table plan asg (q : nat) g m :
  get_plan get_num_subgrid_cols num_ranks table = Some plan ->
  (let rb := band_stops (table_size table)
               (num_effective_ranks num_ranks
                / get_num_subgrid_cols (num_effective_ranks num_ranks)) in
   let cb := band_stops (table_size table)
               (get_num_subgrid_cols (num_effective_ranks num_ranks)) in
   assignments (Z.of_nat (length cb))
     (replicate (length rb) (new_wheel (Z.of_nat (length cb))))
     (iterations (find_column_dependencies rb cb) (Z.of_nat (length rb)))
   = Some asg) ->
  plan !! Z.of_nat q = Some g ->
  m ∈ flat_map (assignment_messages q) asg ->
  exists g',
    plan !! target m = Some g'
    /\ range m
       = match message_dir m with
         | send =>
             mk_grid_limits (Z.max (row_start g) (col_start g'))
                            (Z.min (row_stop g) (col_stop g'))
         | receive =>
             mk_grid_limits (Z.max (row_start g') (col_start g))
                            (Z.min (row_stop g') (col_stop g))
         end
    /\ start (range m) <= stop (range m).
Proof.
  intros Hplan Hasg Hg Hm.
  destruct (elem_of_assignment_messages _ _ _ Hm)
    as (a & Ha & [[-> Hqa]|[-> Hqa]]);
    destruct (plan_assignment_bands _ _ _ _ _ Hplan Hasg Ha)
      as (gs & gt & Hgs & Hgt & Hlim & Hne).
  - rewrite Hqa, Hg in Hgt. injection Hgt as <-.
    exists gs. simpl. auto.
  - rewrite Hqa, Hg in Hgs. injection Hgs as <-.
    exists gt. simpl. auto.
Qed.

(** Two row bands that hold a common index are the same band. *)
Lemma bands_from_unique first stops (j j' : nat) a b a' b' x :
  increasing_from first stops = true ->
  bands_from first stops !! j = Some (a, b) ->
  bands_from first stops !! j' = Some (a', b') ->
  a <= x <= b -> a' <= x <= b' -> j = j'.
Proof.
  intros Hinc Hj Hj' Hx Hx'.
  destruct (Nat.lt_trichotomy j j') as [Hlt|[Heq|Hgt]]; [|exact Heq|].
  - pose proof (bands_from_ordered _ _ _ _ _ _ _ _ Hinc Hj Hj' Hlt). lia.
  - pose proof (bands_from_ordered _ _ _ _ _ _ _ _ Hinc Hj' Hj Hgt). lia.
Qed.

(** X9.  In the lists [generate_messages] returns for a plan of
    [get_plan], every message on the list of a rank names a rank of the
    plan, and its range is exactly the part of the sender's rows that lies
    in the receiver's columns, which holds at least one index: a rank sends
    only rows it owns and receives only columns it needs.  And the receives
    on the list of a rank tile its column range: every index of
    [col_start .. col_stop] lies in the range of one receive of the list and
    of no other. *)
Theorem generate_messages_ranges (num_ranks : Z) (table : element_table) :
  0 < num_ranks < table_size table ->
  exists plan msgs,
    get_plan get_num_subgrid_cols num_ranks table = Some plan
    /\ generate_messages get_num_subgrid_cols plan = Some msgs
    /\ forall (q : nat) g list_q,
         plan !! Z.of_nat q = Some g -> msgs !! q = Some list_q ->
         (forall m, m ∈ list_q ->
            exists g',
              plan !! target m = Some g'
              /\ range m
                 = match message_dir m with
                   | send =>
                       mk_grid_limits (Z.max (row_start g) (col_start g'))
                                      (Z.min (row_stop g) (col_stop g'))
                   | receive =>
                       mk_grid_limits (Z.max (row_start g') (col_start g))
                                      (Z.min (row_stop g') (col_stop g))
                   end
              /\ start (range m) <= stop (range m))
         /\ (forall x, col_start g <= x <= col_stop g ->
               exists m,
                 m ∈ list_q /\ message_dir m = receive
                 /\ start (range m) <= x <= stop (range m)
                 /\ forall m', m' ∈ list_q -> message_dir m' = receive ->
                      start (range m') <= x <= stop (range m') -> m' = m).
Proof.
  intros Hr.
  destruct (generate_messages_assignments _ cols_ok num_ranks table Hr)
    as (plan & msgs & asg & Hplan & Hmsgs & Hlen & Hlists & Hrange & Hkeys
        & Hasg).
  exists plan, msgs. split; [exact Hplan|]. split; [exact Hmsgs|].
  intros q g list_q Hg Hlq.
  assert (Hq : (q < size plan)%nat).
  { rewrite <- Hlen. eapply lookup_lt_Some; eauto. }
  rewrite (Hlists q Hq) in Hlq. injection Hlq as <-.
  (* what a receive on the list of [q] is *)
  assert (Hrecv : forall m,
            m ∈ flat_map (assignment_messages q) asg ->
            message_dir m = receive ->
            exists a gs,
              a ∈ asg /\ receiver a = Z.of_nat q
              /\ m = mk_message receive (sender a) (limits a)
              /\ plan !! sender a = Some gs
              /\ limits a
                 = mk_grid_limits (Z.max (row_start gs) (col_start g))
                                  (Z.min (row_stop gs) (col_stop g))
              /\ start (limits a) <= stop (limits a)).
  { intros m Hm Hdir.
    destruct (elem_of_assignment_messages _ _ _ Hm)
      as (a & Ha & [[-> Hqa]|[-> Hqa]]); [|discriminate].
    destruct (plan_assignment_bands _ _ _ _ _ Hplan Hasg Ha)
      as (gs & gt & Hgs & Hgt & Hlim & Hne).
    rewrite Hqa, Hg in Hgt. injection Hgt as <-.
    exists a, gs. auto 10. }
  split.
  - intros m Hm. apply (plan_message_range _ _ _ _ _ _ _ Hplan Hasg Hg Hm).
  - intros x Hx.
    destruct (generate_messages_of_plan _ cols_ok _ _ _ Hplan)
      as (_ & Hrb & Hcb & Hlrb & Hlcb & _).
    destruct (plan_rank_bands _ _ _ _ _ Hplan Hg)
      as (Hqs & Hbr & Hbc & Brow & Bcol).
    destruct (get_plan_keys _ cols_ok _ _ _ Hplan) as [_ Hpk].
    set (N := table_size table) in *.
    set (splits := num_effective_ranks num_ranks) in *.
    set (cols := get_num_subgrid_cols splits) in *.
    set (rows := splits / cols) in *.
    set (rb := band_stops N rows) in *.
    set (cb := band_stops N cols) in *.
    simpl in Hasg.
    assert (Hsub : get_subgrid get_num_subgrid_cols splits (Z.of_nat q) table
                   = Some g).
    { rewrite Hpk in Hg. case_decide; [exact Hg|discriminate]. }
    destruct (get_subgrid_bounds _ cols_ok _ _ _ _ Hsub) as (_ & _ & Hc0 & HcN).
    fold N in HcN.
    destruct (band_cover N rows x ltac:(lia) ltac:(lia)) as (b & Hb & Hin).
    assert (Bb : bands_from 0 rb !! Z.to_nat b
                 = Some (band_begin N rows b, band_begin N rows (b + 1) - 1)).
    { unfold rb. rewrite band_stops_lookup by lia.
      rewrite Z2Nat.id by lia. reflexivity. }
    destruct (column_dependency_present rb cb
                (Z.to_nat (Z.of_nat q mod cols)) (Z.to_nat b)
                _ _ _ _ Bcol Bb ltac:(lia) ltac:(lia))
      as (deps & Hdeps & Hdep).
    { exists x. simpl. lia. }
    apply rows_lookup_elem in Hdep.
    pose proof (iterations_elem _ (Z.of_nat (length rb)) _ _ _ _
                  (Z.of_nat q / cols) Hdeps Hdep ltac:(lia)) as Hit.
    apply list_elem_of_lookup in Hit as [k Hk].
    destruct (lookup_lt_is_Some_2 asg k) as [a Ha].
    { rewrite (assignments_length _ _ _ _ Hasg). eapply lookup_lt_Some; eauto. }
    destruct (assignments_in_grid rb cb asg k _ a Hasg Hk Ha)
      as (Hnc & _ & L & R & _).
    simpl in L, R. rewrite Hlcb in R. rewrite !Z2Nat.id in R by lia.
    assert (Hqa : receiver a = Z.of_nat q).
    { rewrite R. pose proof (Z.div_mod (Z.of_nat q) cols ltac:(lia)). lia. }
    pose proof (list_elem_of_lookup_2 _ _ _ Ha) as Hain.
    set (m := mk_message receive (sender a) (limits a)).
    assert (Hm : m ∈ flat_map (assignment_messages q) asg).
    { apply list_elem_of_In, in_flat_map. exists a.
      split; [apply list_elem_of_In; exact Hain|].
      unfold assignment_messages. rewrite decide_True by exact Hqa.
      left. reflexivity. }
    assert (Hxa : start (limits a) <= x <= stop (limits a)).
    { rewrite L. unfold overlap. simpl. lia. }
    exists m. split; [exact Hm|]. split; [reflexivity|]. split; [exact Hxa|].
    intros m' Hm' Hdir' Hx'.
    destruct (Hrecv m' Hm' Hdir')
      as (a' & gs' & Ha' & Hqa' & -> & Hgs' & Hlim' & _).
    destruct (Hrecv m Hm eq_refl)
      as (a0 & gs & Ha0 & Hqa0 & Hm0 & Hgs & Hlim & _).
    injection Hm0 as Hs0 Hl0.
    simpl in Hx'. rewrite Hlim' in Hx'. simpl in Hx'.
    rewrite Hl0, Hlim in Hxa. simpl in Hxa.
    destruct (plan_rank_bands _ _ _ _ _ Hplan Hgs') as (_ & _ & _ & Bs' & _).
    destruct (plan_rank_bands _ _ _ _ _ Hplan Hgs) as (_ & _ & _ & Bs & _).
    fold N splits cols rows in Bs, Bs'. fold rb in Bs, Bs'.
    pose proof (bands_from_unique 0 rb _ _ _ _ _ _ x Hrb Bs Bs'
                  ltac:(lia) ltac:(lia)) as Hsame.
    rewrite Hsame, Bs' in Bs. injection Bs as Hrs Hre.
    assert (Hkey : assignment_key a' = assignment_key a0).
    { unfold assignment_key. rewrite Hqa', Hqa0, Hlim', Hlim, Hrs, Hre.
      reflexivity. }
    pose proof (NoDup_fmap_elem_inj assignment_key asg a' a0 Hkeys Ha' Ha0
                  Hkey) as ->.
    unfold m. rewrite Hs0, Hl0. reflexivity.
Qed.

End RangesOfPlan.

(** [generate_messages_ranges] on 12 elements and 6 ranks: the receives of
    every rank cover its columns. *)
Lemma generate_messages_ranges_6_12 :
  0 < 6 < table_size (table_of_size 12)
  /\ exists plan msgs,
       get_plan spec_num_subgrid_cols 6 (table_of_size 12) = Some plan
       /\ generate_messages spec_num_subgrid_cols plan = Some msgs
       /\ forall (q : nat) g list_q x,
            plan !! Z.of_nat q = Some g -> msgs !! q = Some list_q ->
            col_start g <= x <= col_stop g ->
            exists m,
              m ∈ list_q /\ message_dir m = receive
              /\ start (range m) <= x <= stop (range m).
Proof.
  assert (H : 0 < 6 < table_size (table_of_size 12))
    by (split; reflexivity).
  split; [exact H|].
  destruct (generate_messages_ranges spec_num_subgrid_cols
              spec_num_subgrid_cols_divides 6 (table_of_size 12) H)
    as (plan & msgs & Hplan & Hmsgs & Hranges).
  exists plan, msgs. split; [exact Hplan|]. split; [exact Hmsgs|].
  intros q g list_q x Hg Hq Hx.
  destruct (Hranges q g list_q Hg Hq) as [_ Hcover].
  destruct (Hcover x Hx) as (m & Hm & Hdir & Hin & _).
  exists m. auto.
Defined.

(** ** The windows of the exchange *)

Section ExchangeOfPlan.

Variable get_num_subgrid_cols : Z -> Z.
Hypothesis cols_ok : cols_divide get_num_subgrid_cols.

(** A plan of one rank holds the whole square. *)
Lemma single_rank_plan num_ranks table plan g :
  get_plan get_num_subgrid_cols num_ranks table = Some plan ->
  Z.of_nat (size plan) = 1 ->
  plan !! 0 = Some g ->
  nrows g = ncols g.
Proof.
  intros Hplan Hsize Hg.
  destruct (get_plan_keys _ cols_ok _ _ _ Hplan) as [Hr Hkeys].
  destruct (generate_messages_assignments _ cols_ok num_ranks table Hr)
    as (plan' & _ & _ & Hplan' & _).
  assert (plan' = plan) as -> by congruence.
  pose proof (num_effective_ranks_bounds num_ranks ltac:(lia)) as Hs.
  assert (Hone : num_effective_ranks num_ranks = 1).
  { rewrite <- Hsize. symmetry.
    rewrite (plan_size_keys plan (num_effective_ranks num_ranks)); [lia|lia|].
    intros i. rewrite Hkeys. case_decide as Hin.
    - split; [intros _; exact Hin|intros _].
      apply get_subgrid_returns; try lia; try exact cols_ok.
      apply num_effective_ranks_admissible. lia.
    - split; [intros [? ?]; discriminate|intros; contradiction]. }
  rewrite Hkeys, Hone in Hg. rewrite decide_True in Hg by lia.
  unfold get_subgrid in Hg. simpl in Hg.
  destruct (1 <? table_size table); simpl in Hg; [|discriminate].
  injection Hg as <-. reflexivity.
Qed.

(** X17.  For a plan of [get_plan] and a positive segment size,
    [exchange_results] on a rank of the plan returns, taking one action per
    message of the rank's list, and every window it opens lies inside the
    vector it is opened on: a send reads a non-empty slice of the rank's
    output vector of [nrows * segment_size] entries, a receive writes a
    non-empty slice of its input vector of [ncols * segment_size] entries,
    and a local copy moves as many entries as it overwrites.  (With a plan
    of a single rank the two vectors have the same length and are copied
    whole.) *)
Theorem exchange_results_windows (num_ranks : Z) (table : element_table)
    (my_rank : nat) (segment_size : Z) :
  0 < num_ranks < table_size table ->
  0 < segment_size ->
  exists plan,
    get_plan get_num_subgrid_cols num_ranks table = Some plan
    /\ forall g,
         plan !! Z.of_nat my_rank = Some g ->
         exists actions,
           exchange_results get_num_subgrid_cols segment_size plan
             (Z.of_nat my_rank) = Some actions
           /\ Forall (action_in_bounds (nrows g * segment_size)
                                       (ncols g * segment_size)) actions.
Proof.
  intros Hr Hseg.
  destruct (generate_messages_assignments _ cols_ok num_ranks table Hr)
    as (plan & msgs & asg & Hplan & Hmsgs & Hlen & Hlists & _ & _ & Hasg).
  exists plan. split; [exact Hplan|]. intros g Hg.
  destruct (plan_rank_bands _ cols_ok _ _ _ _ _ Hplan Hg) as (Hq & _).
  destruct (generate_messages_of_plan _ cols_ok _ _ _ Hplan)
    as (_ & _ & _ & _ & _ & Hsize).
  pose proof (num_effective_ranks_bounds num_ranks ltac:(lia)) as Hs.
  destruct (subgrid_rows_positive _ cols_ok _ (proj1 Hs)) as [_ Hfac].
  assert (Hrank : (my_rank < size plan)%nat) by lia.
  unfold exchange_results.
  assert ((0 <=? Z.of_nat my_rank) = true) as -> by lia.
  assert ((Z.of_nat my_rank <? Z.of_nat (size plan)) = true) as -> by lia.
  simpl.
  destruct (Z.eqb_spec (Z.of_nat (size plan)) 1) as [Hone|Hmore].
  - exists [copy_whole]. split; [reflexivity|].
    constructor; [|constructor]. simpl.
    assert (my_rank = 0%nat) as -> by lia.
    rewrite (single_rank_plan _ _ _ _ Hplan Hone Hg). reflexivity.
  - rewrite Hmsgs, Hg.
    assert (Hat : at_index msgs (Z.of_nat my_rank)
                  = Some (flat_map (assignment_messages my_rank) asg)).
    { apply at_index_Some. rewrite Nat2Z.id. split; [lia|].
      apply Hlists. exact Hrank. }
    rewrite Hat.
    exists (exchange_action_of (Z.of_nat my_rank) g segment_size
              <$> flat_map (assignment_messages my_rank) asg).
    split.
    + apply mapM_fmap_ext. intros m _.
      unfold copy_to_input, dispatch_message, exchange_action_of.
      assert ((0 <? segment_size) = true) as -> by lia. simpl.
      destruct (target m =? Z.of_nat my_rank), (message_dir m); reflexivity.
    + apply Forall_fmap, Forall_forall. intros m Hm.
      destruct (plan_message_range _ cols_ok _ _ _ _ _ _ _ Hplan Hasg Hg Hm)
        as (g' & Hg' & Hrange & Hne).
      unfold compose, exchange_action_of, output_window, input_window,
        to_local_row, to_local_col.
      destruct (message_dir m) eqn:Hdir.
      * destruct (Z.eqb_spec (target m) (Z.of_nat my_rank)) as [Hself|Hother].
        -- rewrite Hself, Hg in Hg'. injection Hg' as <-.
           rewrite Hrange in Hne |- *. simpl in Hne |- *.
           unfold window_in, nrows, ncols. simpl. nia.
        -- rewrite Hrange in Hne |- *. simpl in Hne |- *.
           unfold window_in, nrows. simpl. nia.
      * destruct (Z.eqb_spec (target m) (Z.of_nat my_rank)) as [Hself|Hother];
          [exact I|].
        rewrite Hrange in Hne |- *. simpl in Hne |- *.
        unfold window_in, ncols. simpl. nia.
Qed.

End ExchangeOfPlan.

Lemma exchange_results_windows_6_12 :
  0 < 6 < table_size (table_of_size 12)
  /\ exists plan,
       get_plan spec_num_subgrid_cols 6 (table_of_size 12) = Some plan
       /\ forall g,
            plan !! 2 = Some g ->
            exists actions,
              exchange_results spec_num_subgrid_cols 10 plan 2 = Some actions
              /\ Forall (action_in_bounds (nrows g * 10) (ncols g * 10))
                        actions.
Proof.
  assert (H : 0 < 6 < table_size (table_of_size 12))
    by (split; reflexivity).
  split; [exact H|].
  exact (exchange_results_windows spec_num_subgrid_cols
           spec_num_subgrid_cols_divides 6 (table_of_size 12) 2 10 H
           ltac:(reflexivity)).
Defined.

(** ** Gathering *)

Lemma partition_copy_toggle_pairs {A} (pairs : list (A * A)) :
  partition_copy_toggle false (flat_map (fun p => [fst p; snd p]) pairs)
  = (fst <$> pairs, snd <$> pairs).
Proof.
  induction pairs as [|[a b] pairs IH]; [reflexivity|].
  simpl flat_map. cbn [app partition_copy_toggle negb fst snd].
  rewrite IH. reflexivity.
Qed.

(** X18.  On the root, [gather_errors] takes apart what the gather put
    together: from the buffer holding the pair [{rmse, relative}] of every
    local rank in rank order, the toggling predicate moves the first
    component of every pair to the first vector and the second to the
    second, so that entry [r] of either vector is the error of local rank
    [r]; the two vectors have one entry per rank. *)
Theorem gather_errors_root_unzips {A : Type} (errors : list (A * A)) :
  let error_vect := flat_map (fun p => [fst p; snd p]) errors in
  gather_errors_root error_vect = (fst <$> errors, snd <$> errors)
  /\ (forall (r : nat) e, errors !! r = Some e ->
        fst (gather_errors_root error_vect) !! r = Some (fst e)
        /\ snd (gather_errors_root error_vect) !! r = Some (snd e))
  /\ length (fst (gather_errors_root error_vect)) = length errors
  /\ length (snd (gather_errors_root error_vect)) = length errors.
Proof.
  intros error_vect. unfold gather_errors_root, error_vect.
  rewrite partition_copy_toggle_pairs. simpl.
  split; [reflexivity|]. split.
  - intros r e He. rewrite !list_lookup_fmap, He. split; reflexivity.
  - rewrite !length_fmap. split; reflexivity.
Qed.





Section GatherOfPlan.

Variable get_num_subgrid_cols : Z -> Z.
Hypothesis cols_ok : cols_divide get_num_subgrid_cols.


End GatherOfPlan.


(** ** Round robin balances the sends *)

Lemma turns_at_succ n num_cols w :
  0 < num_cols -> 0 <= w < num_cols -> 0 <= n ->
  turns_at (n + 1) num_cols w
  = turns_at n num_cols w + (if decide (n mod num_cols = w) then 1 else 0).
Proof.
  intros Hnc Hw Hn. unfold turns_at.
  pose proof (Z.div_mod n num_cols ltac:(lia)) as Hdm.
  pose proof (Z.mod_pos_bound n num_cols Hnc) as Hb.
  set (a := n / num_cols) in *. set (b := n mod num_cols) in *.
  case_decide as Hd.
  - replace (n + 1 + num_cols - 1 - w) with ((a + 1) * num_cols) by nia.
    replace (n + num_cols - 1 - w) with ((num_cols - 1) + a * num_cols) by nia.
    rewrite Z.div_mul by lia.
    rewrite Z.div_add by lia.
    rewrite Z.div_small by lia. lia.
  - destruct (Z_lt_le_dec w b) as [Hlt|Hle].
    + replace (n + 1 + num_cols - 1 - w)
        with ((b - w) + (a + 1) * num_cols) by nia.
      replace (n + num_cols - 1 - w)
        with ((b - w - 1) + (a + 1) * num_cols) by nia.
      rewrite !Z.div_add by lia. rewrite !Z.div_small by lia. lia.
    + replace (n + 1 + num_cols - 1 - w)
        with ((num_cols + b - w) + a * num_cols) by nia.
      replace (n + num_cols - 1 - w)
        with ((num_cols + b - w - 1) + a * num_cols) by nia.
      rewrite !Z.div_add by lia. rewrite !Z.div_small by lia. lia.
Qed.

Lemma turns_at_shift n num_cols w t :
  0 < num_cols ->
  turns_at (n + t * num_cols) num_cols w = turns_at n num_cols w + t.
Proof.
  intros Hnc. unfold turns_at.
  replace (n + t * num_cols + num_cols - 1 - w)
    with (n + num_cols - 1 - w + t * num_cols) by lia.
  apply Z.div_add. lia.
Qed.

(** Only the place of the wheel matters, not how often it went round. *)
Lemma turns_at_mod i n num_cols w :
  0 < num_cols ->
  turns_at (i mod num_cols + n) num_cols w - turns_at (i mod num_cols) num_cols w
  = turns_at (i + n) num_cols w - turns_at i num_cols w.
Proof.
  intros Hnc.
  pose proof (Z.div_mod i num_cols ltac:(lia)) as Hdm.
  replace (i + n) with (i mod num_cols + n + (i / num_cols) * num_cols) by lia.
  replace (turns_at i num_cols w)
    with (turns_at (i mod num_cols + (i / num_cols) * num_cols) num_cols w)
    by (f_equal; lia).
  rewrite !turns_at_shift by exact Hnc. lia.
Qed.

Lemma turns_at_bounds n num_cols w :
  0 < num_cols -> 0 <= w < num_cols ->
  n / num_cols <= turns_at n num_cols w <= n / num_cols + 1.
Proof.
  intros Hnc Hw. unfold turns_at. split.
  - apply Z.div_le_mono; lia.
  - replace (n / num_cols + 1) with ((n + 1 * num_cols) / num_cols)
      by (rewrite Z.div_add by lia; reflexivity).
    apply Z.div_le_mono; lia.
Qed.

Lemma wheel_index_range num_cols wheels row :
  0 < num_cols -> wheels_ok num_cols wheels ->
  0 <= wheel_index wheels row < num_cols.
Proof.
  intros Hnc Hok. unfold wheel_index.
  destruct (at_index wheels row) as [w|] eqn:Hw; simpl; [|lia].
  apply at_index_Some in Hw as [_ Hlk].
  apply (proj1 (Forall_lookup _ _) Hok _ _ Hlk).
Qed.

Lemma remote_assignments_cons s a asg :
  remote_assignments s (a :: asg)
  = (if decide (sender a = s /\ receiver a <> s) then 1 else 0)
    + remote_assignments s asg.
Proof.
  unfold remote_assignments. rewrite filter_cons. case_decide; simpl; lia.
Qed.

(** How often a run of passes makes a rank send to another rank: as often
    as the wheel of its row stops at its place. *)
Lemma remote_assignments_turns num_rows num_cols its :
  0 < num_cols ->
  forall wheels asg,
    wheels_ok num_cols wheels ->
    Forall (iteration_in_grid num_rows num_cols) its ->
    assignments num_cols wheels its = Some asg ->
    forall row w, 0 <= w < num_cols ->
      remote_assignments (row * num_cols + w) asg
      = turns_at (wheel_index wheels row + spins row its) num_cols w
        - turns_at (wheel_index wheels row) num_cols w.
Proof.
  intros Hnc.
  induction its as [|it its IH]; intros wheels asg Hok Hgrid Hasg row w Hw.
  - simpl in Hasg. injection Hasg as <-. rewrite spins_nil, Z.add_0_r.
    unfold remote_assignments. simpl. lia.
  - simpl in Hasg.
    destruct (sender_rank _ _ _ _ _) as [[s wheels']|] eqn:Hs; [|discriminate].
    destruct (assignments _ wheels' its) as [rest|] eqn:Hrest; [|discriminate].
    injection Hasg as <-.
    apply Forall_cons in Hgrid as [(Hc & Hrow & Hr) Hgrid].
    destruct (sender_rank_spec _ _ _ _ _ _ _ Hok Hs)
      as (_ & Hok' & _ & Hsame & Hother).
    rewrite remote_assignments_cons, spins_cons. simpl sender. simpl receiver.
    rewrite (IH _ _ Hok' Hgrid Hrest row w Hw).
    pose proof (wheel_index_range num_cols wheels row Hnc Hok) as Hi.
    pose proof (wheel_index_range num_cols wheels' row Hnc Hok') as Hi'.
    destruct (decide (it_row it = it_receiver_row it)) as [Heq|Hne].
    + destruct (Hsame Heq) as [-> ->].
      rewrite decide_False by (intros [H1 H2]; congruence).
      rewrite decide_False by (intros [H1 H2]; congruence).
      rewrite !Z.add_0_l. reflexivity.
    + destruct (Hother Hne) as (-> & Hidx & Hmod).
      specialize (Hmod row).
      rewrite (Z.mod_small (wheel_index wheels' row)) in Hmod by lia.
      destruct (decide (it_row it = row)) as [Hrow'|Hrow'].
      * subst row.
        rewrite (decide_True (P := _ = _ /\ it_receiver_row it <> _))
          by (split; [reflexivity|congruence]).
        rewrite decide_True in Hmod by reflexivity.
        rewrite Hmod, turns_at_mod by exact Hnc.
        pose proof (turns_at_succ (wheel_index wheels (it_row it)) num_cols w
                      Hnc Hw ltac:(lia)) as Hsucc.
        rewrite (Z.mod_small (wheel_index wheels (it_row it))) in Hsucc by lia.
        replace (wheel_index wheels (it_row it)
                 + (1 + spins (it_row it) its))
          with (wheel_index wheels (it_row it) + 1 + spins (it_row it) its)
          by lia.
        rewrite Hsucc.
        destruct (decide (wheel_index wheels (it_row it) = w)) as [Hw'|Hw'].
        -- rewrite decide_True; [lia|].
           split; [lia|]. unfold receiver_rank.
           intros Habs.
           apply (rank_row_col_unique num_cols) in Habs as [_ Habs];
             [congruence|lia|lia].
        -- rewrite decide_False; [lia|]. intros [Habs _]. lia.
      * rewrite (decide_False (P := it_row it = row /\ _))
          by (intros [H1 _]; congruence).
        rewrite decide_False in Hmod by congruence.
        rewrite Z.add_0_r, Z.mod_small in Hmod by lia. rewrite Hmod.
        rewrite decide_False; [rewrite !Z.add_0_l; reflexivity|].
        intros [Habs _].
        apply (rank_row_col_unique num_cols) in Habs as [_ Habs];
          [congruence|lia|lia].
Qed.

(** The remote sends on the list of a rank are the assignments that make
    it send to another rank. *)
Lemma remote_sends_assignments (q : nat) asg :
  remote_sends q (flat_map (assignment_messages q) asg)
  = remote_assignments (Z.of_nat q) asg.
Proof.
  unfold remote_sends, remote_assignments.
  induction asg as [|a asg IH]; [reflexivity|].
  simpl flat_map. rewrite filter_app, length_app, Nat2Z.inj_add, IH.
  rewrite (filter_cons _ a). unfold assignment_messages.
  destruct (decide (receiver a = Z.of_nat q)) as [Hr|Hr];
    destruct (decide (sender a = Z.of_nat q)) as [Hs|Hs]; simpl;
    rewrite ?filter_cons, ?filter_nil; simpl;
    repeat case_decide; simpl; try lia; exfalso; intuition congruence.
Qed.

Section BalanceOfPlan.

Variable get_num_subgrid_cols : Z -> Z.
Hypothesis cols_ok : cols_divide get_num_subgrid_cols.

(** X10.  In the schedule [generate_messages] returns for a plan of
    [get_plan], the round-robin choice spreads the transfers over the ranks
    of a subgrid row: any two ranks of the same row are asked to send to
    other ranks equally often, up to one message.  (A send to another rank
    is what [exchange_results] hands to [MPI_Send].) *)
Theorem generate_messages_balanced (num_ranks : Z) (table : element_table) :
  0 < num_ranks < table_size table ->
  let cols := get_num_subgrid_cols (num_effective_ranks num_ranks) in
  exists plan msgs,
    get_plan get_num_subgrid_cols num_ranks table = Some plan
    /\ generate_messages get_num_subgrid_cols plan = Some msgs
    /\ forall (q q' : nat) list_q list_q',
         msgs !! q = Some list_q -> msgs !! q' = Some list_q' ->
         Z.of_nat q / cols = Z.of_nat q' / cols ->
         -1 <= remote_sends q list_q - remote_sends q' list_q' <= 1.
Proof.
  intros Hr cols. unfold cols. clear cols.
  destruct (generate_messages_assignments _ cols_ok num_ranks table Hr)
    as (plan & msgs & asg & Hplan & Hmsgs & Hlen & Hlists & _ & _ & Hasg).
  exists plan, msgs. split; [exact Hplan|]. split; [exact Hmsgs|].
  destruct (generate_messages_of_plan _ cols_ok _ _ _ Hplan)
    as (_ & _ & _ & _ & Hlcb & _).
  pose proof (num_effective_ranks_bounds num_ranks ltac:(lia)) as Hs.
  destruct (cols_ok _ (proj1 Hs)) as [Hc _].
  simpl in Hasg.
  set (cols := get_num_subgrid_cols (num_effective_ranks num_ranks)) in *.
  set (rb := band_stops (table_size table)
               (num_effective_ranks num_ranks / cols)) in *.
  set (cb := band_stops (table_size table) cols) in *.
  assert (Hcount : forall (q : nat) list_q,
            msgs !! q = Some list_q ->
            remote_sends q list_q
            = turns_at (spins (Z.of_nat q / cols)
                          (iterations (find_column_dependencies rb cb)
                             (Z.of_nat (length rb))))
                cols (Z.of_nat q mod cols)).
  { intros q list_q Hq.
    assert (Hlt : (q < size plan)%nat).
    { rewrite <- Hlen. eapply lookup_lt_Some; eauto. }
    rewrite (Hlists q Hlt) in Hq. injection Hq as <-.
    rewrite remote_sends_assignments.
    pose proof (Z.div_mod (Z.of_nat q) cols ltac:(lia)) as Hdm.
    pose proof (Z.mod_pos_bound (Z.of_nat q) cols Hc) as Hw.
    replace (remote_assignments (Z.of_nat q) asg)
      with (remote_assignments
              (Z.of_nat q / cols * Z.of_nat (length cb)
               + Z.of_nat q mod cols) asg)
      by (f_equal; rewrite Hlcb; lia).
    assert (Hnc : 0 < Z.of_nat (length cb)) by lia.
    assert (Hgrid : Forall (iteration_in_grid (Z.of_nat (length rb))
                              (Z.of_nat (length cb)))
                      (iterations (find_column_dependencies rb cb)
                         (Z.of_nat (length rb)))).
    { apply Forall_forall. intros it Hit.
      apply find_column_dependencies_in_grid. exact Hit. }
    rewrite (remote_assignments_turns (Z.of_nat (length rb))
               (Z.of_nat (length cb)) _ Hnc _ _
               (wheels_ok_replicate (Z.of_nat (length cb)) (length rb)
                  (or_introl Hnc))
               Hgrid Hasg (Z.of_nat q / cols) (Z.of_nat q mod cols)
               ltac:(lia)).
    rewrite wheel_index_replicate by reflexivity.
    rewrite Z.add_0_l, Hlcb.
    unfold turns_at at 2.
    rewrite (Z.div_small (0 + cols - 1 - Z.of_nat q mod cols)) by lia.
    lia. }
  intros q q' list_q list_q' Hq Hq' Hrow.
  rewrite (Hcount q list_q Hq), (Hcount q' list_q' Hq'), Hrow.
  pose proof (Z.mod_pos_bound (Z.of_nat q) cols Hc) as Hw.
  pose proof (Z.mod_pos_bound (Z.of_nat q') cols Hc) as Hw'.
  set (S := spins (Z.of_nat q' / cols) _).
  pose proof (turns_at_bounds S cols _ Hc Hw).
  pose proof (turns_at_bounds S cols _ Hc Hw').
  lia.
Qed.

End BalanceOfPlan.

Lemma generate_messages_balanced_6_12 :
  0 < 6 < table_size (table_of_size 12)
  /\ exists plan msgs,
       get_plan spec_num_subgrid_cols 6 (table_of_size 12) = Some plan
       /\ generate_messages spec_num_subgrid_cols plan = Some msgs
       /\ forall list_0 list_1,
            msgs !! 0%nat = Some list_0 -> msgs !! 1%nat = Some list_1 ->
            -1 <= remote_sends 0 list_0 - remote_sends 1 list_1 <= 1.
Proof.
  assert (H : 0 < 6 < table_size (table_of_size 12))
    by (split; reflexivity).
  split; [exact H|].
  destruct (generate_messages_balanced spec_num_subgrid_cols
              spec_num_subgrid_cols_divides 6 (table_of_size 12) H)
    as (plan & msgs & Hplan & Hmsgs & Hbal).
  exists plan, msgs. split; [exact Hplan|]. split; [exact Hmsgs|].
  intros list_0 list_1 H0 H1. apply (Hbal 0%nat 1%nat); [exact H0|exact H1|].
  reflexivity.
Defined.

(** ** The standalone generator does not balance the sends *)

(** With sorted stops the first round of passes serves the first column
    interval from the first row interval, one pass per receiving row. *)
Lemma first_round r_stop c_stop :
  sorted_stops r_stop -> sorted_stops c_stop ->
  (1 <= length r_stop)%nat -> (1 <= length c_stop)%nat ->
  exists lim rest,
    iterations (find_column_dependencies r_stop c_stop)
      (Z.of_nat (length r_stop))
    = ((fun r => mk_iteration 0 0 lim r)
         <$> seqZ 0 (Z.of_nat (length r_stop))) ++ rest.
Proof.
  intros Hrb Hcb Hnr Hnc.
  destruct c_stop as [|c0 cb]; [simpl in Hnc; lia|].
  destruct r_stop as [|r0 rb]; [simpl in Hnr; lia|].
  unfold sorted_stops in Hrb, Hcb. simpl in Hrb, Hcb.
  apply andb_prop in Hrb as [Hr0 _].
  unfold find_column_dependencies. simpl find_column_dependencies_from.
  rewrite Hr0. simpl orb. cbv iota.
  destruct (column_rows_prefix 0 c0 rb (0 + 1) (r0 + 1)
              [(0, mk_grid_limits (Z.max 0 0) (Z.min r0 c0))])
    as [more Hmore].
  { repeat constructor. }
  rewrite Hmore. simpl app.
  exists (mk_grid_limits (Z.max 0 0) (Z.min r0 c0)).
  unfold iterations. cbn [length].
  rewrite seqZ_cons by lia. simpl flat_map.
  unfold column_iterations at 1. simpl at_index. simpl default.
  simpl flat_map. unfold dependency_iterations at 1. simpl fst. simpl snd.
  rewrite <- app_assoc. eauto.
Qed.

(** When the first row interval lies inside the first column interval, no
    other column interval depends on it. *)
Lemma first_row_column r_stop c_stop r0 c0 it :
  sorted_stops r_stop -> sorted_stops c_stop ->
  r_stop !! 0%nat = Some r0 -> c_stop !! 0%nat = Some c0 -> r0 <= c0 ->
  it ∈ iterations (find_column_dependencies r_stop c_stop)
         (Z.of_nat (length r_stop)) ->
  it_row it = 0 ->
  it_column it = 0
  /\ it_limits it = overlap (0, r0) (0, c0)
  /\ 0 <= it_receiver_row it < Z.of_nat (length r_stop).
Proof.
  intros Hrb Hcb Hr0 Hc0 Hle Hit Hrow.
  destruct (iteration_range _ _ _ Hrb Hcb Hit)
    as (rs & re & cs & ce & Brow & Bcol & _ & Hlim & _ & _ & Hne).
  apply elem_of_iterations in Hit as (Hc & Hr & _).
  rewrite Hrow in Brow. simpl in Brow.
  destruct r_stop as [|r0' rb]; [discriminate|].
  destruct c_stop as [|c0' cb]; [discriminate|].
  simpl in Hr0, Hc0. injection Hr0 as ->. injection Hc0 as ->.
  simpl in Brow. injection Brow as <- <-.
  assert (Hcol : Z.to_nat (it_column it) = 0%nat).
  { destruct (Z.to_nat (it_column it)) as [|j] eqn:Hj; [reflexivity|exfalso].
    pose proof (bands_from_ordered 0 (c0 :: cb) 0 (S j) 0 c0 cs ce Hcb
                  eq_refl Bcol ltac:(lia)).
    lia. }
  rewrite Hcol in Bcol. simpl in Bcol. injection Bcol as <- <-.
  split; [lia|]. split; [exact Hlim|exact Hr].
Qed.

Lemma receiver_spins_none r its :
  Forall (fun it => it_receiver_row it <> r) its -> receiver_spins r its = 0.
Proof.
  induction 1 as [|it its Hit _ IH]; [reflexivity|].
  rewrite receiver_spins_cons, IH.
  rewrite decide_False by (intros [H _]; contradiction). reflexivity.
Qed.

Lemma remote_assignments_app s asg1 asg2 :
  remote_assignments s (asg1 ++ asg2)
  = remote_assignments s asg1 + remote_assignments s asg2.
Proof.
  unfold remote_assignments. rewrite filter_app, length_app. lia.
Qed.

Lemma remote_assignments_nonneg s asg : 0 <= remote_assignments s asg.
Proof. unfold remote_assignments. lia. Qed.

(** A round in which node [s] serves every receiving row but row 0. *)
Lemma remote_assignments_round s num_cols lim (n : nat) :
  forall first,
    0 < num_cols -> 0 <= s < num_cols -> 1 <= first ->
    remote_assignments s
      ((fun r => mk_assignment s (r * num_cols + 0) lim)
         <$> seqZ first (Z.of_nat n))
    = Z.of_nat n.
Proof.
  induction n as [|n IH]; intros first Hnc Hs Hfirst; [reflexivity|].
  rewrite seqZ_cons by lia. rewrite fmap_cons, remote_assignments_cons.
  simpl sender. simpl receiver.
  rewrite decide_True by (split; [reflexivity|nia]).
  replace (Z.pred (Z.of_nat (S n))) with (Z.of_nat n) by lia.
  rewrite IH by lia. lia.
Qed.

Lemma remote_assignments_none s asg :
  (forall a, a ∈ asg -> sender a = s -> receiver a = s) ->
  remote_assignments s asg = 0.
Proof.
  intros Hnone. induction asg as [|a asg IH]; [reflexivity|].
  rewrite remote_assignments_cons, IH.
  - rewrite decide_False; [reflexivity|].
    intros [Hs Hr]. apply Hr, Hnone; [left|exact Hs].
  - intros a' Ha'. apply Hnone. right. exact Ha'.
Qed.

(** X11.  The standalone generator does not balance the sends.  Whenever
    the stops delimit at least three row intervals and two column
    intervals and the first row interval lies inside the first column
    interval (as it does in the plans of [get_plan], which have at least as
    many subgrid rows as columns), nodes 0 and 1 belong to the same row, yet
    node 0 is asked to send to other nodes at least [num_rows - 1 >= 2]
    times and node 1 never: the wheels count per receiving row, so every
    row's first request goes to the first node of the row that holds the
    data. *)
Theorem mpi_instructions_unbalanced (r_stop c_stop : list Z) (r0 c0 : Z) :
  sorted_stops r_stop -> sorted_stops c_stop ->
  (3 <= length r_stop)%nat -> (2 <= length c_stop)%nat ->
  r_stop !! 0%nat = Some r0 -> c_stop !! 0%nat = Some c0 -> r0 <= c0 ->
  exists instructions list_0 list_1,
    mpi_instructions r_stop c_stop = Some instructions
    /\ schedule_of instructions !! 0%nat = Some list_0
    /\ schedule_of instructions !! 1%nat = Some list_1
    /\ Z.of_nat (length r_stop) - 1 <= remote_sends 0 list_0
    /\ remote_sends 1 list_1 = 0.
Proof.
  intros Hrb Hcb Hnr Hnc Hr0 Hc0 Hle.
  destruct (mpi_instructions_returns r_stop c_stop) as [instructions Hret].
  destruct (mpi_instructions_Some _ _ _ Hret) as (Hlen & asg & Hasg & Hlists).
  destruct (first_round r_stop c_stop Hrb Hcb ltac:(lia) ltac:(lia))
    as (lim & rest & Hits).
  set (num_rows := Z.of_nat (length r_stop)) in *.
  set (num_cols := Z.of_nat (length c_stop)) in *.
  set (its := iterations (find_column_dependencies r_stop c_stop) num_rows)
    in *.
  set (round := (fun r => mk_iteration 0 0 lim r) <$> seqZ 0 num_rows) in *.
  assert (Hround_len : length round = length r_stop).
  { unfold round. rewrite length_fmap, length_seqZ. lia. }
  assert (Hnodup : NoDup its).
  { apply iterations_NoDup. intros c deps.
    apply find_column_dependencies_distinct; assumption. }
  assert (Hk : forall k : nat, (k < length r_stop)%nat ->
            its !! k = Some (mk_iteration 0 0 lim (Z.of_nat k))).
  { intros k Hlt. rewrite Hits, lookup_app_l by lia.
    unfold round. rewrite list_lookup_fmap, lookup_seqZ_lt by lia.
    reflexivity. }
  assert (Hlim : lim = overlap (0, r0) (0, c0)).
  { destruct (first_row_column r_stop c_stop r0 c0 _ Hrb Hcb Hr0 Hc0 Hle
                (list_elem_of_lookup_2 _ _ _ (Hk 0%nat ltac:(lia))) eq_refl)
      as (_ & H & _). exact H. }
  assert (Hrest : forall it, it ∈ rest -> it_row it <> 0).
  { intros it Hin Hrow.
    assert (Hin' : it ∈ its) by (rewrite Hits; apply elem_of_app; auto).
    destruct (first_row_column r_stop c_stop r0 c0 it Hrb Hcb Hr0 Hc0 Hle
                Hin' Hrow) as (Hcol & Hl & Hr).
    rewrite Hits in Hnodup. apply NoDup_app in Hnodup as (_ & Hdisj & _).
    apply (Hdisj it); [|exact Hin].
    unfold round. apply list_elem_of_fmap. exists (it_receiver_row it).
    split; [|apply elem_of_seqZ; lia].
    destruct it; simpl in *; subst. reflexivity. }
  assert (Hsend : forall (k : nat) a,
            (k < length r_stop)%nat -> asg !! k = Some a ->
            a = mk_assignment 0 (Z.of_nat k * num_cols + 0) lim).
  { intros k a Hlt Ha.
    destruct (assignments_by_receiver_in_grid r_stop c_stop asg k _ a
                Hasg (Hk k Hlt) Ha)
      as (Hpos & _ & L & R & Hsame & Hother & _).
    fold num_cols in Hpos, R, Hother. fold num_rows its in Hother.
    simpl in L, R, Hsame, Hother.
    assert (Hs : sender a = 0).
    { destruct k as [|k]; [rewrite (Hsame eq_refl), R; reflexivity|].
      rewrite (Hother ltac:(lia)).
      rewrite receiver_spins_none; [rewrite Z.mod_0_l by lia; reflexivity|].
      apply Forall_forall. intros it Hit.
      apply elem_of_take in Hit as (j & Hj & Hjk).
      rewrite (Hk j ltac:(lia)) in Hj. injection Hj as <-. simpl. lia. }
    destruct a. simpl in *. subst. reflexivity. }
  eexists instructions, _, _.
  split; [exact Hret|].
  split; [apply Hlists; nia|]. split; [apply Hlists; nia|].
  rewrite !remote_sends_assignments. split.
  - rewrite <- (take_drop (length r_stop) asg), remote_assignments_app.
    pose proof (remote_assignments_nonneg (Z.of_nat 0)
                  (drop (length r_stop) asg)).
    assert (Hpre : take (length r_stop) asg
                   = (fun r => mk_assignment 0 (r * num_cols + 0) lim)
                       <$> seqZ 0 num_rows).
    { pose proof (assignments_by_receiver_length _ _ _ _ Hasg) as Hl.
      fold its in Hl. rewrite Hits, length_app in Hl.
      apply (list_eq_same_length _ _ (length r_stop)).
      - rewrite length_fmap, length_seqZ. lia.
      - rewrite length_take. lia.
      - intros k a a' Hlt Ha Ha'.
        apply lookup_take_Some in Ha as [Ha _].
        rewrite (Hsend k a Hlt Ha).
        rewrite list_lookup_fmap, lookup_seqZ_lt in Ha' by lia.
        simpl in Ha'. injection Ha' as <-. reflexivity. }
    rewrite Hpre. unfold num_rows at 2.
    rewrite seqZ_cons by lia. rewrite fmap_cons, remote_assignments_cons.
    simpl sender. simpl receiver.
    rewrite decide_False by (intros [_ H0]; apply H0; reflexivity).
    replace (Z.pred (Z.of_nat (length r_stop)))
      with (Z.of_nat (length r_stop - 1)) by lia.
    change (Z.of_nat 0) with 0 in *.
    rewrite (remote_assignments_round 0 num_cols lim _ (Z.succ 0))
      by (unfold num_cols; lia).
    unfold num_rows. lia.
  - apply remote_assignments_none. intros a Ha Hs. exfalso.
    apply list_elem_of_lookup in Ha as [k Ha].
    destruct (lookup_lt_is_Some_2 its k) as [it Hit].
    { rewrite <- (assignments_by_receiver_length _ _ _ _ Hasg).
      eapply lookup_lt_Some; eauto. }
    destruct (assignments_by_receiver_in_grid r_stop c_stop asg k it a
                Hasg Hit Ha) as (_ & (_ & Hrow & _) & _ & _ & _ & _ & Hin).
    fold num_cols in Hin. rewrite Hs in Hin. simpl in Hin.
    assert (Hrow0 : it_row it = 0) by (unfold num_cols in *; nia).
    destruct (le_lt_dec (length r_stop) k) as [Hge|Hlt].
    + rewrite Hits, lookup_app_r in Hit by lia.
      apply (Hrest it (list_elem_of_lookup_2 _ _ _ Hit) Hrow0).
    + rewrite (Hsend k a Hlt Ha) in Hs. simpl in Hs. discriminate.
Qed.

Lemma mpi_instructions_unbalanced_example :
  exists instructions list_0 list_1,
    mpi_instructions [3; 7; 11] [5; 11] = Some instructions
    /\ schedule_of instructions !! 0%nat = Some list_0
    /\ schedule_of instructions !! 1%nat = Some list_1
    /\ 2 <= remote_sends 0 list_0
    /\ remote_sends 1 list_1 = 0.
Proof.
  apply (mpi_instructions_unbalanced [3; 7; 11] [5; 11] 3 5);
    try reflexivity; simpl; lia.
Defined.

(** ** The task workspace *)











(** ** The size estimate of an element *)



(** ** Shapes in the realspace transform *)

(** The operand of dimension [j]: all rows of the transform of that
    dimension, [degree] columns. *)
Lemma kron_operand_shape pde coords j m :
  kron_operand pde coords j = Some m ->
  exists d,
    at_index (get_dimensions pde) j = Some d
    /\ view_nrows m = get_degree d * 2 ^ get_level d
    /\ view_ncols m = get_degree d.
Proof.
  unfold kron_operand.
  destruct (at_index coords j) as [level|]; [|discriminate].
  destruct (at_index coords (j + num_dims pde)) as [cell|]; [|discriminate].
  destruct (at_index (get_dimensions pde) j) as [d|]; [|discriminate].
  intros [= <-]. exists d. split; [reflexivity|].
  unfold view_nrows, view_ncols, realspace_transform_nrows. simpl. lia.
Qed.

Lemma kron_matrices_of_shapes pde table i ms :
  Z.of_nat (length (get_dimensions pde)) = num_dims pde ->
  kron_matrices_of pde table i = Some ms ->
  Forall2 (fun m d => view_nrows m = get_degree d * 2 ^ get_level d
                      /\ view_ncols m = get_degree d)
          ms (get_dimensions pde).
Proof.
  intros Hdims. unfold kron_matrices_of.
  destruct (at_index table i) as [coords|]; [|discriminate].
  intros Hms. apply mapM_Some in Hms.
  pose proof (Forall2_length _ _ _ Hms) as Hlen.
  rewrite length_seqZ in Hlen.
  apply Forall2_same_length_lookup_2; [lia|].
  intros k m d Hm Hd.
  assert (Hk : seqZ 0 (num_dims pde) !! k = Some (Z.of_nat k)).
  { rewrite lookup_seqZ. split; [lia|].
    pose proof (lookup_lt_Some _ _ _ Hd). lia. }
  pose proof (Forall2_lookup_lr _ _ _ _ _ _ Hms Hk Hm) as Hop.
  apply kron_operand_shape in Hop as (d' & Hd' & Hrows & Hcols).
  apply at_index_Some in Hd' as [_ Hd']. rewrite Nat2Z.id in Hd'.
  assert (d' = d) as -> by congruence. auto.
Qed.

Lemma foldl_mul_Forall2 {A B} (f : A -> Z) (g : B -> Z) l k :
  Forall2 (fun x y => f x = g y) l k ->
  forall acc,
    foldl (fun r x => r * f x) acc l = foldl (fun r y => r * g y) acc k.
Proof.
  induction 1 as [|x y l k Hxy _ IH]; intros acc; simpl; [reflexivity|].
  rewrite Hxy. apply IH.
Qed.

Lemma foldl_mul_uniform (g : dimension -> Z) deg dims :
  Forall (fun d => g d = deg) dims ->
  forall acc,
    foldl (fun c d => c * g d) acc dims = acc * deg ^ Z.of_nat (length dims).
Proof.
  induction 1 as [|d dims Hd _ IH]; intros acc; simpl foldl.
  - simpl. lia.
  - rewrite IH, Hd. rewrite length_cons, Nat2Z.inj_succ, Z.pow_succ_r by lia.
    lia.
Qed.

(** X15.  When the PDE lists one dimension per [num_dims], every product
    [wavelet_to_realspace] builds has as many rows as the real-space vector
    is long ([prod], the product of [degree * 2^level] over the
    dimensions) and as many columns as the product of the degrees; if all
    dimensions have the degree of the first one, that is [stride], the
    length of the piece of [wave_space] the product is multiplied with.
    So under the assumption the source states, the product and the
    accumulation conform. *)
Theorem wavelet_to_realspace_shapes (P : precision) (pde : PDE)
    (table : element_table) (memory_limit_MB : Z) :
  Z.of_nat (length (get_dimensions pde)) = num_dims pde ->
  forall i product,
    kron_built i product
    ∈ fst (wavelet_to_realspace P pde table memory_limit_MB) ->
    fst product = real_space_prod pde
    /\ snd product
       = foldl (fun c d => c * get_degree d) 1 (get_dimensions pde)
    /\ (forall d0,
          get_dimensions pde !! 0%nat = Some d0 ->
          Forall (fun d => get_degree d = get_degree d0)
                 (get_dimensions pde) ->
          stride pde = Some (snd product)).
Proof.
  intros Hdims i product He.
  unfold wavelet_to_realspace in He.
  destruct (0 <? memory_limit_MB); simpl in He; [|inversion He].
  destruct (realspace_loop P pde table memory_limit_MB
              (seqZ 0 (table_size table)) []) as [log completed] eqn:Hrun.
  simpl in He.
  destruct (realspace_loop_checked _ _ _ _ _ _ _ _ Hrun _ He)
    as [Hin|(j & pr & [= <- <-] & _ & (ms & Hms & _ & Hk))]; [inversion Hin|].
  unfold recursive_kron in Hk. simpl in Hk.
  destruct (0 <? Z.of_nat (length ms)); simpl in Hk; [|discriminate].
  apply kron_suffix_shape in Hk as [Hrows Hcols].
  pose proof (kron_matrices_of_shapes _ _ _ _ Hdims Hms) as Hshapes.
  assert (H1 : fst product = real_space_prod pde).
  { rewrite Hrows. unfold real_space_prod.
    apply (foldl_mul_Forall2 view_nrows
             (fun d => get_degree d * 2 ^ get_level d)).
    eapply Forall2_impl; [exact Hshapes|]. simpl. tauto. }
  assert (H2 : snd product
               = foldl (fun c d => c * get_degree d) 1 (get_dimensions pde)).
  { rewrite Hcols. apply (foldl_mul_Forall2 view_ncols get_degree).
    eapply Forall2_impl; [exact Hshapes|]. simpl. tauto. }
  split; [exact H1|]. split; [exact H2|].
  intros d0 Hd0 Hall. unfold stride. rewrite Hd0, H2.
  rewrite (foldl_mul_uniform get_degree (get_degree d0) _ Hall). f_equal. lia.
Qed.

Lemma wavelet_to_realspace_shapes_1d :
  fst (4, 2) = real_space_prod pde_1d /\ stride pde_1d = Some (snd (4, 2)).
Proof.
  destruct (wavelet_to_realspace_shapes double_precision pde_1d table_1d 1
              eq_refl 0 (4, 2) ltac:(vm_compute; left))
    as (Hrows & _ & Hstride).
  split; [exact Hrows|].
  apply (Hstride (mk_dimension 1 2) eq_refl).
  repeat constructor.
Defined.

(** ** Output steps *)

Lemma write_at_step_true i freq :
  0 <= i -> 0 <= freq ->
  write_at_step i freq = Some true <-> 0 < freq /\ (i + 1) mod freq = 0.
Proof.
  intros Hi Hf. unfold write_at_step.
  assert ((0 <=? i) = true) as -> by lia.
  assert ((0 <=? freq) = true) as -> by lia. simpl.
  destruct (Z.eqb_spec freq 0) as [->|H0].
  { split; [discriminate|lia]. }
  destruct (Z.eqb_spec freq 1) as [->|H1].
  { rewrite Z.mod_1_r. split; [lia|reflexivity]. }
  rewrite Z.rem_mod_nonneg by lia.
  destruct (Z.eqb_spec ((i + 1) mod freq) 0) as [Hm|Hm].
  - split; [lia|reflexivity].
  - split; [discriminate|lia].
Qed.

Lemma div_succ_multiple n freq :
  0 <= n -> 0 < freq ->
  (n + 1) / freq
  = n / freq + (if decide ((n + 1) mod freq = 0) then 1 else 0).
Proof.
  intros Hn Hf.
  pose proof (Z.div_mod (n + 1) freq ltac:(lia)) as Hdm.
  pose proof (Z.mod_pos_bound (n + 1) freq Hf) as Hb.
  set (q := (n + 1) / freq) in *. set (r := (n + 1) mod freq) in *.
  case_decide as Hr.
  - rewrite <- (Z.div_unique_pos n freq (q - 1) (freq - 1)); nia.
  - rewrite <- (Z.div_unique_pos n freq q (r - 1)); nia.
Qed.

(** X16.  Over the steps [0 .. n - 1] of a run, [write_at_step] asks for
    output exactly at the steps [i] with [freq > 0] and [i + 1] a multiple
    of [freq] (the separate case [freq = 1] is the same rule), that is
    [n / freq] times, and never for [freq = 0].  A frequency larger than
    the number of steps gives no output at all, which is why the parser
    rejects it; any other positive one gives at least one. *)
Theorem write_at_step_outputs (n freq : Z) :
  0 <= n -> 0 <= freq ->
  (forall i, i ∈ output_steps n freq
             <-> 0 <= i < n /\ 0 < freq /\ (i + 1) mod freq = 0)
  /\ Z.of_nat (length (output_steps n freq))
     = (if decide (freq = 0) then 0 else n / freq)
  /\ (n < freq -> output_steps n freq = [])
  /\ (0 < freq <= n -> output_steps n freq <> []).
Proof.
  intros Hn Hf.
  assert (Hin : forall i, i ∈ output_steps n freq
                          <-> 0 <= i < n /\ 0 < freq /\ (i + 1) mod freq = 0).
  { intros i. unfold output_steps.
    rewrite list_elem_of_filter, elem_of_seqZ. split.
    - intros [Hw Hi]. split; [lia|].
      apply write_at_step_true; [lia|lia|exact Hw].
    - intros [Hi Hw]. split; [|lia].
      apply write_at_step_true; [lia|lia|exact Hw]. }
  assert (Hcount : Z.of_nat (length (output_steps n freq))
                   = if decide (freq = 0) then 0 else n / freq).
  { case_decide as H0.
    - assert (output_steps n freq = []) as ->; [|reflexivity].
      apply elem_of_nil_inv. intros i Hi.
      apply Hin in Hi as (_ & ? & _). lia.
    - rewrite <- (Z2Nat.id n) by lia. generalize (Z.to_nat n). clear Hn Hin.
      intros k. induction k as [|k IH].
      + simpl. rewrite Z.div_0_l by lia. reflexivity.
      + unfold output_steps in *.
        rewrite seqZ_S, filter_app, length_app, Nat2Z.inj_add, IH.
        rewrite Z.add_0_l.
        replace (Z.of_nat (S k)) with (Z.of_nat k + 1) by lia.
        rewrite div_succ_multiple by lia.
        rewrite filter_cons, filter_nil.
        pose proof (write_at_step_true (Z.of_nat k) freq ltac:(lia) Hf) as Hw.
        destruct (decide (write_at_step (Z.of_nat k) freq = Some true))
          as [Ht|Ht].
        * rewrite decide_True by (apply Hw; exact Ht). reflexivity.
        * rewrite decide_False; [reflexivity|].
          intros Hm. apply Ht, Hw. split; [lia|exact Hm]. }
  split; [exact Hin|]. split; [exact Hcount|]. split.
  - intros Hlt. apply elem_of_nil_inv. intros i Hi'.
    apply Hin in Hi' as (Hi & Hp & Hm).
    rewrite Z.mod_small in Hm by lia. lia.
  - intros Hle Hnil. rewrite Hnil in Hcount. simpl in Hcount.
    rewrite decide_False in Hcount by lia.
    assert (1 <= n / freq) by (apply Z.div_le_lower_bound; lia). lia.
Qed.

Lemma write_at_step_outputs_10_3 :
  Z.of_nat (length (output_steps 10 3)) = 3 /\ output_steps 10 3 <> [].
Proof.
  destruct (write_at_step_outputs 10 3 ltac:(lia) ltac:(lia))
    as (_ & Hcount & _ & Hsome).
  split; [exact Hcount|]. apply Hsome. lia.
Defined.
